(** * cell_counts.py: absolute cell counts from a FlowJo percent-of-parent export

    A shallow embedding of [cell_counts.py] and the verification of its
    hierarchy inference (the scan of gate depths, the choice of the starting
    gate, the parent indices) and of its count cascade.

    Conventions of the embedding.
    - A Python [str] is a [string]; its characters are read as the code
      points 0..255.
    - A call that can raise returns a [result]; the exception is the
      constructor of [exn] named after the Python class.
    - [input()] pops the head of [stdin : list string], the lines the user
      will type; an exhausted list raises [EOFError].  What the program
      prints is not modelled.
    - A [dict] is an association list in insertion order with one entry per
      key; a [set] of depths is a [gset nat].
    - A [Decimal] computes as [_pydecimal] does under the default context;
      it is built from a [str] as CPython's C module [_decimal] does, which
      [import decimal] loads: exactly, or not at all.
    - [int(str)] has CPython's default limit of 4300 digits.

    The file has three parts: the program, the vocabulary of the
    statements, and the verification. *)

From Stdlib Require Import ZArith NArith Lia List Ascii String Bool.
From stdpp Require Import base option list gmap.

Import ListNotations.
Local Open Scope string_scope.
Local Open Scope list_scope.

(** ** Exceptions and the result monad *)

Inductive exn : Type :=
| IndexError                               (* list index out of range *)
| TypeError                                (* str * Decimal *)
| KeyError (key : string)                  (* dict[key], key missing *)
| ValueError_not_in_list (x : string)      (* list.index(x), x missing *)
| ValueError_max_empty                     (* max() of an empty set *)
| ValueError_unpack                        (* a, b = l with len(l) <> 2 *)
| SystemExit                               (* sys.exit(0) *)
| EOFError                                 (* input() at end of input *)
| InvalidOperation                         (* decimal.InvalidOperation *)
| DivisionByZero                           (* decimal.DivisionByZero *)
| Overflow.                                (* decimal.Overflow *)

Inductive result (A : Type) : Type :=
| Ok (a : A)
| Raise (e : exn).
Arguments Ok {A} a.
Arguments Raise {A} e.

#[global] Instance result_ret : MRet result := fun A a => Ok a.
#[global] Instance result_bind : MBind result := fun A B k r =>
  match r with
  | Ok a => k a
  | Raise e => Raise e
  end.

(** [l[i]] for [i >= 0]. *)
Definition getitem {A} (l : list A) (i : nat) : result A :=
  match l !! i with
  | Some x => Ok x
  | None => Raise IndexError
  end.

(** [l[1:-1]]: all but the first and the last element. *)
Definition slice_1_m1 {A} (l : list A) : list A := removelast (tail l).

(** ** Python string methods *)

Module Str.

(** [c in chars] *)
Fixpoint mem (c : ascii) (chars : string) : bool :=
  match chars with
  | EmptyString => false
  | String a chars' => Ascii.eqb a c || mem c chars'
  end.

(** [s.startswith(p)] *)
Fixpoint startswith (p s : string) : bool :=
  match p, s with
  | EmptyString, _ => true
  | String a p', String b s' => Ascii.eqb a b && startswith p' s'
  | String _ _, EmptyString => false
  end.

(** [p in s] for a non-empty [p] *)
Fixpoint contains (p s : string) : bool :=
  match s with
  | EmptyString => false
  | String _ s' => startswith p s || contains p s'
  end.

Definition cons_head (c : ascii) (l : list string) : list string :=
  match l with
  | h :: t => String c h :: t
  | [] => [String c EmptyString]
  end.

(** [s.split(sep)] for a non-empty [sep]: the separators are found from left
    to right and do not overlap; [skip] counts the characters of a separator
    whose first character has just been read. *)
Fixpoint split_go (sep : string) (skip : nat) (s : string) : list string :=
  match s with
  | EmptyString => [EmptyString]
  | String c s' =>
      match skip with
      | S k => split_go sep k s'
      | O => if startswith sep s
             then EmptyString :: split_go sep (String.length sep - 1) s'
             else cons_head c (split_go sep 0 s')
      end
  end.

Definition split (sep s : string) : list string := split_go sep 0 s.

(** [sep.join(l)] *)
Fixpoint join (sep : string) (l : list string) : string :=
  match l with
  | [] => EmptyString
  | [x] => x
  | x :: l' => (x ++ sep ++ join sep l')%string
  end.

(** The part of [s] before its last ["/"], if it has one. *)
Fixpoint before_last_slash (s : string) : option string :=
  match s with
  | EmptyString => None
  | String c s' =>
      match before_last_slash s' with
      | Some h => Some (String c h)
      | None => if Ascii.eqb c "/" then Some EmptyString else None
      end
  end.

(** [s.rsplit("/", 1)[0]] *)
Definition rsplit1_head (s : string) : string :=
  match before_last_slash s with
  | Some h => h
  | None => s
  end.

Fixpoint lstrip (chars s : string) : string :=
  match s with
  | EmptyString => EmptyString
  | String c s' => if mem c chars then lstrip chars s' else s
  end.

Fixpoint rstrip (chars s : string) : string :=
  match s with
  | EmptyString => EmptyString
  | String c s' =>
      match rstrip chars s' with
      | EmptyString => if mem c chars then EmptyString else String c EmptyString
      | r => String c r
      end
  end.

(** [s.strip(chars)]: every leading and every trailing character that
    occurs in [chars] is removed. *)
Definition strip (chars s : string) : string := rstrip chars (lstrip chars s).

(** The characters [str.isspace] accepts below code point 256. *)
Definition whitespace : string :=
  String (ascii_of_nat 9) (String (ascii_of_nat 10) (String (ascii_of_nat 11)
  (String (ascii_of_nat 12) (String (ascii_of_nat 13) (String (ascii_of_nat 28)
  (String (ascii_of_nat 29) (String (ascii_of_nat 30) (String (ascii_of_nat 31)
  (String (ascii_of_nat 32) (String (ascii_of_nat 133)
  (String (ascii_of_nat 160) EmptyString))))))))))).

(** [s.strip()] *)
Definition strip_ws (s : string) : string := strip whitespace s.

Definition lower_char (c : ascii) : ascii :=
  let n := nat_of_ascii c in
  if ((65 <=? n)%nat && (n <=? 90)%nat)
     || ((192 <=? n)%nat && (n <=? 222)%nat && negb (n =? 215)%nat)
  then ascii_of_nat (n + 32) else c.

(** [s.lower()] *)
Fixpoint lower (s : string) : string :=
  match s with
  | EmptyString => EmptyString
  | String c s' => String (lower_char c) (lower s')
  end.

(** [s.replace(c, "")] for a one-character [c] *)
Fixpoint remove_char (c : ascii) (s : string) : string :=
  match s with
  | EmptyString => EmptyString
  | String a s' => if Ascii.eqb a c then remove_char c s' else String a (remove_char c s')
  end.

(** [x in l] for a list of strings *)
Definition in_list (x : string) (l : list string) : bool :=
  existsb (String.eqb x) l.

(** [l.index(x)] *)
Fixpoint index (x : string) (l : list string) : result nat :=
  match l with
  | [] => Raise (ValueError_not_in_list x)
  | y :: l' => if String.eqb y x then Ok 0 else i ← index x l'; Ok (S i)
  end.

End Str.

(** ** Python's [decimal.Decimal] under the default context

    The three representations of [_pydecimal]: a finite number
    [(-1)^sign * coeff * 10^exp], an infinity, and a NaN with its payload.
    Arithmetic rounds to the context: 28 significant digits,
    [ROUND_HALF_EVEN], exponents between [Emin] and [Emax], and the traps
    [DivisionByZero], [Overflow] and [InvalidOperation] raise. *)

Module Dec.

Inductive Decimal : Type :=
| Finite (sign : bool) (coeff : N) (exp : Z)
| Infinity (sign : bool)
| NaN (sign : bool) (signaling : bool) (payload : N).

Definition prec : Z := 28.
Definition Emax : Z := 999999.
Definition Emin : Z := -999999.
Definition Etiny : Z := Emin - prec + 1.
Definition Etop : Z := Emax - prec + 1.

Fixpoint ndigits_go (fuel : nat) (n : N) : Z :=
  match fuel with
  | O => 1
  | S fuel' => if (n <? 10)%N then 1 else 1 + ndigits_go fuel' (n / 10)
  end.

(** [len(self._int)]: the number of decimal digits of the coefficient
    (one for zero). *)
Definition ndigits (n : N) : Z := ndigits_go (N.to_nat (N.size n)) n.

(** [Decimal(z)] for a Python [int]. *)
Definition of_int (z : Z) : Decimal := Finite (z <? 0)%Z (Z.abs_N z) 0.

(** [_fix_nan]: the payload keeps at most [prec] digits. *)
Definition fix_nan (sign signaling : bool) (payload : N) : Decimal :=
  if (ndigits payload >? prec)%Z
  then NaN sign signaling (payload mod 10 ^ Z.to_N prec)
  else NaN sign signaling payload.

(** [_round_half_even(self, digits)] on a coefficient of [len] digits:
    [1] to round up, [0] when the dropped digits are all zero, [-1]
    otherwise. *)
Definition round_half_even (coeff : N) (len digits : Z) : Z :=
  let k := Z.to_N (len - digits) in
  let q := (coeff / 10 ^ k)%N in
  let r := (coeff mod 10 ^ k)%N in
  let half := (5 * 10 ^ (k - 1))%N in
  if (r =? half)%N && ((digits =? 0)%Z || N.even q) then (-1)%Z
  else if (half <=? r)%N then 1%Z
  else if (r =? 0)%N then 0%Z
  else (-1)%Z.

(** [_fix]: round to [prec] digits and keep the exponent in range. *)
Definition fix_ (d : Decimal) : result Decimal :=
  match d with
  | NaN s sg p => Ok (fix_nan s sg p)
  | Infinity s => Ok (Infinity s)
  | Finite s c e =>
      if (c =? 0)%N then Ok (Finite s 0 (Z.min (Z.max e Etiny) Emax))
      else
        let exp_min := (ndigits c + e - prec)%Z in
        if (exp_min >? Etop)%Z then Raise Overflow
        else
          let exp_min := if (exp_min <? Etiny)%Z then Etiny else exp_min in
          if (e <? exp_min)%Z then
            let digits := (ndigits c + e - exp_min)%Z in
            let '(c, len, digits) :=
              if (digits <? 0)%Z then (1%N, 1%Z, 0%Z) else (c, ndigits c, digits) in
            let changed := round_half_even c len digits in
            let coeff := (c / 10 ^ Z.to_N (len - digits))%N in
            let '(coeff, exp_min) :=
              if (changed >? 0)%Z then
                let coeff := (coeff + 1)%N in
                if (ndigits coeff >? prec)%Z then ((coeff / 10)%N, (exp_min + 1)%Z)
                else (coeff, exp_min)
              else (coeff, exp_min) in
            if (exp_min >? Etop)%Z then Raise Overflow
            else Ok (Finite s coeff exp_min)
          else Ok (Finite s c e)
  end.

(** [_check_nans]: a signaling NaN raises, a quiet NaN is the answer. *)
Definition check_nans (a b : Decimal) : option (result Decimal) :=
  match a, b with
  | NaN _ true _, _ => Some (Raise InvalidOperation)
  | _, NaN _ true _ => Some (Raise InvalidOperation)
  | NaN s false p, _ => Some (Ok (fix_nan s false p))
  | _, NaN s false p => Some (Ok (fix_nan s false p))
  | _, _ => None
  end.

Definition sign_of (d : Decimal) : bool :=
  match d with
  | Finite s _ _ | Infinity s | NaN s _ _ => s
  end.

(** [not d]: the finite zeros. *)
Definition is_zero (d : Decimal) : bool :=
  match d with
  | Finite _ c _ => (c =? 0)%N
  | _ => false
  end.

(** [Decimal.__mul__] *)
Definition mul (a b : Decimal) : result Decimal :=
  let resultsign := xorb (sign_of a) (sign_of b) in
  match check_nans a b with
  | Some ans => ans
  | None =>
      match a, b with
      | Infinity _, _ =>
          if is_zero b then Raise InvalidOperation else Ok (Infinity resultsign)
      | _, Infinity _ =>
          if is_zero a then Raise InvalidOperation else Ok (Infinity resultsign)
      | Finite _ c1 e1, Finite _ c2 e2 =>
          fix_ (Finite resultsign (c1 * c2) (e1 + e2))
      | _, _ => Raise InvalidOperation
      end
  end.

(** The loop of [__truediv__] on an exact quotient: trailing zeros are
    dropped while the exponent is below the ideal one, [n] steps away. *)
Fixpoint strip_zeros (n : nat) (coeff : N) (exp : Z) : N * Z :=
  match n with
  | O => (coeff, exp)
  | S n' =>
      if (coeff mod 10 =? 0)%N then strip_zeros n' (coeff / 10) (exp + 1)
      else (coeff, exp)
  end.

(** [Decimal.__truediv__] *)
Definition truediv (a b : Decimal) : result Decimal :=
  let sign := xorb (sign_of a) (sign_of b) in
  match check_nans a b with
  | Some ans => ans
  | None =>
      match a, b with
      | Infinity _, Infinity _ => Raise InvalidOperation
      | Infinity _, _ => Ok (Infinity sign)
      | _, Infinity _ => Ok (Finite sign 0 Etiny)
      | Finite _ c1 e1, Finite _ c2 e2 =>
          if (c2 =? 0)%N then
            if (c1 =? 0)%N then Raise InvalidOperation else Raise DivisionByZero
          else if (c1 =? 0)%N then fix_ (Finite sign 0 (e1 - e2))
          else
            let shift := (ndigits c2 - ndigits c1 + prec + 1)%Z in
            let exp := (e1 - e2 - shift)%Z in
            let '(num, den) :=
              if (0 <=? shift)%Z then ((c1 * 10 ^ Z.to_N shift)%N, c2)
              else (c1, (c2 * 10 ^ Z.to_N (- shift))%N) in
            let coeff := (num / den)%N in
            let remainder := (num mod den)%N in
            let '(coeff, exp) :=
              if negb (remainder =? 0)%N then
                ((if (coeff mod 5 =? 0)%N then coeff + 1 else coeff)%N, exp)
              else strip_zeros (Z.to_nat (e1 - e2 - exp)) coeff exp in
            fix_ (Finite sign coeff exp)
      | _, _ => Raise InvalidOperation
      end
  end.

(** *** [Decimal(str)] *)

Definition is_digit (c : ascii) : bool :=
  let n := nat_of_ascii c in (48 <=? n)%nat && (n <=? 57)%nat.

Definition digit_val (c : ascii) : N := N.of_nat (nat_of_ascii c - 48).

(** The leading digits of [s], read after the digits whose value is [acc]:
    the value, the number of digits read and the rest of [s]. *)
Fixpoint take_digits (s : string) (acc : N) (cnt : nat) : N * nat * string :=
  match s with
  | String c s' =>
      if is_digit c then take_digits s' (acc * 10 + digit_val c) (S cnt)
      else (acc, cnt, s)
  | EmptyString => (acc, cnt, s)
  end.

Definition take_sign (s : string) : bool * string :=
  match s with
  | String c s' =>
      if Ascii.eqb c "-" then (true, s')
      else if Ascii.eqb c "+" then (false, s')
      else (false, s)
  | EmptyString => (false, s)
  end.

(** The exponent part [(E[-+]?\d+)?] and the end of the string. *)
Definition parse_exp (s : string) : option Z :=
  match s with
  | EmptyString => Some 0%Z
  | String c s' =>
      if Ascii.eqb c "E" || Ascii.eqb c "e" then
        let '(neg, s'') := take_sign s' in
        match take_digits s'' 0 0 with
        | (v, S _, EmptyString) => Some (if neg then - Z.of_N v else Z.of_N v)%Z
        | _ => None
        end
      else None
  end.

(** A finite number: digits with at most one point and at least one digit,
    then the exponent part. *)
Definition parse_finite (sign : bool) (s : string) : option Decimal :=
  let '(iv, ic, r1) := take_digits s 0 0 in
  let '(cv, fc, r2) :=
    match r1 with
    | String c r =>
        if Ascii.eqb c "." then take_digits r iv 0 else (iv, O, r1)
    | EmptyString => (iv, O, r1)
    end in
  match ic, fc with
  | O, O => None
  | _, _ =>
      match parse_exp r2 with
      | Some e => Some (Finite sign cv (e - Z.of_nat fc))
      | None => None
      end
  end.

(** [Inf], [Infinity], [NaN] and [sNaN] with a payload, in any case. *)
Definition parse_special (sign : bool) (s : string) : option Decimal :=
  let l := Str.lower s in
  if String.eqb l "inf" || String.eqb l "infinity" then Some (Infinity sign)
  else
    let '(signaling, l') :=
      match l with
      | String c r => if Ascii.eqb c "s" then (true, r) else (false, l)
      | EmptyString => (false, l)
      end in
    if Str.startswith "nan" l' then
      match take_digits (String.substring 3 (String.length l' - 3) l') 0 0 with
      | (p, _, EmptyString) => Some (NaN sign signaling p)
      | _ => None
      end
    else None.

(** The limits of the C module: [decimal.MAX_EMAX] and
    [decimal.MIN_ETINY]. *)
Definition MAX_EMAX : Z := 999999999999999999.
Definition MIN_ETINY : Z := -1999999999999999997.

(** The numbers the constructor can hold: a literal is converted in the
    widest context the C module has (precision and [Emax] are [MAX_EMAX],
    [Etiny] is [MIN_ETINY], no clamping), and a conversion that would
    round, clamp or overflow there is refused.  So the exponent is at
    least [MIN_ETINY]; the exponent of a zero is at most [MAX_EMAX], and
    so is the adjusted exponent of any other number. *)
Definition in_range (d : Decimal) : bool :=
  match d with
  | Finite _ c e =>
      (MIN_ETINY <=? e)%Z &&
      (if (c =? 0)%N then (e <=? MAX_EMAX)%Z
       else (e + ndigits c - 1 <=? MAX_EMAX)%Z)
  | _ => true
  end.

(** [Decimal(value)] for a [str]; [None] is the trapped
    [InvalidOperation], of a string that is not a numeric literal and of
    a literal beyond the limits of the C module.  (The module also refuses
    a literal of more than [MAX_EMAX] digits; a string that long does not
    fit in memory, and this limit is left out.) *)
Definition of_string (value : string) : option Decimal :=
  let s := Str.remove_char "_" (Str.strip_ws value) in
  let '(sign, s) := take_sign s in
  match parse_finite sign s with
  | Some d => if in_range d then Some d else None
  | None => parse_special sign s
  end.

(** Numerical equality of finite decimals: equal signed coefficients once
    both are brought to the smaller exponent (any two zeros are equal). *)
Definition scaled (c : N) (e m : Z) : Z := (Z.of_N c * 10 ^ (e - m))%Z.

Definition signed (s : bool) (z : Z) : Z := if s then (- z)%Z else z.

Definition num_eq (a b : Decimal) : Prop :=
  match a, b with
  | Finite s1 c1 e1, Finite s2 c2 e2 =>
      let m := Z.min e1 e2 in
      signed s1 (scaled c1 e1 m) = signed s2 (scaled c2 e2 m)
  | _, _ => False
  end.

End Dec.

Abbreviation Decimal := Dec.Decimal.

(** ** Reading from the user *)

(** The characters [int()] skips at both ends of a [str]: the blanks of C
    ([\t], [\n], [\v], [\f], [\r] and the space) and, above code point
    127, the two spaces U+0085 and U+00A0.  The separators U+001C to U+001F,
    which [str.strip] removes, are not among them. *)
Definition int_whitespace : string :=
  String (ascii_of_nat 9) (String (ascii_of_nat 10) (String (ascii_of_nat 11)
  (String (ascii_of_nat 12) (String (ascii_of_nat 13) (String (ascii_of_nat 32)
  (String (ascii_of_nat 133) (String (ascii_of_nat 160) EmptyString))))))).

(** [sys.get_int_max_str_digits()], which the program leaves at its
    default. *)
Definition int_max_str_digits : nat := 4300.

(** The number of digits of a literal, leading zeros counted and
    underscores not. *)
Fixpoint digit_count (s : string) : nat :=
  match s with
  | EmptyString => 0
  | String c s' => if Dec.is_digit c then S (digit_count s') else digit_count s'
  end.

(** [int(answer)]: optional blanks and sign, then digits, single
    underscores allowed between digits, at most [int_max_str_digits]
    digits; [None] is [ValueError]. *)
Fixpoint int_digits (s : string) (acc : N) (after_digit : bool) : option N :=
  match s with
  | EmptyString => if after_digit then Some acc else None
  | String c s' =>
      if Dec.is_digit c then int_digits s' (acc * 10 + Dec.digit_val c) true
      else if Ascii.eqb c "_" && after_digit then int_digits s' acc false
      else None
  end.

Definition int_of_string (answer : string) : option Z :=
  let '(neg, s) := Dec.take_sign (Str.strip int_whitespace answer) in
  match int_digits s 0 false with
  | Some v =>
      if (digit_count s <=? int_max_str_digits)%nat
      then Some (if neg then - Z.of_N v else Z.of_N v)%Z
      else None
  | None => None
  end.

(** The answers on which [yes_no] leaves the program. *)
Definition quits (answer : string) : bool :=
  Str.in_list (Str.lower answer) ["n"; "no"; "quit"; "q"].

(** [yes_no()]: one more line is read; the program exits on a no. *)
Definition yes_no (stdin : list string) : result (list string) :=
  match stdin with
  | [] => Raise EOFError
  | answer :: rest => if quits answer then Raise SystemExit else Ok rest
  end.

(** ** class TubeData *)

(** An entry of [count_list]: a [Decimal], or the empty [str] of an
    ignored gate. *)
Inductive cell : Type :=
| Num (d : Decimal)
| Blank.

(** An entry of [calc_list]: ["start"], ["ignore"], or the index of the
    parent gate. *)
Inductive calc : Type :=
| start
| ignore
| parent (i : nat).

Module TubeData.

Record t : Type := mk {
  n : string;
  raw_percent : list string;
  group_id : string;
  cell_conc : Decimal;
  percent_list : list Decimal;
  count_list : list cell
}.

Definition set_count_list (self : t) (l : list cell) : t :=
  mk (n self) (raw_percent self) (group_id self) (cell_conc self)
     (percent_list self) l.

(** [ask_cell_conc]: lines are read until one is a [Decimal]; after a line
    that is not, [yes_no] reads one more line. *)
Fixpoint ask_cell_conc (stdin : list string) : result (Decimal * list string) :=
  match stdin with
  | [] => Raise EOFError
  | answer :: rest =>
      match Dec.of_string answer with
      | Some d => Ok (d, rest)
      | None =>
          match rest with
          | [] => Raise EOFError
          | again :: rest' =>
              if quits again then Raise SystemExit else ask_cell_conc rest'
          end
      end
  end.

(** [Decimal(percent) / 100] *)
Definition percent_of_string (percent : string) : result Decimal :=
  match Dec.of_string percent with
  | Some d => Dec.truediv d (Dec.of_int 100)
  | None => Raise InvalidOperation
  end.

(** [convert_to_decimal]: an [InvalidOperation] ends the program, any
    other exception of the division is not caught. *)
Fixpoint convert_to_decimal (raw : list string) (percent_list : list Decimal)
  : result (list Decimal) :=
  match raw with
  | [] => Ok percent_list
  | percent :: rest =>
      match percent_of_string percent with
      | Ok number => convert_to_decimal rest (percent_list ++ [number])
      | Raise InvalidOperation => Raise SystemExit
      | Raise e => Raise e
      end
  end.

(** [TubeData(tube_name, raw_percent_data_list)] *)
Definition init (tube_name : string) (raw_percent_data_list : list string)
    (stdin : list string) : result (t * list string) :=
  percents ← convert_to_decimal raw_percent_data_list [];
  '(conc, stdin') ← ask_cell_conc stdin;
  Ok (mk tube_name raw_percent_data_list "" conc percents [], stdin').

(** [str * Decimal] is a [TypeError]. *)
Definition cell_mul (c : cell) (d : Decimal) : result Decimal :=
  match c with
  | Num x => Dec.mul x d
  | Blank => Raise TypeError
  end.

(** The body of the loop of [calculate_cell_counts] at position [pos] of
    [calc_list], whose entry is [i]. *)
Definition cell_count_step (self : t) (pos : nat) (i : calc) : result t :=
  cell_count ←
    match i with
    | start =>
        p ← getitem (percent_list self) pos;
        d ← Dec.mul (cell_conc self) p;
        Ok (Num d)
    | ignore => Ok Blank
    | parent j =>
        c ← getitem (count_list self) j;
        p ← getitem (percent_list self) pos;
        d ← cell_mul c p;
        Ok (Num d)
    end;
  Ok (set_count_list self (count_list self ++ [cell_count])).

Fixpoint calculate_loop (self : t) (pos : nat) (calc_list : list calc) : result t :=
  match calc_list with
  | [] => Ok self
  | i :: rest =>
      self' ← cell_count_step self pos i;
      calculate_loop self' (S pos) rest
  end.

(** [calculate_cell_counts]: the counts are appended to [count_list]. *)
Definition calculate_cell_counts (self : t) (calc_list : list calc) : result t :=
  calculate_loop self 0 calc_list.

End TubeData.

(** ** process_csv *)

(** A [dict] from gate names to depths, in insertion order. *)
Abbreviation dict := (list (string * nat)).

(** [d[k] = v] *)
Fixpoint dict_set (d : dict) (k : string) (v : nat) : dict :=
  match d with
  | [] => [(k, v)]
  | (k', v') :: d' =>
      if String.eqb k' k then (k, v) :: d' else (k', v') :: dict_set d' k v
  end.

(** [d[k]] *)
Fixpoint dict_get (d : dict) (k : string) : result nat :=
  match d with
  | [] => Raise (KeyError k)
  | (k', v) :: d' => if String.eqb k' k then Ok v else dict_get d' k
  end.

(** The loop over the header cells [data[0][1:-1]]. *)
Fixpoint read_header (cells gate_order : list string) (gates_dict : dict)
  : result (list string * dict) :=
  match cells with
  | [] => Ok (gate_order, gates_dict)
  | gate :: rest =>
      if negb (Str.contains " | " gate) then Raise SystemExit
      else
        match Str.split " | " gate with
        | [cleaned_gate; test] =>
            let number_of_gates := length (Str.split "/" cleaned_gate) in
            read_header rest (gate_order ++ [cleaned_gate])
                        (dict_set gates_dict cleaned_gate number_of_gates)
        | _ => Raise ValueError_unpack
        end
  end.

(** The name of the tube of a row: [line[0].strip(".fcs")]. *)
Definition tube_name (first_cell : string) : string := Str.strip ".fcs" first_cell.

(** The loop over the rows [data[1:]]. *)
Fixpoint read_rows (lines : list (list string)) (tube_list : list TubeData.t)
    (stdin : list string) : result (list TubeData.t * list string) :=
  match lines with
  | [] => Ok (tube_list, stdin)
  | line :: rest =>
      first ← getitem line 0;
      let name := tube_name first in
      if negb (Str.in_list name ["Mean"; "SD"]) then
        '(x, stdin') ← TubeData.init name (slice_1_m1 line) stdin;
        read_rows rest (tube_list ++ [x]) stdin'
      else read_rows rest tube_list stdin
  end.

Definition process_csv (data : list (list string)) (stdin : list string)
  : result (list string * dict * list TubeData.t * list string) :=
  header ← getitem data 0;
  '(gate_order, gates_dict) ← read_header (slice_1_m1 header) [] [];
  '(tube_list, stdin') ← read_rows (tail data) [] stdin;
  Ok (gate_order, gates_dict, tube_list, stdin').

(** ** check_starting_gate and ask_starting_gate *)

(** The first loop of [check_starting_gate] over [gates.values()]: the
    result is [only_one_start_gate] with the two sets of depths; the scan
    breaks at the second depth 1. *)
Fixpoint scan_lengths (lengths : list nat) (lengths_checked redundant_lengths : gset nat)
  : bool * gset nat * gset nat :=
  match lengths with
  | [] => (true, lengths_checked, redundant_lengths)
  | length :: rest =>
      if bool_decide (length ∈ lengths_checked) && (length =? 1)%nat then
        (false, lengths_checked, redundant_lengths)
      else if bool_decide (length ∈ lengths_checked) then
        scan_lengths rest ({[length]} ∪ lengths_checked) ({[length]} ∪ redundant_lengths)
      else
        scan_lengths rest ({[length]} ∪ lengths_checked) redundant_lengths
  end.

(** [max(s)] of a set of depths. *)
Definition set_max (s : gset nat) : result nat :=
  match elements s with
  | [] => Raise ValueError_max_empty
  | x :: l => Ok (max_list (x :: l))
  end.

(** The loop that looks for [min_gate]: every gate of the wanted depth
    overwrites the one found before. *)
Definition find_min_gate (gates : dict) (longest_shared : nat) : string :=
  fold_left (fun min_gate '(gate, number) =>
               if (number =? longest_shared)%nat then gate else min_gate)
            gates "".

(** The loop of [ask_starting_gate] over the lines typed: [len] is
    [len(min_gate_list)]. *)
Fixpoint ask_level (len : nat) (stdin : list string) : result (nat * list string) :=
  match stdin with
  | [] => Raise EOFError
  | answer :: rest =>
      let again :=
        match rest with
        | [] => Raise EOFError
        | a :: rest' => if quits a then Raise SystemExit else ask_level len rest'
        end in
      match int_of_string answer with
      | Some int_answer =>
          if (0 <? int_answer)%Z && (int_answer <=? Z.of_nat len)%Z
          then Ok (Z.to_nat int_answer, rest)
          else again
      | None => again
      end
  end.

Definition ask_starting_gate (min_gate : string) (stdin : list string)
  : result (string * list string) :=
  let min_gate_list := Str.split "/" min_gate in
  '(int_answer, stdin') ← ask_level (length min_gate_list) stdin;
  Ok (Str.join "/" (take int_answer (Str.split "/" min_gate)), stdin').

(** The gate shown to the user when there is one starting gate. *)
Definition candidate_gate (lengths_checked redundant_lengths : gset nat) (gates : dict)
  : result string :=
  longest_shared ← set_max (lengths_checked ∖ redundant_lengths);
  Ok (find_min_gate gates longest_shared).

Definition check_starting_gate (gates : dict) (stdin : list string)
  : result (list string * list string * list string) :=
  let '(only_one_start_gate, lengths_checked, redundant_lengths) :=
    scan_lengths (map snd gates) ∅ ∅ in
  if only_one_start_gate then
    min_gate ← candidate_gate lengths_checked redundant_lengths gates;
    '(start_gate_str, stdin') ← ask_starting_gate min_gate stdin;
    num_gate_of_min ← dict_get gates start_gate_str;
    let ignore_list :=
      map fst (filter (fun gn => (gn.2 < num_gate_of_min)%nat) gates) in
    Ok ([start_gate_str], ignore_list, stdin')
  else
    Ok (map fst (filter (fun gn => gn.2 = 1%nat) gates), [], stdin).

(** ** find_parent_gate *)

Definition parent_ref (start_gate_list g_list i_list : list string) (population : string)
  : result calc :=
  if Str.in_list population start_gate_list then Ok start
  else if Str.in_list population i_list then Ok ignore
  else i ← Str.index (Str.rsplit1_head population) g_list; Ok (parent i).

Fixpoint find_parent_loop (start_gate_list g_list i_list populations : list string)
    (calc_list : list calc) : result (list calc) :=
  match populations with
  | [] => Ok calc_list
  | population :: rest =>
      c ← parent_ref start_gate_list g_list i_list population;
      find_parent_loop start_gate_list g_list i_list rest (calc_list ++ [c])
  end.

Definition find_parent_gate (start_gate_list g_list i_list : list string)
  : result (list calc) :=
  find_parent_loop start_gate_list g_list i_list g_list [].

(** ** main, from [process_csv] to the counts of every tube *)

Fixpoint calculate_all (tube_list : list TubeData.t) (calc_list : list calc)
  : result (list TubeData.t) :=
  match tube_list with
  | [] => Ok []
  | tube :: rest =>
      tube' ← TubeData.calculate_cell_counts tube calc_list;
      rest' ← calculate_all rest calc_list;
      Ok (tube' :: rest')
  end.

Record run : Type := mk_run {
  gate_list : list string;
  start_gate_list : list string;
  ignore_list : list string;
  calc_list : list calc;
  tube_list : list TubeData.t
}.

Definition main (content : list (list string)) (stdin : list string) : result run :=
  '(gate_list, start_gates_dict, tube_list, stdin1) ← process_csv content stdin;
  '(start_gate_list, ignore_list, stdin2) ← check_starting_gate start_gates_dict stdin1;
  calc_list ← find_parent_gate start_gate_list gate_list ignore_list;
  tube_list' ← calculate_all tube_list calc_list;
  Ok (mk_run gate_list start_gate_list ignore_list calc_list tube_list').

Definition hdr (gate : string) : string := (gate ++ " | Freq. of Parent (%)")%string.

(** ** [str(Decimal)] *)

Module DecStr.

Import Dec.

(** The decimal digits of [n] written before [acc]. *)
Fixpoint digits_go (fuel : nat) (n : N) (acc : string) : string :=
  match fuel with
  | O => acc
  | S fuel' =>
      let acc' := String (ascii_of_N (48 + n mod 10)) acc in
      if (n <? 10)%N then acc' else digits_go fuel' (n / 10) acc'
  end.

(** [str(n)] for a natural number: the coefficient [self._int]. *)
Definition digits (n : N) : string := digits_go (S (N.to_nat (N.size n))) n "".

Fixpoint zeros (k : nat) : string :=
  match k with
  | O => ""
  | S k' => String "0" (zeros k')
  end.

(** ["%+d" % z] *)
Definition signed_int (z : Z) : string :=
  ((if (z <? 0)%Z then "-" else "+") ++ digits (Z.abs_N z))%string.

Definition sign_str (sign : bool) : string := if sign then "-" else "".

(** [Decimal.__str__] with the default [capitals = 1]. *)
Definition str (d : Decimal) : string :=
  match d with
  | Infinity sign => (sign_str sign ++ "Infinity")%string
  | NaN sign signaling payload =>
      (sign_str sign ++ (if signaling then "sNaN" else "NaN")
         ++ (if (payload =? 0)%N then "" else digits payload))%string
  | Finite sign coeff exp =>
      let int_ := digits coeff in
      let len := Z.of_nat (String.length int_) in
      let leftdigits := (exp + len)%Z in
      let dotplace :=
        if (exp <=? 0)%Z && (-6 <? leftdigits)%Z then leftdigits else 1%Z in
      let '(intpart, fracpart) :=
        if (dotplace <=? 0)%Z then
          ("0", "." ++ zeros (Z.to_nat (- dotplace)) ++ int_)%string
        else if (len <=? dotplace)%Z then
          (int_ ++ zeros (Z.to_nat (dotplace - len)), "")%string
        else
          (String.substring 0 (Z.to_nat dotplace) int_,
           "." ++ String.substring (Z.to_nat dotplace)
                    (String.length int_ - Z.to_nat dotplace) int_)%string in
      let exp_ :=
        if (leftdigits =? dotplace)%Z then ""
        else ("E" ++ signed_int (leftdigits - dotplace))%string in
      (sign_str sign ++ intpart ++ fracpart ++ exp_)%string
  end.

End DecStr.

(** ** The group of a tube *)

Definition set_group_id (self : TubeData.t) (answer : string) : TubeData.t :=
  TubeData.mk (TubeData.n self) (TubeData.raw_percent self) answer
    (TubeData.cell_conc self) (TubeData.percent_list self) (TubeData.count_list self).

(** [TubeData.ask_group_id] *)
Definition ask_group_id (self : TubeData.t) (stdin : list string)
  : result (TubeData.t * list string) :=
  match stdin with
  | [] => Raise EOFError
  | answer :: rest => Ok (set_group_id self answer, rest)
  end.

(** The first loop of [ask_group_identification]. *)
Fixpoint ask_group_ids (t_list : list TubeData.t) (stdin : list string)
  : result (list TubeData.t * list string) :=
  match t_list with
  | [] => Ok ([], stdin)
  | tube :: rest =>
      '(tube', stdin1) ← ask_group_id tube stdin;
      '(rest', stdin2) ← ask_group_ids rest stdin1;
      Ok (tube' :: rest', stdin2)
  end.

(** The inner loop of [ask_group_identification]: the number of a tube. *)
Fixpoint ask_tube_number (len : nat) (stdin : list string) : result (nat * list string) :=
  match stdin with
  | [] => Raise EOFError
  | num_answer :: rest =>
      let again :=
        match rest with
        | [] => Raise EOFError
        | a :: rest' => if quits a then Raise SystemExit else ask_tube_number len rest'
        end in
      match int_of_string num_answer with
      | Some num =>
          if (0 <? num)%Z && (num <=? Z.of_nat len)%Z
          then Ok (Z.to_nat num, rest)
          else again
      | None => again
      end
  end.

(** One pass of the outer loop of [ask_group_identification] after an
    answer that is not a yes: the tube [t_list[num_answer - 1]] is asked
    again. *)
Definition fix_group (t_list : list TubeData.t) (stdin : list string)
  : result (list TubeData.t * list string) :=
  '(num_answer, stdin1) ← ask_tube_number (length t_list) stdin;
  to_fix ← getitem t_list (num_answer - 1);
  '(fixed, stdin2) ← ask_group_id to_fix stdin1;
  Ok (<[(num_answer - 1)%nat := fixed]> t_list, stdin2).

(** The outer loop of [ask_group_identification].  Every pass reads a
    line, so [fuel] passes are enough for [fuel] lines. *)
Fixpoint confirm_groups (fuel : nat) (t_list : list TubeData.t) (stdin : list string)
  : result (list TubeData.t * list string) :=
  match stdin with
  | [] => Raise EOFError
  | answer :: rest =>
      if Str.in_list (Str.lower answer) ["yes"; "y"] then Ok (t_list, rest)
      else
        match fuel with
        | O => Raise EOFError
        | S fuel' =>
            '(t_list', stdin') ← fix_group t_list rest;
            confirm_groups fuel' t_list' stdin'
        end
  end.

(** [list.sort(key=lambda x: x.group_id)]: a stable sort on the group,
    strings compared by code point. *)
Fixpoint sort_insert (tube : TubeData.t) (sorted : list TubeData.t) : list TubeData.t :=
  match sorted with
  | [] => [tube]
  | x :: rest =>
      if String.leb (TubeData.group_id tube) (TubeData.group_id x)
      then tube :: sorted
      else x :: sort_insert tube rest
  end.

Definition sort_by_group (t_list : list TubeData.t) : list TubeData.t :=
  foldr sort_insert [] t_list.

Definition ask_group_identification (t_list : list TubeData.t) (stdin : list string)
  : result (list TubeData.t * list string) :=
  '(t_list1, stdin1) ← ask_group_ids t_list stdin;
  '(t_list2, stdin2) ← confirm_groups (length stdin1) t_list1 stdin1;
  Ok (sort_by_group t_list2, stdin2).

(** ** The content of the output file *)

(** [str(info)] for an entry of [count_list]. *)
Definition cell_str (info : cell) : string :=
  match info with
  | Num d => DecStr.str d
  | Blank => ""
  end.

(** [info * 100]: the product of a [Decimal], and the empty [str]
    repeated. *)
Definition cell_times_100 (info : cell) : result cell :=
  match info with
  | Num d => d' ← Dec.mul d (Dec.of_int 100); Ok (Num d')
  | Blank => Ok Blank
  end.

Fixpoint make_row_from_decimal (data : list cell) (percents : bool)
  : result (list string) :=
  match data with
  | [] => Ok []
  | info :: rest =>
      s ← (if percents then info' ← cell_times_100 info; Ok (cell_str info')
           else Ok (cell_str info));
      row ← make_row_from_decimal rest percents;
      Ok (s :: row)
  end.

(** The global [grouping_bool] is a parameter. *)
Fixpoint make_compact_row_chunk (grouping_bool : bool) (t_list : list TubeData.t)
    (percent_bool : bool) : result (list (list string)) :=
  match t_list with
  | [] => Ok []
  | tube :: rest =>
      cells ←
        (if percent_bool
         then make_row_from_decimal (map Num (TubeData.percent_list tube)) percent_bool
         else make_row_from_decimal (TubeData.count_list tube) percent_bool);
      let row :=
        [TubeData.n tube]
          ++ (if grouping_bool then [TubeData.group_id tube] else [])
          ++ cells ++ [DecStr.str (TubeData.cell_conc tube)] in
      content ← make_compact_row_chunk grouping_bool rest percent_bool;
      Ok (row :: content)
  end.

(** [gate_list] after the insertions of [make_compact_csv_content]. *)
Definition compact_header (grouping_bool : bool) (gate_list : list string) : list string :=
  let gate_list := "Name" :: gate_list in
  let gate_list := gate_list ++ ["Cell Concentration [10e4]"] in
  if grouping_bool then take 1 gate_list ++ "Group" :: drop 1 gate_list else gate_list.

Definition make_compact_csv_content (grouping_bool : bool) (gate_list : list string)
    (tube_list : list TubeData.t) : result (list (list string)) :=
  let gate_list := compact_header grouping_bool gate_list in
  let content_list := [["Percents"]; gate_list] in
  percents ← make_compact_row_chunk grouping_bool tube_list true;
  let content_list := content_list ++ percents in
  let content_list := content_list ++ [[""]; ["Cell Numbers"]; gate_list] in
  counts ← make_compact_row_chunk grouping_bool tube_list false;
  Ok (content_list ++ counts).

(** A cell handed to [csv.writer]: a [str], or the [Decimal] of a
    concentration. *)
Inductive out : Type :=
| OStr (s : string)
| ODec (d : Decimal).

(** The rows of [prism_chunk] when there is no grouping. *)
Fixpoint prism_rows (obj_list : list TubeData.t) (attr_func : TubeData.t -> result out)
  : result (list (list out)) :=
  match obj_list with
  | [] => Ok []
  | obj :: rest =>
      v ← attr_func obj;
      rows ← prism_rows rest attr_func;
      Ok ([OStr (TubeData.n obj); v] :: rows)
  end.

(** [prism_chunk] when [grouping_bool] is false: [header] is a [str]. *)
Definition prism_chunk (header : string) (obj_list : list TubeData.t)
    (attr_func : TubeData.t -> result out) : result (list (list out)) :=
  rows ← prism_rows obj_list attr_func;
  Ok ([[]; [OStr ""; OStr header]] ++ rows).

(** [lambda x: str(x.percent_list[count] * 100)] *)
Definition percent_attr (count : nat) (x : TubeData.t) : result out :=
  p ← getitem (TubeData.percent_list x) count;
  d ← Dec.mul p (Dec.of_int 100);
  Ok (OStr (DecStr.str d)).

(** [lambda x: str(x.count_list[count])] *)
Definition count_attr (count : nat) (x : TubeData.t) : result out :=
  c ← getitem (TubeData.count_list x) count;
  Ok (OStr (cell_str c)).

(** A loop [for count, gate in enumerate(gate_list)] of
    [make_prism_csv_content], from position [count]. *)
Fixpoint prism_gates (mark : string) (attr : nat -> TubeData.t -> result out)
    (count : nat) (gate_list : list string) (tube_list : list TubeData.t)
  : result (list (list out)) :=
  match gate_list with
  | [] => Ok []
  | gate :: rest =>
      chunk ← prism_chunk (mark ++ gate)%string tube_list (attr count);
      content ← prism_gates mark attr (S count) rest tube_list;
      Ok (chunk ++ content)
  end.

(** [make_prism_csv_content] when [grouping_bool] is false. *)
Definition make_prism_csv_content (gate_list : list string) (tube_list : list TubeData.t)
  : result (list (list out)) :=
  conc ← prism_chunk "Cell Concentration" tube_list
            (fun x => Ok (ODec (TubeData.cell_conc x)));
  percents ← prism_gates "% " percent_attr 0 gate_list tube_list;
  counts ← prism_gates "# " count_attr 0 gate_list tube_list;
  Ok (drop 1 (conc ++ percents ++ counts)).

(** *** With grouping *)

(** [grouped_dict[tube.group_id].append(tube)], or a new entry after a
    [KeyError]. *)
Fixpoint group_append (grouped_dict : list (string * list TubeData.t)) (tube : TubeData.t)
  : list (string * list TubeData.t) :=
  match grouped_dict with
  | [] => [(TubeData.group_id tube, [tube])]
  | (k, tubes) :: rest =>
      if String.eqb k (TubeData.group_id tube) then (k, tubes ++ [tube]) :: rest
      else (k, tubes) :: group_append rest tube
  end.

Definition group_tubes (tube_list : list TubeData.t) : list (string * list TubeData.t) :=
  fold_left group_append tube_list [].

(** [list(itertools.zip_longest(...))] over the lists: row [i] holds
    entry [i] of every list, [None] where a list is shorter. *)
Definition zip_longest {A} (lists : list (list A)) : list (list (option A)) :=
  map (fun i => map (fun l => l !! i) lists)
      (seq 0 (foldr Nat.max 0 (map length lists))).

(** A row of [prism_chunk] when [grouping_bool] is true. *)
Fixpoint grouped_row (obj : list (option TubeData.t)) (attr_func : TubeData.t -> result out)
  : result (list out) :=
  match obj with
  | [] => Ok []
  | tube :: rest =>
      v ← match tube with
          | Some tube => attr_func tube
          | None => Ok (OStr "")
          end;
      temp ← grouped_row rest attr_func;
      Ok (v :: temp)
  end.

Fixpoint grouped_rows (obj_list : list (list (option TubeData.t)))
    (attr_func : TubeData.t -> result out) : result (list (list out)) :=
  match obj_list with
  | [] => Ok []
  | obj :: rest =>
      temp ← grouped_row obj attr_func;
      rows ← grouped_rows rest attr_func;
      Ok (temp :: rows)
  end.

(** [prism_chunk] when [grouping_bool] is true: [header] is the pair of
    the title row and [group_order]. *)
Definition prism_chunk_grouped (header : list out * list out)
    (obj_list : list (list (option TubeData.t))) (attr_func : TubeData.t -> result out)
  : result (list (list out)) :=
  rows ← grouped_rows obj_list attr_func;
  Ok ([[]; header.1; header.2] ++ rows).

Fixpoint prism_gates_grouped (mark : string) (attr : nat -> TubeData.t -> result out)
    (count : nat) (gate_list : list string) (group_order : list out)
    (row_matrix : list (list (option TubeData.t))) : result (list (list out)) :=
  match gate_list with
  | [] => Ok []
  | gate :: rest =>
      chunk ← prism_chunk_grouped ([OStr (mark ++ gate)%string], group_order)
                 row_matrix (attr count);
      content ← prism_gates_grouped mark attr (S count) rest group_order row_matrix;
      Ok (chunk ++ content)
  end.

(** [make_prism_csv_content] when [grouping_bool] is true.  The first row
    of [row_matrix] holds the first tube of every group, so that
    [x.group_id] is read from a tube in every cell of it. *)
Definition make_prism_csv_content_grouped (gate_list : list string)
    (tube_list : list TubeData.t) : result (list (list out)) :=
  let grouped_dict := group_tubes tube_list in
  let row_matrix := zip_longest (map snd grouped_dict) in
  first_row ← getitem row_matrix 0;
  let group_order := map OStr (omap (fmap TubeData.group_id) first_row) in
  ids ← prism_chunk_grouped ([OStr "Tube ID"], group_order) row_matrix
          (fun x => Ok (OStr (TubeData.n x)));
  conc ← prism_chunk_grouped ([OStr "Cell Concentration"], group_order) row_matrix
           (fun x => Ok (ODec (TubeData.cell_conc x)));
  percents ← prism_gates_grouped "% " percent_attr 0 gate_list group_order row_matrix;
  counts ← prism_gates_grouped "# " count_attr 0 gate_list group_order row_matrix;
  Ok (drop 1 (ids ++ conc ++ percents ++ counts)).

(** ** main, up to the content of the output file

    The flags [grouping_bool] and [compact_bool] and the rows of the
    export are parameters; [output] is what [main] hands to
    [make_output_file]. *)

Inductive output : Type :=
| Compact (content : list (list string))
| Prism (content : list (list out)).

Definition main_output (grouping_bool compact_bool : bool)
    (content : list (list string)) (stdin : list string)
  : result (output * list string) :=
  '(gate_list, start_gates_dict, tube_list, stdin1) ← process_csv content stdin;
  '(start_gate_list, ignore_list, stdin2) ← check_starting_gate start_gates_dict stdin1;
  calc_list ← find_parent_gate start_gate_list gate_list ignore_list;
  tube_list ← calculate_all tube_list calc_list;
  '(tube_list, stdin3) ←
    (if grouping_bool then ask_group_identification tube_list stdin2
     else Ok (tube_list, stdin2));
  output ←
    (if compact_bool then
       c ← make_compact_csv_content grouping_bool gate_list tube_list; Ok (Compact c)
     else if grouping_bool then
       c ← make_prism_csv_content_grouped gate_list tube_list; Ok (Prism c)
     else
       c ← make_prism_csv_content gate_list tube_list; Ok (Prism c));
  Ok (output, stdin3).

(** * The vocabulary of the statements *)

Import TubeData.

(** Whether a result is an exception. *)
Definition raises {A} (r : result A) : Prop := exists e, r = Raise e.

(** What the loop of [calculate_cell_counts] stores at position [pos]
    whose entry of [calc_list] is [i], when the counts of the tube are
    [counts]. *)
Definition count_at (self : TubeData.t) (counts : list cell) (pos : nat) (i : calc)
    (c : cell) : Prop :=
  match i with
  | start =>
      exists p d, percent_list self !! pos = Some p /\
                  Dec.mul (cell_conc self) p = Ok d /\ c = Num d
  | ignore => c = Blank
  | parent j =>
      exists cj p d, counts !! j = Some (Num cj) /\
                     percent_list self !! pos = Some p /\
                     Dec.mul cj p = Ok d /\ c = Num d
  end.

(** The counts of a whole run on a tube that has none yet, position by
    position. *)
Definition propagated (self : TubeData.t) (calc_list : list calc) (counts : list cell)
  : Prop :=
  length counts = length calc_list /\
  forall pos i, calc_list !! pos = Some i ->
    match i with
    | start =>
        exists p d, percent_list self !! pos = Some p /\
                    Dec.mul (cell_conc self) p = Ok d /\
                    counts !! pos = Some (Num d)
    | ignore => counts !! pos = Some Blank
    | parent j =>
        exists cj p d, j < pos /\ counts !! j = Some (Num cj) /\
                       percent_list self !! pos = Some p /\
                       Dec.mul cj p = Ok d /\
                       counts !! pos = Some (Num d)
    end.

(** A tube with concentration 10 and the percents 0.9, 0.8 and 0.5. *)
Definition tube_ex : TubeData.t :=
  TubeData.mk "t1" ["90"; "80"; "50"] "" (Dec.Finite false 10 0)
    [Dec.Finite false 9 (-1); Dec.Finite false 8 (-1); Dec.Finite false 5 (-1)] [].

(** A position reaches a ["start"] entry through the parent indices, each
    pointing to an earlier position. *)
Inductive reaches_start (calc_list : list calc) : nat -> Prop :=
| reaches_here i :
    calc_list !! i = Some start -> reaches_start calc_list i
| reaches_up i j :
    calc_list !! i = Some (parent j) -> j < i ->
    reaches_start calc_list j -> reaches_start calc_list i.

(** The run of [calculate_cell_counts] stops at position [pos] with the
    exception [e]: the positions before [pos] are computed, and the body
    of the loop raises [e] at [pos]. *)
Definition fails_at (self : TubeData.t) (calc_list : list calc) (pos : nat) (e : exn)
  : Prop :=
  exists self_pos i,
    calculate_loop self 0 (take pos calc_list) = Ok self_pos /\
    calc_list !! pos = Some i /\
    cell_count_step self_pos pos i = Raise e.

(** The counts a run leaves, or its exception. *)
Definition counts_of (r : result TubeData.t) : result (list cell) :=
  self' ← r; Ok (count_list self').

(** The tube [tube_ex] under another name and in another group. *)
Definition tube_ex2 : TubeData.t :=
  TubeData.mk "t2" ["90.0"; "80.0"; "50.0"] "control" (Dec.Finite false 10 0)
    [Dec.Finite false 9 (-1); Dec.Finite false 8 (-1); Dec.Finite false 5 (-1)] [].

(** The depth [process_csv] records for a gate: [len(gate.split("/"))]. *)
Definition depth (gate : string) : nat := length (Str.split "/" gate).

(** A segment: a string without ["/"]. *)
Definition no_slash (seg : string) : Prop := Str.mem "/" seg = false.

(** The parent path of a gate, by segments: all but the last when the
    gate has two or more, the gate itself when it has one. *)
Definition parent_path (p : string) : string :=
  if decide (2 <= depth p) then Str.join "/" (removelast (Str.split "/" p)) else p.

(** How often the depth [d] occurs. *)
Definition occ (d : nat) (lengths : list nat) : nat :=
  length (filter (fun x => x = d) lengths).

(** The two sets of the scan after the depths [seen]: the depths met, and
    the depths met twice or more. *)
Definition summarises (seen : list nat) (checked redundant : gset nat) : Prop :=
  (forall d, d ∈ checked <-> d ∈ seen) /\
  (forall d, d ∈ redundant <-> 2 <= occ d seen).

(** The header row and the catalogs of the two scenarios. *)
Definition header_of (gates : list string) : list string := "" :: map hdr gates ++ [""].

(** The depths recorded for the gates Singlets, Singlets/Live and
    Singlets/Live/CD3+. *)
Definition singlets_dict : dict :=
  [("Singlets", 1); ("Singlets/Live", 2); ("Singlets/Live/CD3+", 3)].


(** What the loop over the header keeps true: every gate read so far has
    its number of segments in the dict, and the dict holds nothing else. *)
Definition header_inv (gate_order : list string) (gates_dict : dict) : Prop :=
  (forall gate, gate ∈ gate_order -> dict_get gates_dict gate = Ok (depth gate)) /\
  Forall (fun gn : string * nat => gn.2 = depth gn.1 /\ gn.1 ∈ gate_order) gates_dict.


(** The tube of the cascade scenario: concentration 10, the percents 80
    and 50. *)
Definition cascade_tube : TubeData.t :=
  TubeData.mk "t1" ["80"; "50"] "" (Dec.Finite false 10 0)
    [Dec.Finite false 8 (-1); Dec.Finite false 5 (-1)] [].



(** A [calc_list] in which every parent index points to an earlier
    position that is not ignored. *)
Definition wired (calc_list : list calc) : Prop :=
  forall i j, calc_list !! i = Some (parent j) ->
              j < i /\ calc_list !! j <> Some ignore.

(** The exceptions of the decimal arithmetic. *)
Definition decimal_error (e : exn) : Prop := e = InvalidOperation \/ e = Overflow.

(** A catalog whose gates outside the starting gates and the ignore list
    have their parent path earlier in the list, and not only ignored. *)
Definition rooted (start_gate_list g_list i_list : list string) : Prop :=
  forall i p, g_list !! i = Some p ->
    Str.in_list p start_gate_list = true \/
    Str.in_list p i_list = true \/
    ((exists j, j < i /\ g_list !! j = Some (Str.rsplit1_head p)) /\
     (Str.in_list (Str.rsplit1_head p) start_gate_list = true \/
      Str.in_list (Str.rsplit1_head p) i_list = false)).

(** The rows [process_csv] skips: those whose tube name is ["Mean"] or
    ["SD"]. *)
Definition is_summary (line : list string) : bool :=
  match line with
  | first :: _ => Str.in_list (tube_name first) ["Mean"; "SD"]
  | [] => false
  end.

(** The lines typed during failed attempts: a refused answer, then the
    line typed at the question of [yes_no]. *)
Definition typed (attempts : list (string * string)) : list string :=
  concat (map (fun ba : string * string => [ba.1; ba.2]) attempts).

(** The answer [ask_starting_gate] accepts among [len] levels. *)
Definition level_of (len : nat) (answer : string) : option nat :=
  match int_of_string answer with
  | Some z =>
      if (0 <? z)%Z && (z <=? Z.of_nat len)%Z then Some (Z.to_nat z) else None
  | None => None
  end.

Definition first_char (s : string) : option ascii :=
  match s with
  | String c _ => Some c
  | EmptyString => None
  end.

Fixpoint last_char (s : string) : option ascii :=
  match s with
  | EmptyString => None
  | String c EmptyString => Some c
  | String _ s' => last_char s'
  end.

(** A string that neither starts nor ends with one of the characters
    [strip(".fcs")] removes. *)
Definition clean_ends (s : string) : Prop :=
  (forall c, first_char s = Some c -> Str.mem c ".fcs" = false) /\
  (forall c, last_char s = Some c -> Str.mem c ".fcs" = false).

(** Tubes that differ at most in their group. *)
Definition same_data (a b : TubeData.t) : Prop := set_group_id a (group_id b) = b.

(** The groups never decrease along the list. *)
Definition by_group (l : list TubeData.t) : Prop :=
  forall i j a b, l !! i = Some a -> l !! j = Some b -> i <= j ->
    String.leb (group_id a) (group_id b) = true.

(** The tubes of one group, in the order of the list. *)
Definition group_of (gid : string) (l : list TubeData.t) : list TubeData.t :=
  filter (fun tube => group_id tube = gid) l.

Fixpoint ordered (l : list TubeData.t) : Prop :=
  match l with
  | [] => True
  | x :: rest =>
      Forall (fun y => String.leb (group_id x) (group_id y) = true) rest /\ ordered rest
  end.

(** The answers that end the questions about the groups. *)
Definition is_yes (answer : string) : bool := Str.in_list (Str.lower answer) ["yes"; "y"].

(** The cell of a percent in the output: the percent times 100, as a
    string. *)
Definition percent_shown (p : Decimal) (s : string) : Prop :=
  exists d, Dec.mul p (Dec.of_int 100) = Ok d /\ s = DecStr.str d.

(** The first row of a table of the compact output. *)
Definition compact_titles (grouping_bool : bool) (gate_list : list string) : list string :=
  "Name" :: (if grouping_bool then ["Group"] else [])
    ++ gate_list ++ ["Cell Concentration [10e4]"].

(** The row of a tube in a table of the compact output, around the cells
    of its percents or of its counts. *)
Definition compact_row (grouping_bool : bool) (tube : TubeData.t) (cells : list string)
  : list string :=
  n tube :: (if grouping_bool then [group_id tube] else [])
    ++ cells ++ [DecStr.str (cell_conc tube)].

(** The cells of row [i] of a block of the grouped output: one for every
    group, for its tube [i], empty when the group has no such tube. *)
Definition grouped_cells (groups : list (string * list TubeData.t)) (i : nat)
    (shown : TubeData.t -> out -> Prop) (row : list out) : Prop :=
  Forall2 (fun (g : string * list TubeData.t) cell =>
             match g.2 !! i with
             | Some tube => shown tube cell
             | None => cell = OStr ""
             end) groups row.

(** The size of the largest group. *)
Definition largest (groups : list (string * list TubeData.t)) : nat :=
  foldr Nat.max 0 (map length (map snd groups)).

(** A block of the grouped output from row [first] on: the title, the
    groups, then a row for every rank in a group. *)
Definition grouped_block (content : list (list out)) (first : nat) (title : string)
    (groups : list (string * list TubeData.t)) (shown : TubeData.t -> out -> Prop)
  : Prop :=
  content !! first = Some [OStr title] /\
  content !! (first + 1) = Some (map OStr (map fst groups)) /\
  forall i, i < largest groups ->
    exists row, content !! (first + 2 + i) = Some row /\
                grouped_cells groups i shown row.

(** The strings of [l] that are not in [seen], each once, in the order
    they are first met. *)
Fixpoint first_seen (seen l : list string) : list string :=
  match l with
  | [] => []
  | x :: rest =>
      if decide (x ∈ seen) then first_seen seen rest
      else x :: first_seen (x :: seen) rest
  end.

(** Three tubes with their counts, in the groups a, b and a. *)
Definition grouped_ex : list TubeData.t :=
  [TubeData.mk "t1" ["50"] "a" (Dec.Finite false 10 0) [Dec.Finite false 5 (-1)]
     [Num (Dec.Finite false 50 (-1))];
   TubeData.mk "t2" ["20"] "b" (Dec.Finite false 10 0) [Dec.Finite false 2 (-1)]
     [Num (Dec.Finite false 20 (-1))];
   TubeData.mk "t3" ["40"] "a" (Dec.Finite false 10 0) [Dec.Finite false 4 (-1)]
     [Num (Dec.Finite false 40 (-1))]].

(** Strings in strictly increasing order. *)
Definition increasing (keys : list string) : Prop :=
  forall i j a b, keys !! i = Some a -> keys !! j = Some b -> i < j ->
    String.ltb a b = true.

(** The strings of decimal digits, and the number they write after the
    digits of [acc]. *)
Fixpoint all_digits (s : string) : Prop :=
  match s with
  | EmptyString => True
  | String c s' => Dec.is_digit c = true /\ all_digits s'
  end.

Fixpoint dvalue (s : string) (acc : N) : N :=
  match s with
  | EmptyString => acc
  | String c s' => dvalue s' (acc * 10 + Dec.digit_val c)
  end.

Definition not_digit_first (s : string) : Prop :=
  match s with
  | EmptyString => True
  | String c _ => Dec.is_digit c = false
  end.

(** The strings without a blank and without an underscore. *)
Fixpoint plain (s : string) : Prop :=
  match s with
  | EmptyString => True
  | String c s' => Str.mem c (String "_" Str.whitespace) = false /\ plain s'
  end.

(** * Verification *)

(** ** The model on the inputs of the scenarios *)

Example split_ex1 : Str.split "/" "Singlets/Live/CD3+" = ["Singlets"; "Live"; "CD3+"].
Proof. reflexivity. Qed.

Example split_ex2 : Str.split " | " "A/B | Freq. of Parent (%)" = ["A/B"; "Freq. of Parent (%)"].
Proof. reflexivity. Qed.

Example split_ex3 : Str.split "/" "" = [""] /\ Str.split "/" "a/" = ["a"; ""] /\ Str.split " | " "a | " = ["a"; ""].
Proof. repeat split. Qed.

Example strip_ex1 : Str.strip ".fcs" "sample1.fcs" = "ample1".
Proof. reflexivity. Qed.

Example rsplit_ex1 : Str.rsplit1_head "A/B/C" = "A/B" /\ Str.rsplit1_head "X" = "X".
Proof. split; reflexivity. Qed.

Example of_string_50 : Dec.of_string "50" = Some (Dec.Finite false 50 0).
Proof. reflexivity. Qed.

(** [Decimal(str)] at the limits of the C module: a nonzero number up to
    the adjusted exponent [MAX_EMAX], a zero up to the exponent [MAX_EMAX],
    and any number down to the exponent [MIN_ETINY]. *)
Example of_string_limits :
  Dec.of_string "1e99999999999999999999" = None /\
  Dec.of_string "1e-99999999999999999999" = None /\
  Dec.of_string "1e999999999999999999" = Some (Dec.Finite false 1 999999999999999999) /\
  Dec.of_string "1e1000000000000000000" = None /\
  Dec.of_string "10e999999999999999998" = Some (Dec.Finite false 10 999999999999999998) /\
  Dec.of_string "10e999999999999999999" = None /\
  Dec.of_string "0.1e1000000000000000000" = Some (Dec.Finite false 1 999999999999999999) /\
  Dec.of_string "0e999999999999999999" = Some (Dec.Finite false 0 999999999999999999) /\
  Dec.of_string "0e1000000000000000000" = None /\
  Dec.of_string "10e-1999999999999999997"
  = Some (Dec.Finite false 10 (-1999999999999999997)) /\
  Dec.of_string "1e-1999999999999999998" = None /\
  Dec.of_string "0.1e-1999999999999999997" = None /\
  Dec.of_string "0e-1999999999999999997" = Some (Dec.Finite false 0 (-1999999999999999997)) /\
  Dec.of_string "0e-1999999999999999998" = None /\
  Dec.of_string (String (ascii_of_nat 31) "2") = Some (Dec.Finite false 2 0) /\
  percent_of_string "1e99999999999999999999" = Raise InvalidOperation /\
  convert_to_decimal ["50"; "1e99999999999999999999"] [] = Raise SystemExit /\
  ask_cell_conc ["1e99999999999999999999"; "y"; "10"] = Ok (Dec.Finite false 10 0, []).
Proof. vm_compute. repeat split. Qed.

(** [int(str)]: the blanks of [int], the underscores and the limit of
    4300 digits. *)
Example int_of_string_examples :
  int_of_string " 12 " = Some 12%Z /\ int_of_string "-1_000" = Some (-1000)%Z /\
  int_of_string "+7" = Some 7%Z /\ int_of_string "007" = Some 7%Z /\
  int_of_string "1__0" = None /\ int_of_string "_1" = None /\
  int_of_string "1_" = None /\ int_of_string "+ 1" = None /\
  int_of_string "" = None /\ int_of_string "2.0" = None /\
  int_of_string (String (ascii_of_nat 9) "2") = Some 2%Z /\
  int_of_string (String (ascii_of_nat 160) "2") = Some 2%Z /\
  int_of_string (String (ascii_of_nat 133) "2") = Some 2%Z /\
  int_of_string (String (ascii_of_nat 28) "2") = None /\
  int_of_string (String (ascii_of_nat 31) "2") = None /\
  int_of_string ("2" ++ String (ascii_of_nat 31) "")%string = None /\
  int_of_string (String.concat "" (repeat "0" 4299) ++ "2")%string = Some 2%Z /\
  int_of_string (String.concat "" (repeat "0" 4300) ++ "2")%string = None /\
  int_of_string ("-" ++ String.concat "_" (repeat "0" 4299) ++ "_2")%string = Some (-2)%Z /\
  int_of_string (String.concat "_" (repeat "0" 4300) ++ "_2")%string = None /\
  ask_starting_gate "A/B" [String (ascii_of_nat 31) "2"; "y"; "2"] = Ok ("A/B", []) /\
  ask_starting_gate "A/B" [(String.concat "" (repeat "0" 4300) ++ "2")%string; "y"; "1"]
  = Ok ("A", []).
Proof. vm_compute. repeat split. Qed.

Example of_string_misc :
  Dec.of_string " -1_2.50e-3 " = Some (Dec.Finite true 1250 (-5)) /\
  Dec.of_string ".5" = Some (Dec.Finite false 5 (-1)) /\
  Dec.of_string "1." = Some (Dec.Finite false 1 0) /\
  Dec.of_string "." = None /\ Dec.of_string "1e" = None /\
  Dec.of_string "n/a" = None /\ Dec.of_string "" = None /\
  Dec.of_string "-Inf" = Some (Dec.Infinity true) /\
  Dec.of_string "sNaN12" = Some (Dec.NaN false true 12).
Proof. repeat split. Qed.

Example div_50_100 :
  Dec.truediv (Dec.Finite false 50 0) (Dec.of_int 100) = Ok (Dec.Finite false 5 (-1)).
Proof. vm_compute. reflexivity. Qed.

Example div_third :
  Dec.truediv (Dec.of_int 1) (Dec.of_int 3)
  = Ok (Dec.Finite false 3333333333333333333333333333 (-28)).
Proof. vm_compute. reflexivity. Qed.

Example div_two_thirds :
  Dec.truediv (Dec.of_int 2) (Dec.of_int 3)
  = Ok (Dec.Finite false 6666666666666666666666666667 (-28)).
Proof. vm_compute. reflexivity. Qed.

Example mul_ex :
  Dec.mul (Dec.Finite false 10 0) (Dec.Finite false 8 (-1)) = Ok (Dec.Finite false 80 (-1)).
Proof. vm_compute. reflexivity. Qed.

(** ** The result monad *)

Lemma bind_Ok {A B} (r : result A) (k : A -> result B) (b : B) :
  r ≫= k = Ok b <-> exists a, r = Ok a /\ k a = Ok b.
Proof.
  destruct r as [a|e]; simpl; split.
  - intros H. exists a. auto.
  - intros (a' & Ha & Hk). injection Ha as ->. exact Hk.
  - discriminate.
  - intros (a' & Ha & _). discriminate.
Qed.

Lemma bind_Raise {A B} (r : result A) (k : A -> result B) (e : exn) :
  r ≫= k = Raise e <-> r = Raise e \/ exists a, r = Ok a /\ k a = Raise e.
Proof.
  destruct r as [a|e']; simpl; split.
  - intros H. right. exists a. auto.
  - intros [H | (a' & Ha & Hk)]; [discriminate | injection Ha as ->; exact Hk].
  - intros H. left. congruence.
  - intros [H | (a' & Ha & _)]; [congruence | discriminate].
Qed.

Lemma getitem_Ok {A} (l : list A) (i : nat) (x : A) :
  getitem l i = Ok x <-> l !! i = Some x.
Proof.
  unfold getitem. destruct (l !! i); split; intros H; try discriminate; congruence.
Qed.

Lemma getitem_Raise {A} (l : list A) (i : nat) (e : exn) :
  getitem l i = Raise e <-> (length l <= i /\ e = IndexError).
Proof.
  unfold getitem. destruct (l !! i) eqn:E; split.
  - discriminate.
  - intros [Hle _]. apply lookup_ge_None_2 in Hle. congruence.
  - intros [= <-]. split; [by apply lookup_ge_None_1 | done].
  - intros [_ ->]. done.
Qed.

(** ** Count propagation *)

Lemma cell_count_step_Ok self pos i self' :
  cell_count_step self pos i = Ok self' <->
  exists c, count_at self (count_list self) pos i c /\
            self' = set_count_list self (count_list self ++ [c]).
Proof.
  unfold cell_count_step. rewrite bind_Ok. split.
  - intros (c & Hc & [= <-]). exists c. split; [|done].
    destruct i as [| |j]; simpl in *.
    + apply bind_Ok in Hc as (p & Hp & Hc). apply bind_Ok in Hc as (d & Hd & [= <-]).
      apply getitem_Ok in Hp. eauto.
    + congruence.
    + apply bind_Ok in Hc as (cj & Hcj & Hc). apply bind_Ok in Hc as (p & Hp & Hc).
      apply bind_Ok in Hc as (d & Hd & [= <-]).
      apply getitem_Ok in Hcj, Hp. destruct cj as [x|]; [|discriminate].
      simpl in Hd. eauto 10.
  - intros (c & Hc & ->). exists c. split; [|done].
    destruct i as [| |j]; simpl in *.
    + destruct Hc as (p & d & Hp & Hd & ->).
      apply getitem_Ok in Hp. rewrite Hp. simpl. rewrite Hd. done.
    + congruence.
    + destruct Hc as (cj & p & d & Hcj & Hp & Hd & ->).
      apply getitem_Ok in Hcj, Hp. rewrite Hcj. simpl. rewrite Hp. simpl.
      rewrite Hd. done.
Qed.

Lemma count_at_prefix self self2 counts extra pos i c :
  percent_list self2 = percent_list self ->
  cell_conc self2 = cell_conc self ->
  (forall j, i = parent j -> j < length counts) ->
  count_at self (counts ++ extra) pos i c <-> count_at self2 counts pos i c.
Proof.
  intros Hp Hc Hj. destruct i as [| |j]; simpl; rewrite ?Hp, ?Hc; [done..|].
  specialize (Hj j eq_refl). by rewrite lookup_app_l.
Qed.

(** The loop, from any state: the counts appended are those of [count_at],
    read in the final list. *)
Lemma calculate_loop_sound calc_list : forall self pos self',
  calculate_loop self pos calc_list = Ok self' ->
  exists cs,
    self' = set_count_list self (count_list self ++ cs) /\
    length cs = length calc_list /\
    forall k i, calc_list !! k = Some i ->
      exists c, cs !! k = Some c /\
        count_at self (take (length (count_list self) + k) (count_list self')) (pos + k) i c.
Proof.
  induction calc_list as [|i rest IH]; intros self pos self' H; simpl in H.
  - injection H as <-. exists []. rewrite app_nil_r. destruct self; repeat split; done.
  - apply bind_Ok in H as (self1 & Hstep & Hloop).
    apply cell_count_step_Ok in Hstep as (c & Hc & ->).
    apply IH in Hloop as (cs & -> & Hlen & Hall). simpl in *.
    exists (c :: cs). split; [by rewrite <- app_assoc|]. split; [simpl; lia|].
    intros [|k] i' Hk; simpl in Hk.
    + injection Hk as <-. exists c. split; [done|].
      rewrite !Nat.add_0_r, <- app_assoc, take_app_length. done.
    + destruct (Hall k i' Hk) as (c' & Hc' & Hat). exists c'. split; [done|].
      rewrite length_app in Hat. simpl in Hat.
      replace (length (count_list self) + S k) with (length (count_list self) + 1 + k) by lia.
      replace (pos + S k) with (S pos + k) by lia.
      destruct i'; exact Hat.
Qed.

(** And conversely: counts that satisfy [count_at] everywhere, with every
    parent before its child, are what the loop computes. *)
Lemma calculate_loop_complete rest : forall self pos cs pre,
  length pre = pos ->
  length cs = pos + length rest ->
  count_list self = take pos cs ->
  (forall k i, (pre ++ rest) !! k = Some i ->
     exists c, cs !! k = Some c /\ count_at self (take k cs) k i c) ->
  calculate_loop self pos rest = Ok (set_count_list self cs).
Proof.
  induction rest as [|i rest IH]; intros self pos cs pre Hpre Hlen Hcur Hall; simpl.
  - rewrite Nat.add_0_r in Hlen. rewrite take_ge in Hcur by lia.
    rewrite <- Hcur. by destruct self.
  - destruct (Hall pos i) as (c & Hc & Hat).
    { rewrite lookup_app_r by lia. by replace (pos - length pre) with 0 by lia. }
    assert (Hstep : cell_count_step self pos i
                    = Ok (set_count_list self (count_list self ++ [c]))).
    { apply cell_count_step_Ok. exists c. split; [|done]. by rewrite Hcur. }
    rewrite Hstep. simpl.
    assert (Htake : take (S pos) cs = take pos cs ++ [c]).
    { by apply take_S_r. }
    rewrite (IH _ (S pos) cs (pre ++ [i])); simpl.
    + done.
    + rewrite length_app. simpl. lia.
    + simpl in Hlen. lia.
    + by rewrite Hcur.
    + intros k i' Hk. rewrite <- app_assoc in Hk. simpl in Hk.
      destruct (Hall k i' Hk) as (c' & Hc' & Hat'). exists c'. split; [done|].
      destruct i'; exact Hat'.
Qed.

Lemma propagated_count_at self calc_list counts :
  propagated self calc_list counts <->
  length counts = length calc_list /\
  forall k i, calc_list !! k = Some i ->
    exists c, counts !! k = Some c /\ count_at self (take k counts) k i c.
Proof.
  unfold propagated. split; intros [Hlen H]; (split; [exact Hlen|]); intros k i Hk;
    specialize (H k i Hk); destruct i as [| |j]; simpl in *.
  - destruct H as (p & d & Hp & Hd & Hc). eauto 10.
  - eauto.
  - destruct H as (cj & p & d & Hj & Hcj & Hp & Hd & Hc).
    exists (Num d). split; [exact Hc|]. exists cj, p, d.
    rewrite lookup_take_lt by exact Hj. auto.
  - destruct H as (c & Hc & p & d & Hp & Hd & ->). eauto 10.
  - destruct H as (c & Hc & ->). exact Hc.
  - destruct H as (c & Hc & cj & p & d & Hcj & Hp & Hd & ->).
    exists cj, p, d. apply lookup_take_Some in Hcj as [Hcj Hj]. auto.
Qed.

Lemma calculate_fresh self calc_list self' :
  count_list self = [] ->
  calculate_cell_counts self calc_list = Ok self' <->
  exists counts, self' = set_count_list self counts /\ propagated self calc_list counts.
Proof.
  intros Hfresh. unfold calculate_cell_counts. split.
  - intros H. apply calculate_loop_sound in H as (cs & -> & Hlen & Hall).
    rewrite Hfresh in *. simpl in *. exists cs. split; [done|].
    apply propagated_count_at. split; [done|]. exact Hall.
  - intros (counts & -> & Hp). apply propagated_count_at in Hp as [Hlen Hall].
    apply (calculate_loop_complete calc_list self 0 counts []); simpl; done.
Qed.

(** C1. On a tube without counts yet (as [TubeData.__init__] leaves it),
    [calculate_cell_counts] returns exactly when there are counts, one per
    entry of [calc_list], such that at every position: a ["start"] entry
    holds [cell_conc * percent_list[pos]], an ["ignore"] entry holds the
    blank, and an entry with parent index [j] holds
    [count_list[j] * percent_list[pos]], the count of an earlier position;
    these counts are then the tube's [count_list] and nothing else of the
    tube changes. *)
Theorem calculate_cell_counts_spec (self self' : TubeData.t) (calc_list : list calc) :
  count_list self = [] ->
  calculate_cell_counts self calc_list = Ok self' <->
  self' = set_count_list self (count_list self') /\
  length (count_list self') = length calc_list /\
  forall pos i, calc_list !! pos = Some i ->
    match i with
    | start =>
        exists p d, percent_list self !! pos = Some p /\
                    Dec.mul (cell_conc self) p = Ok d /\
                    count_list self' !! pos = Some (Num d)
    | ignore => count_list self' !! pos = Some Blank
    | parent j =>
        exists cj p d, j < pos /\ count_list self' !! j = Some (Num cj) /\
                       percent_list self !! pos = Some p /\
                       Dec.mul cj p = Ok d /\
                       count_list self' !! pos = Some (Num d)
    end.
Proof.
  intros Hfresh. rewrite (calculate_fresh _ _ _ Hfresh). split.
  - intros (counts & -> & Hp). simpl. done.
  - intros (Hself & Hp). exists (count_list self'). done.
Qed.

Lemma calculate_cell_counts_spec_witness :
  count_list tube_ex = [] /\
  calculate_cell_counts tube_ex [ignore; start; parent 1]
  = Ok (set_count_list tube_ex
          [Blank; Num (Dec.Finite false 80 (-1)); Num (Dec.Finite false 400 (-2))]).
Proof.
  split; [reflexivity|].
  apply (calculate_cell_counts_spec tube_ex _ [ignore; start; parent 1] eq_refl).
  split; [reflexivity|]. split; [reflexivity|].
  intros [|[|[|pos]]] i Hi; simpl in Hi; try discriminate; injection Hi as <-.
  - reflexivity.
  - eexists _, _. repeat split.
  - eexists _, _, _. repeat split. lia.
Defined.

Lemma numeric_reaches_start self calc_list counts :
  propagated self calc_list counts ->
  forall i d, counts !! i = Some (Num d) -> reaches_start calc_list i.
Proof.
  intros [Hlen Hall] i. induction (lt_wf i) as [i _ IH]. intros d Hd.
  assert (Hi : i < length calc_list).
  { rewrite <- Hlen. by eapply lookup_lt_Some. }
  destruct (lookup_lt_is_Some_2 _ _ Hi) as [c Hc].
  specialize (Hall i c Hc). destruct c as [| |j].
  - by apply reaches_here.
  - congruence.
  - destruct Hall as (cj & p & d' & Hj & Hcj & _).
    eapply reaches_up; eauto.
Qed.

Lemma calculate_loop_take self calc_list self' k :
  calculate_loop self 0 calc_list = Ok self' ->
  calculate_loop self 0 (take k calc_list)
  = Ok (set_count_list self (take (length (count_list self) + k) (count_list self'))).
Proof.
  revert self self'. generalize 0 at 1 2 as pos. revert k.
  induction calc_list as [|i rest IH]; intros k pos self self' H; simpl in *.
  - injection H as <-. rewrite take_nil. simpl. rewrite take_ge by lia. by destruct self.
  - apply bind_Ok in H as (self1 & Hstep & Hloop). destruct k as [|k]; simpl.
    + rewrite Nat.add_0_r.
      apply calculate_loop_sound in Hloop as (cs & -> & _).
      apply cell_count_step_Ok in Hstep as (c & _ & ->). simpl.
      rewrite <- app_assoc, take_app_length. by destruct self.
    + rewrite Hstep. simpl. rewrite (IH k (S pos) self1 self' Hloop).
      apply cell_count_step_Ok in Hstep as (c & _ & ->). simpl.
      rewrite length_app. simpl.
      replace (length (count_list self) + 1 + k) with (length (count_list self) + S k) by lia.
      done.
Qed.

(** A run that raises stops at one position. *)
Lemma calculate_loop_fails calc_list : forall self pos e,
  calculate_loop self pos calc_list = Raise e ->
  exists k self_k i,
    calculate_loop self pos (take k calc_list) = Ok self_k /\
    calc_list !! k = Some i /\
    cell_count_step self_k (pos + k) i = Raise e.
Proof.
  induction calc_list as [|c rest IH]; intros self pos e H; simpl in H; [discriminate|].
  destruct (cell_count_step self pos c) as [self1|e1] eqn:Hstep; simpl in H.
  - apply IH in H as (k & self_k & i & Hpre & Hi & Hraise).
    exists (S k), self_k, i. simpl. rewrite Hstep. simpl.
    split; [done|]. split; [done|]. by rewrite <- Nat.add_succ_comm.
  - injection H as <-. exists 0, self, c. rewrite Nat.add_0_r. done.
Qed.

(** C10, as the code has it.  On a tube without counts yet: if the entry
    at position [i] is the parent index [j] and the entry at position [j]
    is ["ignore"], then [calculate_cell_counts] raises, and the run stops
    at position [i] or before it.  When the positions before [i] are
    computed, it is the body of the loop at position [i] that raises: the
    [TypeError] of a blank times a [Decimal] when [j] is below [i] and the
    tube has a percent at position [i], and otherwise the [IndexError] of
    a count or a percent that is not there.  A run that returns holds a
    number only at positions that reach a ["start"] entry through parent
    indices, never through an ignored position. *)
Theorem ignored_parent_raises (self : TubeData.t) (calc_list : list calc) :
  count_list self = [] ->
  (forall i j,
     calc_list !! i = Some (parent j) -> calc_list !! j = Some ignore ->
     raises (calculate_cell_counts self calc_list) /\
     (exists pos e,
        pos <= i /\ fails_at self calc_list pos e /\
        calculate_cell_counts self calc_list = Raise e) /\
     forall self_i,
       calculate_loop self 0 (take i calc_list) = Ok self_i ->
       cell_count_step self_i i (parent j)
       = Raise (if decide (j < i /\ i < length (percent_list self))
                then TypeError else IndexError)) /\
  (forall self' i d,
     calculate_cell_counts self calc_list = Ok self' ->
     count_list self' !! i = Some (Num d) ->
     reaches_start calc_list i).
Proof.
  intros Hfresh. split.
  - intros i j Hi Hj.
    assert (Hbad : forall l self',
              l !! i = Some (parent j) -> l !! j = Some ignore ->
              calculate_cell_counts self l = Ok self' -> False).
    { intros l self' Hli Hlj E.
      apply (calculate_fresh _ _ _ Hfresh) in E as (counts & -> & Hlen & Hall).
      pose proof (Hall i _ Hli) as (cj & p & d & _ & Hcj & _).
      pose proof (Hall j _ Hlj) as Hb. simpl in Hb. congruence. }
    assert (Hraises : raises (calculate_cell_counts self calc_list)).
    { destruct (calculate_cell_counts self calc_list) as [self'|e] eqn:E; [|by exists e].
      exfalso. by eapply Hbad. }
    split; [exact Hraises|]. split.
    + destruct Hraises as [e He]. pose proof He as Hfail.
      apply calculate_loop_fails in Hfail as (k & self_k & c & Hpre & Hc & Hstep).
      exists k, e. split; [|split; [by exists self_k, c | done]].
      destruct (decide (k <= i)) as [|Hgt]; [done|]. exfalso.
      destruct (decide (j < i)) as [Hlt|Hge].
      * apply (Hbad (take k calc_list) self_k); [| |done].
        -- rewrite lookup_take_lt by lia. done.
        -- rewrite lookup_take_lt by lia. done.
      * apply (calculate_fresh _ _ _ Hfresh) in Hpre as (counts & -> & Hlen & Hall).
        assert (Hti : take k calc_list !! i = Some (parent j)).
        { rewrite lookup_take_lt by lia. done. }
        pose proof (Hall i _ Hti) as (cj & p & d & Hji & _). lia.
    + intros self_i Hpre.
      apply (calculate_fresh _ _ _ Hfresh) in Hpre as (counts & -> & Hlen & Hall).
      unfold cell_count_step. simpl.
      destruct (decide (j < i)) as [Hlt|Hge].
      * assert (Hb : counts !! j = Some Blank).
        { apply (Hall j ignore). rewrite lookup_take_lt by done. done. }
        apply getitem_Ok in Hb. rewrite Hb. simpl.
        destruct (getitem (percent_list self) i) eqn:G; simpl.
        -- apply getitem_Ok, lookup_lt_Some in G.
           destruct (decide (j < i /\ i < length (percent_list self))) as [|Hn]; [done|].
           exfalso. apply Hn. done.
        -- apply getitem_Raise in G as [G ->].
           destruct (decide (j < i /\ i < length (percent_list self))) as [[_ Hn]|]; [lia|done].
      * assert (Hn : getitem counts j = Raise IndexError).
        { apply getitem_Raise. split; [|done]. rewrite Hlen, length_take. lia. }
        rewrite Hn. simpl.
        destruct (decide (j < i /\ i < length (percent_list self))) as [[Hn' _]|]; [lia|done].
  - intros self' i d E Hd.
    apply (calculate_fresh _ _ _ Hfresh) in E as (counts & -> & Hp).
    by eapply numeric_reaches_start.
Qed.

Lemma ignored_parent_raises_witness :
  raises (calculate_cell_counts tube_ex [ignore; parent 0; start]) /\
  cell_count_step (set_count_list tube_ex [Blank]) 1 (parent 0) = Raise TypeError /\
  reaches_start [ignore; start; parent 1] 2.
Proof.
  split; [|split].
  - exact (proj1 (proj1 (ignored_parent_raises tube_ex [ignore; parent 0; start] eq_refl)
                        1 0 eq_refl eq_refl)).
  - exact (proj2 (proj2 (proj1 (ignored_parent_raises tube_ex [ignore; parent 0; start]
                                  eq_refl)
                               1 0 eq_refl eq_refl))
                 (set_count_list tube_ex [Blank]) eq_refl).
  - eapply (proj2 (ignored_parent_raises tube_ex [ignore; start; parent 1] eq_refl) _ 2).
    + vm_compute. reflexivity.
    + reflexivity.
Defined.

(** C10 as stated fails where the run does not reach the position: in
    [ignore; parent 0; parent 0] the position 2 has an ignored parent, but
    the run stops at position 1 and nothing is raised at position 2; and
    in [parent 1; ignore] the position 0 has an ignored parent that comes
    after it, so that no blank count is multiplied: the run stops with
    the [IndexError] of a count that is not there yet. *)
Lemma ignored_parent_fails_elsewhere :
  ([ignore; parent 0; parent 0] !! 2 = Some (parent 0) /\
   [ignore; parent 0; parent 0] !! 0 = Some ignore /\
   calculate_cell_counts tube_ex [ignore; parent 0; parent 0] = Raise TypeError /\
   fails_at tube_ex [ignore; parent 0; parent 0] 1 TypeError /\
   forall e, ~ fails_at tube_ex [ignore; parent 0; parent 0] 2 e) /\
  ([parent 1; ignore] !! 0 = Some (parent 1) /\
   [parent 1; ignore] !! 1 = Some ignore /\
   calculate_cell_counts tube_ex [parent 1; ignore] = Raise IndexError /\
   fails_at tube_ex [parent 1; ignore] 0 IndexError /\
   ~ fails_at tube_ex [parent 1; ignore] 0 TypeError).
Proof.
  split.
  - split; [reflexivity|]. split; [reflexivity|]. split; [reflexivity|]. split.
    + eexists _, _. split; [reflexivity|]. split; reflexivity.
    + intros e (self2 & c & Hpre & _). vm_compute in Hpre. discriminate.
  - split; [reflexivity|]. split; [reflexivity|]. split; [reflexivity|]. split.
    + eexists _, _. split; [reflexivity|]. split; reflexivity.
    + intros (self0 & c & Hpre & Hc & Hstep).
      injection Hpre as <-. injection Hc as <-. vm_compute in Hstep. discriminate.
Qed.

Lemma calculate_loop_ext calc_list : forall self1 self2 pos,
  cell_conc self1 = cell_conc self2 ->
  percent_list self1 = percent_list self2 ->
  count_list self1 = count_list self2 ->
  counts_of (calculate_loop self1 pos calc_list)
  = counts_of (calculate_loop self2 pos calc_list).
Proof.
  induction calc_list as [|i rest IH]; intros self1 self2 pos Hc Hp Hl; simpl.
  - by rewrite Hl.
  - unfold cell_count_step. rewrite Hc, Hp, Hl.
    destruct (match i with start => _ | ignore => _ | parent _ => _ end) as [c|e];
      simpl; [|done].
    apply IH; simpl; congruence.
Qed.

(** A second run on the same tube reads the counts of the first and
    appends the same counts again. *)
Lemma calculate_loop_again self calc_list counts :
  propagated self calc_list counts ->
  forall rest pos done_ extra,
    calc_list = done_ ++ rest -> length done_ = pos ->
    extra = take pos counts ->
    calculate_loop (set_count_list self (counts ++ extra)) pos rest
    = Ok (set_count_list self (counts ++ counts)).
Proof.
  intros [Hlen Hall]. induction rest as [|i rest IH]; intros pos done_ extra Hsplit Hpos ->; simpl.
  - rewrite app_nil_r in Hsplit. subst. rewrite take_ge by lia. done.
  - assert (Hi : calc_list !! pos = Some i).
    { subst. rewrite lookup_app_r by lia. by rewrite Nat.sub_diag. }
    assert (exists c, counts !! pos = Some c /\
              cell_count_step (set_count_list self (counts ++ take pos counts)) pos i
              = Ok (set_count_list self (counts ++ take (S pos) counts)))
      as (c & Hc & ->).
    { specialize (Hall pos i Hi). destruct i as [| |j]; simpl in Hall.
      - destruct Hall as (p & d & Hp & Hd & Hc). exists (Num d). split; [done|].
        apply cell_count_step_Ok. exists (Num d). simpl. split; [eauto|].
        by rewrite (take_S_r _ _ _ Hc), app_assoc.
      - exists Blank. split; [done|].
        apply cell_count_step_Ok. exists Blank. simpl. split; [done|].
        by rewrite (take_S_r _ _ _ Hall), app_assoc.
      - destruct Hall as (cj & p & d & Hj & Hcj & Hp & Hd & Hc).
        exists (Num d). split; [done|].
        apply cell_count_step_Ok. exists (Num d). simpl. split.
        + exists cj, p, d. rewrite lookup_app_l by (by eapply lookup_lt_Some). done.
        + by rewrite (take_S_r _ _ _ Hc), app_assoc. }
    simpl. apply (IH (S pos) (done_ ++ [i])).
    + by rewrite <- app_assoc.
    + rewrite length_app. simpl. lia.
    + done.
Qed.

(** C8, as the code has it.  The counts of a run are determined by the
    concentration, the percents and [calc_list]: two tubes without counts
    that agree on these get the same counts, or raise the same exception,
    whatever their names and groups.  A second run on the tube of a first
    run computes the same counts once more and appends them: the method is
    not idempotent on the tube, whose [count_list] then holds the sequence
    twice. *)
Theorem calculate_cell_counts_deterministic (self1 self2 : TubeData.t)
    (calc_list : list calc) :
  cell_conc self1 = cell_conc self2 ->
  percent_list self1 = percent_list self2 ->
  count_list self1 = [] -> count_list self2 = [] ->
  counts_of (calculate_cell_counts self1 calc_list)
  = counts_of (calculate_cell_counts self2 calc_list) /\
  forall self',
    calculate_cell_counts self1 calc_list = Ok self' ->
    calculate_cell_counts self' calc_list
    = Ok (set_count_list self' (count_list self' ++ count_list self')).
Proof.
  intros Hc Hp H1 H2. split.
  - apply calculate_loop_ext; congruence.
  - intros self' E. apply (calculate_fresh _ _ _ H1) in E as (counts & -> & Hprop).
    simpl. unfold calculate_cell_counts.
    pose proof (calculate_loop_again self1 calc_list counts Hprop calc_list 0 [] []
                  eq_refl eq_refl eq_refl) as H.
    rewrite app_nil_r in H. exact H.
Qed.

Lemma calculate_cell_counts_deterministic_witness :
  counts_of (calculate_cell_counts tube_ex [ignore; start; parent 1])
  = counts_of (calculate_cell_counts tube_ex2 [ignore; start; parent 1]).
Proof.
  exact (proj1 (calculate_cell_counts_deterministic tube_ex tube_ex2
                  [ignore; start; parent 1] eq_refl eq_refl eq_refl eq_refl)).
Defined.

(** C8 as stated fails for two runs on the same tube: the second run
    leaves a [count_list] of twice the length. *)
Lemma second_run_appends :
  exists self1 self2,
    calculate_cell_counts tube_ex [ignore; start; parent 1] = Ok self1 /\
    calculate_cell_counts self1 [ignore; start; parent 1] = Ok self2 /\
    count_list self1
    = [Blank; Num (Dec.Finite false 80 (-1)); Num (Dec.Finite false 400 (-2))] /\
    count_list self2 = count_list self1 ++ count_list self1 /\
    count_list self2 <> count_list self1.
Proof.
  eexists _, _. split; [vm_compute; reflexivity|]. split; [vm_compute; reflexivity|].
  split; [reflexivity|]. split; [reflexivity|]. discriminate.
Qed.

(** ** Paths and their segments *)

#[local] Arguments Ascii.eqb : simpl never.

Lemma append_nil_l (s : string) : ("" ++ s)%string = s.
Proof. reflexivity. Qed.

Lemma append_cons (c : ascii) (a s : string) :
  (String c a ++ s)%string = String c (a ++ s)%string.
Proof. reflexivity. Qed.

Lemma split_slash_nil : Str.split "/" "" = [""].
Proof. reflexivity. Qed.

Lemma split_slash_cons c s :
  Str.split "/" (String c s)
  = if Ascii.eqb c "/" then "" :: Str.split "/" s
    else Str.cons_head c (Str.split "/" s).
Proof.
  unfold Str.split. cbn [Str.split_go Str.startswith].
  rewrite andb_true_r, (Ascii.eqb_sym "/" c). reflexivity.
Qed.

Lemma split_go_not_nil sep s : forall k, Str.split_go sep k s <> [].
Proof.
  induction s as [|c s IH]; intros k; simpl; [done|].
  destruct k; [|apply IH].
  destruct (Str.startswith sep (String c s)); [done|].
  specialize (IH 0). destruct (Str.split_go sep 0 s); done.
Qed.


Lemma split_slash_segments s : Forall no_slash (Str.split "/" s).
Proof.
  induction s as [|c s IH]; [by repeat constructor|].
  rewrite split_slash_cons. destruct (Ascii.eqb c "/") eqn:E.
  - by constructor.
  - destruct (Str.split "/" s) as [|h t]; simpl.
    + repeat constructor. unfold no_slash. simpl. by rewrite E.
    + inversion IH as [|? ? Hh Ht]; subst. constructor; [|done].
      unfold no_slash in *. simpl. by rewrite E.
Qed.

Lemma join_cons_head c l :
  l <> [] -> Str.join "/" (Str.cons_head c l) = String c (Str.join "/" l).
Proof. destruct l as [|h [|h' t]]; done. Qed.

Lemma join_split s : Str.join "/" (Str.split "/" s) = s.
Proof.
  induction s as [|c s IH]; [done|].
  rewrite split_slash_cons. destruct (Ascii.eqb c "/") eqn:E.
  - apply Ascii.eqb_eq in E as ->.
    pose proof (split_go_not_nil "/" s 0) as Hne. unfold Str.split in *.
    destruct (Str.split_go "/" 0 s) as [|h t]; [done|].
    simpl in *. by rewrite IH.
  - rewrite join_cons_head by apply split_go_not_nil. by rewrite IH.
Qed.

Lemma split_no_slash seg : no_slash seg -> Str.split "/" seg = [seg].
Proof.
  unfold no_slash. induction seg as [|c s IH]; [done|].
  intros H. cbn [Str.mem] in H. apply orb_false_elim in H as [Hc Hs].
  rewrite split_slash_cons, Hc, (IH Hs). done.
Qed.

Lemma split_append_slash seg s :
  no_slash seg -> Str.split "/" (seg ++ String "/" s)%string = seg :: Str.split "/" s.
Proof.
  unfold no_slash. induction seg as [|c seg IH]; cbn [Str.mem].
  - intros _. by rewrite append_nil_l, split_slash_cons.
  - intros H. apply orb_false_elim in H as [Hc Hs].
    rewrite append_cons, split_slash_cons, Hc, (IH Hs). done.
Qed.

Lemma split_join l :
  l <> [] -> Forall no_slash l -> Str.split "/" (Str.join "/" l) = l.
Proof.
  induction l as [|x l IH]; [done|]. intros _ Hall.
  inversion Hall as [|? ? Hx Hl]; subst.
  destruct l as [|y l].
  - simpl. by apply split_no_slash.
  - change (Str.join "/" (x :: y :: l))
      with (x ++ String "/" (Str.join "/" (y :: l)))%string.
    rewrite split_append_slash by done. by rewrite IH.
Qed.

(** The path made of the first [k] segments of a gate has depth [k]. *)
Lemma depth_prefix gate k :
  1 <= k <= depth gate ->
  depth (Str.join "/" (take k (Str.split "/" gate))) = k.
Proof.
  intros Hk. unfold depth in *. rewrite split_join.
  - rewrite length_take. lia.
  - destruct (Str.split "/" gate), k; simpl in *; try done; lia.
  - apply Forall_take, split_slash_segments.
Qed.

Lemma before_last_slash_no_slash seg :
  no_slash seg -> Str.before_last_slash seg = None.
Proof.
  unfold no_slash. induction seg as [|c s IH]; [done|]. simpl.
  intros H. apply orb_false_elim in H as [Hc Hs]. rewrite (IH Hs).
  by rewrite Hc.
Qed.

Lemma before_last_slash_append seg s :
  Str.before_last_slash (seg ++ String "/" s)%string
  = Some (match Str.before_last_slash s with
          | Some h => (seg ++ String "/" h)%string
          | None => seg
          end).
Proof.
  induction seg as [|c seg IH].
  - rewrite append_nil_l. simpl. by destruct (Str.before_last_slash s).
  - rewrite append_cons. simpl. rewrite IH.
    by destruct (Str.before_last_slash s).
Qed.

(** [rsplit("/", 1)[0]] on the joined segments: all but the last segment
    when there are two or more, the whole string when there is one. *)
Lemma rsplit1_head_join l :
  Forall no_slash l ->
  Str.rsplit1_head (Str.join "/" l)
  = match l with
    | [] | [_] => Str.join "/" l
    | _ => Str.join "/" (removelast l)
    end.
Proof.
  unfold Str.rsplit1_head. induction l as [|x l IH]; [done|].
  intros Hall. inversion Hall as [|? ? Hx Hl]; subst.
  destruct l as [|y l].
  - simpl. by rewrite before_last_slash_no_slash.
  - change (Str.join "/" (x :: y :: l))
      with (x ++ String "/" (Str.join "/" (y :: l)))%string.
    rewrite before_last_slash_append. specialize (IH Hl).
    destruct l as [|z l].
    + simpl in *. by rewrite before_last_slash_no_slash by (by inversion Hl).
    + destruct (Str.before_last_slash (Str.join "/" (y :: z :: l))) as [h|] eqn:E.
      * rewrite IH. done.
      * exfalso. revert E.
        change (Str.join "/" (y :: z :: l))
          with (y ++ String "/" (Str.join "/" (z :: l)))%string.
        by rewrite before_last_slash_append.
Qed.

Lemma rsplit1_head_segments p :
  Str.rsplit1_head p
  = if decide (2 <= depth p) then Str.join "/" (removelast (Str.split "/" p)) else p.
Proof.
  rewrite <- (join_split p) at 1.
  rewrite rsplit1_head_join by apply split_slash_segments.
  unfold depth. destruct (Str.split "/" p) as [|x [|y l]] eqn:E; simpl.
  - by destruct (split_go_not_nil "/" p 0).
  - rewrite <- (join_split p), E. done.
  - done.
Qed.

(** ** find_parent_gate *)

Lemma index_Ok x l j :
  Str.index x l = Ok j <->
  l !! j = Some x /\ forall j', j' < j -> l !! j' <> Some x.
Proof.
  revert j. induction l as [|y l IH]; intros j; simpl.
  - split; [discriminate|]. intros [H _]. by rewrite lookup_nil in H.
  - destruct (String.eqb y x) eqn:E.
    + apply String.eqb_eq in E as ->. split.
      * intros [= <-]. split; [done|]. intros j' Hj'. lia.
      * intros [_ Hfirst]. destruct j as [|j]; [done|].
        exfalso. apply (Hfirst 0); [lia|done].
    + apply String.eqb_neq in E. rewrite bind_Ok. split.
      * intros (i & Hi & [= <-]). apply IH in Hi as [Hi Hfirst]. split; [done|].
        intros [|j'] Hj'; simpl; [congruence|]. apply Hfirst. lia.
      * intros [Hj Hfirst]. destruct j as [|j]; simpl in Hj; [congruence|].
        exists j. split; [|done]. apply IH. split; [done|].
        intros j' Hj'. apply (Hfirst (S j')). lia.
Qed.

Lemma index_Raise x l e :
  Str.index x l = Raise e <-> (x ∉ l) /\ e = ValueError_not_in_list x.
Proof.
  induction l as [|y l IH]; simpl.
  - split; [intros [= <-]; split; [apply not_elem_of_nil|done] | intros [_ ->]; done].
  - destruct (String.eqb y x) eqn:E.
    + apply String.eqb_eq in E as ->. split; [discriminate|].
      intros [H _]. destruct H. apply elem_of_cons. by left.
    + apply String.eqb_neq in E. rewrite bind_Raise, IH. split.
      * intros [[Hx ->] | (a & _ & [=])]. split; [|done].
        rewrite elem_of_cons. intros [->|H]; done.
      * intros [Hx ->]. left. split; [|done].
        intros H. apply Hx. apply elem_of_cons. by right.
Qed.

Lemma find_parent_loop_Ok sl g il pops : forall acc cl,
  find_parent_loop sl g il pops acc = Ok cl <->
  exists cs, cl = acc ++ cs /\ Forall2 (fun p c => parent_ref sl g il p = Ok c) pops cs.
Proof.
  induction pops as [|p pops IH]; intros acc cl; simpl.
  - split.
    + intros [= <-]. exists []. by rewrite app_nil_r.
    + intros (cs & -> & H). inversion H. by rewrite app_nil_r.
  - rewrite bind_Ok. split.
    + intros (c & Hc & Hloop). apply IH in Hloop as (cs & -> & Hall).
      exists (c :: cs). rewrite <- app_assoc. split; [done|]. by constructor.
    + intros (cs & -> & Hall). inversion Hall as [|? c ? cs' Hc Hall']; subst.
      exists c. split; [done|]. apply IH. exists cs'. by rewrite <- app_assoc.
Qed.

Lemma find_parent_loop_Raise sl g il pops : forall acc e,
  find_parent_loop sl g il pops acc = Raise e <->
  exists pre q post,
    pops = pre ++ q :: post /\
    Forall (fun p => exists c, parent_ref sl g il p = Ok c) pre /\
    parent_ref sl g il q = Raise e.
Proof.
  induction pops as [|p pops IH]; intros acc e; simpl.
  - split; [discriminate|]. intros (pre & q & post & H & _). by destruct pre.
  - rewrite bind_Raise. split.
    + intros [H | (c & Hc & Hloop)].
      * exists [], p, pops. by repeat split.
      * apply IH in Hloop as (pre & q & post & -> & Hpre & Hq).
        exists (p :: pre), q, post. repeat split; [|done]. constructor; eauto.
    + intros (pre & q & post & Heq & Hpre & Hq). destruct pre as [|p' pre]; simpl in Heq.
      * injection Heq as -> ->. by left.
      * injection Heq as -> ->. inversion Hpre as [|? ? [c Hc] Hpre']; subst.
        right. exists c. split; [done|]. apply IH. by exists pre, q, post.
Qed.

Lemma parent_ref_Raise sl g il p e :
  parent_ref sl g il p = Raise e <->
  Str.in_list p sl = false /\ Str.in_list p il = false /\
  (Str.rsplit1_head p ∉ g) /\ e = ValueError_not_in_list (Str.rsplit1_head p).
Proof.
  unfold parent_ref.
  destruct (Str.in_list p sl); [split; [discriminate | intros [? _]; discriminate]|].
  destruct (Str.in_list p il); [split; [discriminate | intros (_ & ? & _); discriminate]|].
  rewrite bind_Raise, index_Raise. split.
  - intros [[H ->] | (a & _ & [=])]. done.
  - intros (_ & _ & H & ->). by left.
Qed.

Lemma parent_ref_total sl g il p :
  (Str.in_list p sl = true \/ Str.in_list p il = true \/ Str.rsplit1_head p ∈ g) ->
  exists c, parent_ref sl g il p = Ok c.
Proof.
  intros H. destruct (parent_ref sl g il p) as [c|e] eqn:E; [by exists c|].
  apply parent_ref_Raise in E as (Hs & Hi & Hg & _).
  destruct H as [H | [H | H]]; [congruence | congruence | done].
Qed.

(** C6, as the code has it.  For an entry [p] of [g_list] that is neither
    a starting gate nor ignored, the parent path is [p.rsplit("/", 1)[0]]:
    all segments of [p] but the last when [p] has two or more segments
    ([p] itself when it has one).  When [find_parent_gate] returns, the
    entry of [p] is the first index of that path in [g_list].  When that
    path is not in [g_list], [find_parent_gate] raises the [ValueError] of
    [list.index], which carries the missing parent path of the first such
    entry, not the entry itself; every entry before [p] resolving, it
    carries the parent path of [p]. *)
Theorem find_parent_gate_parent
    (start_gate_list g_list i_list : list string) (pos : nat) (p : string) :
  g_list !! pos = Some p ->
  Str.in_list p start_gate_list = false ->
  Str.in_list p i_list = false ->
  Str.rsplit1_head p = parent_path p /\
  (forall calc_list,
     find_parent_gate start_gate_list g_list i_list = Ok calc_list ->
     exists j, calc_list !! pos = Some (parent j) /\
               g_list !! j = Some (parent_path p) /\
               forall j', j' < j -> g_list !! j' <> Some (parent_path p)) /\
  (parent_path p ∉ g_list ->
     exists q, q ∈ g_list /\ (Str.rsplit1_head q ∉ g_list) /\
       find_parent_gate start_gate_list g_list i_list
       = Raise (ValueError_not_in_list (Str.rsplit1_head q))) /\
  (parent_path p ∉ g_list ->
     (forall k q, k < pos -> g_list !! k = Some q ->
        Str.in_list q start_gate_list = true \/ Str.in_list q i_list = true \/
        Str.rsplit1_head q ∈ g_list) ->
     find_parent_gate start_gate_list g_list i_list
     = Raise (ValueError_not_in_list (parent_path p))).
Proof.
  intros Hp Hs Hi.
  assert (Hpath : Str.rsplit1_head p = parent_path p) by apply rsplit1_head_segments.
  split; [exact Hpath|]. rewrite <- Hpath. unfold find_parent_gate. split; [|split].
  - intros calc_list H. apply find_parent_loop_Ok in H as (cs & -> & Hall). simpl.
    destruct (Forall2_lookup_l _ _ _ _ _ Hall Hp) as (c & Hc & Href).
    unfold parent_ref in Href. rewrite Hs, Hi in Href.
    apply bind_Ok in Href as (j & Hj & [= <-]). apply index_Ok in Hj as [Hj Hfirst].
    by exists j.
  - intros Hnot.
    destruct (find_parent_loop start_gate_list g_list i_list g_list []) as [cl|e] eqn:E.
    + exfalso. apply find_parent_loop_Ok in E as (cs & -> & Hall).
      destruct (Forall2_lookup_l _ _ _ _ _ Hall Hp) as (c & Hc & Href).
      assert (Hr : raises (parent_ref start_gate_list g_list i_list p)).
      { eexists. by apply parent_ref_Raise. }
      destruct Hr as [e He]. congruence.
    + apply find_parent_loop_Raise in E as (pre & q & post & Heq & _ & Hq).
      apply parent_ref_Raise in Hq as (_ & _ & Hq & ->).
      exists q. split; [|done]. rewrite Heq. apply elem_of_app. right. by left.
  - intros Hnot Hbefore. apply find_parent_loop_Raise.
    exists (take pos g_list), p, (drop (S pos) g_list). split; [|split].
    + by rewrite <- (take_drop_middle _ _ _ Hp) at 1.
    + apply Forall_forall. intros q Hq.
      apply list_elem_of_lookup in Hq as [k Hk].
      apply lookup_take_Some in Hk as [Hk Hlt].
      apply parent_ref_total. by eapply Hbefore.
    + by apply parent_ref_Raise.
Qed.

Lemma find_parent_gate_parent_witness :
  find_parent_gate ["A"; "B"] ["A"; "B"; "A/C"] [] = Ok [start; start; parent 0] /\
  exists j, [start; start; parent 0] !! 2 = Some (parent j) /\
            ["A"; "B"; "A/C"] !! j = Some "A".
Proof.
  split; [reflexivity|].
  destruct (proj1 (proj2 (find_parent_gate_parent ["A"; "B"] ["A"; "B"; "A/C"] [] 2 "A/C"
                            eq_refl eq_refl eq_refl)) _ eq_refl)
    as (j & Hj & Hg & _).
  exists j. split; [exact Hj | exact Hg].
Defined.

(** C6 as stated fails: on the catalog [["X/Y"]] the exception carries the
    missing parent ["X"], not the gate ["X/Y"]; and the one-segment gate
    ["X"] is given itself as parent instead of failing. *)
Lemma find_parent_gate_names_parent :
  find_parent_gate [] ["X/Y"] [] = Raise (ValueError_not_in_list "X") /\
  "X" <> "X/Y" /\
  find_parent_gate [] ["X"] [] = Ok [parent 0].
Proof. repeat split. discriminate. Qed.

(** ** The scan of depths *)

Lemma occ_cons d x l :
  occ d (x :: l) = (if decide (x = d) then 1 else 0) + occ d l.
Proof. unfold occ. rewrite filter_cons. by destruct (decide (x = d)). Qed.

Lemma occ_nil d : occ d [] = 0.
Proof. reflexivity. Qed.

Lemma occ_app d l1 l2 : occ d (l1 ++ l2) = occ d l1 + occ d l2.
Proof. unfold occ. by rewrite filter_app, length_app. Qed.

Lemma occ_pos d l : 1 <= occ d l <-> d ∈ l.
Proof.
  induction l as [|x l IH].
  - unfold occ. simpl. split; [lia|]. by intros ?%elem_of_nil.
  - rewrite occ_cons, elem_of_cons. destruct (decide (x = d)) as [->|Hne].
    + split; [by left | lia].
    + simpl. rewrite IH. split; [by right|]. by intros [->|?].
Qed.

Lemma summarises_nil : summarises [] ∅ ∅.
Proof.
  split; intros d.
  - rewrite elem_of_empty, elem_of_nil. done.
  - rewrite elem_of_empty. unfold occ. simpl. lia.
Qed.

Lemma summarises_new seen C R x :
  summarises seen C R -> x ∉ C -> summarises (seen ++ [x]) ({[x]} ∪ C) R.
Proof.
  intros [HC HR] Hx. split; intros d.
  - rewrite elem_of_union, elem_of_singleton, elem_of_app, list_elem_of_singleton, HC.
    tauto.
  - rewrite HR, occ_app, occ_cons, occ_nil.
    destruct (decide (x = d)) as [->|]; [|lia].
    assert (occ d seen = 0); [|lia].
    destruct (occ d seen) eqn:E; [done|].
    exfalso. apply Hx, HC, occ_pos. lia.
Qed.

Lemma summarises_old seen C R x :
  summarises seen C R -> x ∈ C ->
  summarises (seen ++ [x]) ({[x]} ∪ C) ({[x]} ∪ R).
Proof.
  intros [HC HR] Hx. split; intros d.
  - rewrite elem_of_union, elem_of_singleton, elem_of_app, list_elem_of_singleton, HC.
    tauto.
  - rewrite elem_of_union, elem_of_singleton, HR, occ_app, occ_cons, occ_nil.
    destruct (decide (x = d)) as [->|]; [|split; [intros [->|?]; [done|lia] | right; lia]].
    apply HC, occ_pos in Hx. split; [lia | by left].
Qed.

(** The scan, started after the depths [seen]: either it reaches the end,
    no depth 1 was met twice and the sets summarise all depths; or it
    stopped at a second depth 1, and the sets summarise the depths before
    it. *)
Lemma scan_lengths_spec rest : forall seen C R,
  summarises seen C R -> occ 1 seen <= 1 ->
  match scan_lengths rest C R with
  | (true, C', R') =>
      occ 1 (seen ++ rest) <= 1 /\ summarises (seen ++ rest) C' R'
  | (false, C', R') =>
      exists pre post, rest = pre ++ 1 :: post /\ occ 1 (seen ++ pre) = 1 /\
                       summarises (seen ++ pre) C' R'
  end.
Proof.
  induction rest as [|x rest IH]; intros seen C R Hsum Hone; simpl.
  - rewrite app_nil_r. done.
  - destruct (bool_decide (x ∈ C)) eqn:EC.
    + apply bool_decide_eq_true in EC. destruct (x =? 1)%nat eqn:E1; simpl.
      * apply Nat.eqb_eq in E1 as ->. exists [], rest. rewrite app_nil_r.
        split; [done|]. split; [|done].
        apply (proj1 Hsum), occ_pos in EC. lia.
      * apply Nat.eqb_neq in E1.
        specialize (IH (seen ++ [x]) _ _ (summarises_old _ _ _ _ Hsum EC)).
        rewrite occ_app, occ_cons, occ_nil in IH.
        destruct (decide (x = 1)); [done|]. specialize (IH ltac:(lia)).
        destruct (scan_lengths rest _ _) as [[[] C'] R'].
        -- by rewrite <- app_assoc in IH.
        -- destruct IH as (pre & post & -> & Hocc & Hs).
           exists (x :: pre), post. by rewrite <- app_assoc in Hocc, Hs.
    + apply bool_decide_eq_false in EC. simpl.
      specialize (IH (seen ++ [x]) _ _ (summarises_new _ _ _ _ Hsum EC)).
      rewrite occ_app, occ_cons, occ_nil in IH.
      assert (Hle : occ 1 seen + ((if decide (x = 1) then 1 else 0) + 0) <= 1).
      { destruct (decide (x = 1)) as [->|]; [|lia].
        assert (occ 1 seen = 0); [|lia].
        destruct (occ 1 seen) eqn:E; [done|].
        exfalso. apply EC, (proj1 Hsum), occ_pos. lia. }
      specialize (IH Hle).
      destruct (scan_lengths rest _ _) as [[[] C'] R'].
      * by rewrite <- app_assoc in IH.
      * destruct IH as (pre & post & -> & Hocc & Hs).
        exists (x :: pre), post. by rewrite <- app_assoc in Hocc, Hs.
Qed.

(** After the break nothing is read: the depths that follow do not change
    the result. *)
Lemma scan_lengths_break lengths post : forall C R,
  (scan_lengths lengths C R).1.1 = false ->
  scan_lengths (lengths ++ post) C R = scan_lengths lengths C R.
Proof.
  induction lengths as [|x lengths IH]; intros C R H; simpl in *; [done|].
  destruct (bool_decide (x ∈ C) && (x =? 1)%nat); [done|].
  destruct (bool_decide (x ∈ C)); by apply IH.
Qed.

Lemma set_max_spec (s : gset nat) (d : nat) :
  d ∈ s -> (forall x, x ∈ s -> x <= d) -> set_max s = Ok d.
Proof.
  intros Hd Hmax. unfold set_max.
  destruct (elements s) as [|x l] eqn:E.
  - apply elem_of_elements in Hd. rewrite E in Hd. by apply elem_of_nil in Hd.
  - f_equal. rewrite <- E. apply Nat.le_antisymm.
    + apply Hmax, elem_of_elements, max_list_elem_of. by rewrite E.
    + by apply max_list_elem_of_le, elem_of_elements.
Qed.

Lemma set_max_empty (s : gset nat) :
  (forall x, x ∉ s) -> set_max s = Raise ValueError_max_empty.
Proof.
  intros H. unfold set_max. destruct (elements s) as [|x l] eqn:E; [done|].
  destruct (H x). apply elem_of_elements. rewrite E. by left.
Qed.

(** ** The gate shown to the user *)

Lemma find_min_gate_snoc gates gate number d :
  find_min_gate (gates ++ [(gate, number)]) d
  = if (number =? d)%nat then gate else find_min_gate gates d.
Proof. unfold find_min_gate. by rewrite fold_left_app. Qed.

(** [find_min_gate] keeps the last gate of the depth. *)
Lemma find_min_gate_last gates d :
  find_min_gate gates d
  = match last (filter (fun gn : string * nat => gn.2 = d) gates) with
    | Some gn => gn.1
    | None => ""
    end.
Proof.
  induction gates as [|[gate number] gates IH] using rev_ind; [done|].
  rewrite find_min_gate_snoc, filter_app, filter_cons, filter_nil. simpl.
  destruct (decide (number = d)) as [->|Hne].
  - rewrite Nat.eqb_refl, last_snoc. done.
  - apply Nat.eqb_neq in Hne as ->. by rewrite app_nil_r.
Qed.

Lemma occ_filter_gates (gates : dict) d :
  length (filter (fun gn : string * nat => gn.2 = d) gates) = occ d (map snd gates).
Proof.
  unfold occ. induction gates as [|[g m] gates IH]; [done|].
  simpl. rewrite !filter_cons. simpl. destruct (decide (m = d)); simpl; by rewrite IH.
Qed.

(** ** Asking for the starting gate *)

(** The loop of [ask_starting_gate] as the code writes it: a valid answer
    ends it, any other answer calls [yes_no] and asks again. *)
Lemma ask_level_unfold len answer rest :
  ask_level len (answer :: rest)
  = match int_of_string answer with
    | Some int_answer =>
        if (0 <? int_answer)%Z && (int_answer <=? Z.of_nat len)%Z
        then Ok (Z.to_nat int_answer, rest)
        else rest' ← yes_no rest; ask_level len rest'
    | None => rest' ← yes_no rest; ask_level len rest'
    end.
Proof.
  assert (H : match rest with
              | [] => Raise EOFError
              | a :: rest' => if quits a then Raise SystemExit else ask_level len rest'
              end = rest' ← yes_no rest; ask_level len rest').
  { destruct rest as [|a rest']; [done|]. simpl. by destruct (quits a). }
  simpl. rewrite H. done.
Qed.

Lemma ask_cell_conc_unfold answer rest :
  ask_cell_conc (answer :: rest)
  = match Dec.of_string answer with
    | Some d => Ok (d, rest)
    | None => rest' ← yes_no rest; ask_cell_conc rest'
    end.
Proof.
  simpl. destruct (Dec.of_string answer); [done|].
  destruct rest as [|a rest']; [done|]. simpl. by destruct (quits a).
Qed.

(** The level returned is one of the segments offered. *)
Lemma ask_level_range len : forall stdin k rest,
  ask_level len stdin = Ok (k, rest) -> 1 <= k <= len.
Proof.
  assert (H : forall fuel stdin, length stdin <= fuel ->
            forall k rest, ask_level len stdin = Ok (k, rest) -> 1 <= k <= len).
  { intros fuel. induction fuel as [|fuel IH]; intros stdin Hn k rest.
    - destruct stdin; [discriminate | simpl in Hn; lia].
    - destruct stdin as [|answer stdin]; [discriminate|].
      rewrite ask_level_unfold.
      assert (Hagain : (rest' ← yes_no stdin; ask_level len rest') = Ok (k, rest) ->
                       1 <= k <= len).
      { destruct stdin as [|a stdin]; [discriminate|]. simpl.
        destruct (quits a); [discriminate|]. simpl. apply IH. simpl in Hn. lia. }
      destruct (int_of_string answer) as [z|]; [|exact Hagain].
      destruct ((0 <? z)%Z && (z <=? Z.of_nat len)%Z) eqn:E; [|exact Hagain].
      intros [= <- <-]. apply andb_prop in E as [E1 E2].
      apply Z.ltb_lt in E1. apply Z.leb_le in E2. lia. }
  intros stdin. by apply (H (length stdin)).
Qed.

Lemma dict_get_Ok (d : dict) k v : dict_get d k = Ok v -> (k, v) ∈ d.
Proof.
  induction d as [|[k' v'] d IH]; simpl; [discriminate|].
  destruct (String.eqb k' k) eqn:E.
  - apply String.eqb_eq in E as ->. intros [= ->]. by left.
  - intros H. right. by apply IH.
Qed.

Lemma dict_get_Raise (d : dict) k e :
  dict_get d k = Raise e -> (k ∉ map fst d) /\ e = KeyError k.
Proof.
  induction d as [|[k' v'] d IH]; simpl.
  - intros [= <-]. split; [apply not_elem_of_nil|done].
  - destruct (String.eqb k' k) eqn:E; [discriminate|].
    apply String.eqb_neq in E. intros [H ->]%IH. split; [|done].
    rewrite elem_of_cons. intros [->|?]; done.
Qed.

(** ** The classification of the starting gates *)

Section SingleRoot.

Variable gates : dict.
Variable d : nat.

Let lengths := map snd gates.

(** No depth 1 is met twice, and [d] is the largest depth met once. *)
Hypothesis one_root : occ 1 lengths <= 1.
Hypothesis d_once : occ d lengths = 1.
Hypothesis d_max : forall d', occ d' lengths = 1 -> d' <= d.

Lemma single_root_scan :
  exists C R,
    scan_lengths lengths ∅ ∅ = (true, C, R) /\
    (forall x, x ∈ C ∖ R <-> occ x lengths = 1) /\
    set_max (C ∖ R) = Ok d.
Proof.
  pose proof (scan_lengths_spec lengths [] ∅ ∅ summarises_nil) as H.
  rewrite occ_nil in H. specialize (H ltac:(lia)). simpl in H.
  destruct (scan_lengths lengths ∅ ∅) as [[[] C] R].
  - destruct H as [_ [HC HR]]. exists C, R. split; [done|].
    assert (Hdiff : forall x, x ∈ C ∖ R <-> occ x lengths = 1).
    { intros x. rewrite elem_of_difference, HC, HR, <- occ_pos. lia. }
    split; [done|]. apply set_max_spec.
    + by apply Hdiff.
    + intros x Hx. by apply d_max, Hdiff.
  - destruct H as (pre & post & Heq & Hocc & _).
    rewrite Heq, occ_app, occ_cons in one_root. simpl in *. lia.
Qed.

Lemma single_root_only anchor :
  (anchor, d) ∈ gates ->
  filter (fun gn : string * nat => gn.2 = d) gates = [(anchor, d)].
Proof.
  intros Hin. pose proof (occ_filter_gates gates d) as Hlen.
  fold lengths in Hlen. rewrite d_once in Hlen.
  assert (Hf : (anchor, d) ∈ filter (fun gn : string * nat => gn.2 = d) gates).
  { by apply list_elem_of_filter. }
  destruct (filter _ gates) as [|x [|y l]]; simpl in Hlen; try lia.
  by apply list_elem_of_singleton in Hf as ->.
Qed.

Lemma single_root_candidate anchor :
  (anchor, d) ∈ gates ->
  exists C R,
    scan_lengths lengths ∅ ∅ = (true, C, R) /\
    candidate_gate C R gates = Ok anchor.
Proof.
  intros Hin. destruct single_root_scan as (C & R & Hscan & _ & Hmax).
  exists C, R. split; [done|]. unfold candidate_gate. rewrite Hmax. simpl.
  by rewrite find_min_gate_last, (single_root_only anchor Hin).
Qed.

End SingleRoot.

(** C2. When the depth 1 occurs twice or more among the gates,
    [check_starting_gate] asks nothing and returns every gate of depth 1
    as starting gates, with an empty ignore list; the scan stops at the
    second depth 1, whatever follows it.  For the gates A, B, A/C the
    starting gates are A and B, and A/C gets the index of A as parent. *)
Theorem multi_root_classification :
  (forall (gates : dict) (stdin : list string),
     2 <= occ 1 (map snd gates) ->
     check_starting_gate gates stdin
     = Ok (map fst (filter (fun gn : string * nat => gn.2 = 1) gates), [], stdin) /\
     exists pre post,
       map snd gates = pre ++ 1 :: post /\ occ 1 pre = 1 /\
       forall post',
         scan_lengths (pre ++ 1 :: post') ∅ ∅ = scan_lengths (pre ++ [1]) ∅ ∅ /\
         (scan_lengths (pre ++ 1 :: post') ∅ ∅).1.1 = false) /\
  (forall stdin,
     exists r, main [header_of ["A"; "B"; "A/C"]] stdin = Ok r /\
               start_gate_list r = ["A"; "B"] /\ ignore_list r = [] /\
               calc_list r = [start; start; parent 0] /\
               gate_list r !! 0 = Some "A").
Proof.
  split.
  - intros gates stdin Htwo.
    pose proof (scan_lengths_spec (map snd gates) [] ∅ ∅ summarises_nil) as H.
    rewrite occ_nil in H. specialize (H ltac:(lia)). simpl in H.
    unfold check_starting_gate.
    destruct (scan_lengths (map snd gates) ∅ ∅) as [[[] C] R] eqn:Escan.
    + destruct H as [H _]. lia.
    + split; [done|]. destruct H as (pre & post & Heq & Hocc & _).
      exists pre, post. split; [done|]. split; [done|].
      assert (Hstop : (scan_lengths (pre ++ [1]) ∅ ∅).1.1 = false).
      { pose proof (scan_lengths_spec (pre ++ [1]) [] ∅ ∅ summarises_nil) as H.
        rewrite occ_nil in H. specialize (H ltac:(lia)). simpl in H.
        destruct (scan_lengths (pre ++ [1]) ∅ ∅) as [[[] C'] R']; [|done].
        destruct H as [H _]. rewrite occ_app, occ_cons, occ_nil in H. simpl in H. lia. }
      intros post'.
      replace (pre ++ 1 :: post') with ((pre ++ [1]) ++ post') by by rewrite <- app_assoc.
      rewrite scan_lengths_break by done. done.
  - intros stdin. eexists. split; [reflexivity|]. repeat split.
Qed.

Lemma multi_root_classification_witness :
  check_starting_gate [("A", 1); ("B", 1); ("A/C", 2)] []
  = Ok (["A"; "B"], [], []).
Proof.
  exact (proj1 (proj1 multi_root_classification [("A", 1); ("B", 1); ("A/C", 2)] []
                  (le_n 2))).
Defined.





(** C3, as the code has it.  Let no depth 1 be met twice, let [d] be the
    largest depth met exactly once and [anchor] the gate of that depth, in
    a dict that records for every gate its number of segments.  When the
    user chooses the level [k] and the path made of the first [k]
    segments of [anchor] is itself a gate of the dict, then [k] is one of
    the levels of [anchor], that path is the one starting gate, and the
    ignore list holds every gate of depth below [k], in the order of the
    dict.  For Singlets, Singlets/Live, Singlets/Live/CD3+ and the
    level 2: the start is Singlets/Live, Singlets is ignored and
    Singlets/Live/CD3+ gets the index of Singlets/Live as parent. *)
Theorem single_root_start :
  (forall (gates : dict) (d k : nat) (anchor : string) (stdin rest : list string),
     Forall (fun gn : string * nat => gn.2 = depth gn.1) gates ->
     occ 1 (map snd gates) <= 1 ->
     occ d (map snd gates) = 1 ->
     (forall d', occ d' (map snd gates) = 1 -> d' <= d) ->
     (anchor, d) ∈ gates ->
     ask_level d stdin = Ok (k, rest) ->
     Str.join "/" (take k (Str.split "/" anchor)) ∈ map fst gates ->
     1 <= k <= d /\
     check_starting_gate gates stdin
     = Ok ([Str.join "/" (take k (Str.split "/" anchor))],
           map fst (filter (fun gn : string * nat => gn.2 < k) gates),
           rest)) /\
  (exists r,
     main [header_of ["Singlets"; "Singlets/Live"; "Singlets/Live/CD3+"]] ["2"] = Ok r /\
     start_gate_list r = ["Singlets/Live"] /\ ignore_list r = ["Singlets"] /\
     calc_list r = [ignore; start; parent 1] /\
     gate_list r !! 1 = Some "Singlets/Live").
Proof.
  split.
  - intros gates d k anchor stdin rest Hdepth Hone Honce Hmax Hin Hask Hstart.
    assert (Hd : d = depth anchor).
    { rewrite Forall_forall in Hdepth. by apply (Hdepth _ Hin). }
    pose proof (ask_level_range _ _ _ _ Hask) as Hk. split; [done|].
    destruct (single_root_candidate gates d Hone Honce Hmax anchor Hin)
      as (C & R & Hscan & Hcand).
    unfold check_starting_gate. rewrite Hscan, Hcand. simpl.
    unfold ask_starting_gate. fold (depth anchor). rewrite <- Hd, Hask. simpl.
    destruct (dict_get gates (Str.join "/" (take k (Str.split "/" anchor))))
      as [m|e] eqn:Eget.
    + apply dict_get_Ok in Eget. rewrite Forall_forall in Hdepth.
      apply Hdepth in Eget. simpl in Eget.
      rewrite depth_prefix in Eget by lia. by subst m.
    + apply dict_get_Raise in Eget as [Hnot _]. done.
  - eexists. split; [reflexivity|]. repeat split.
Qed.

Lemma single_root_start_witness :
  check_starting_gate singlets_dict ["x"; "yes"; "2"]
  = Ok (["Singlets/Live"], ["Singlets"], []).
Proof.
  refine (proj2 (proj1 single_root_start singlets_dict 3 2 "Singlets/Live/CD3+"
                   ["x"; "yes"; "2"] [] _ _ _ _ _ _ _)).
  - repeat constructor.
  - vm_compute. lia.
  - reflexivity.
  - intros d' H. destruct d' as [|[|[|[|d']]]]; try lia; vm_compute in H; discriminate.
  - do 2 right. left.
  - reflexivity.
  - right. left.
Defined.

(** C3 as stated fails on catalogs that miss an ancestor: the depth of
    the chosen start path is looked up in the dict, and [max] needs a
    depth that is met once. *)
Lemma single_root_start_missing :
  check_starting_gate [("A/B", 2)] ["1"] = Raise (KeyError "A") /\
  main [header_of ["A/B"]] ["1"] = Raise (KeyError "A") /\
  main [header_of ["A/B"; "A/C"]] ["1"] = Raise ValueError_max_empty.
Proof. repeat split. Qed.

(** ** process_csv *)

Lemma dict_get_set (gd : dict) k v k' :
  dict_get (dict_set gd k v) k' = if String.eqb k k' then Ok v else dict_get gd k'.
Proof.
  induction gd as [|[k0 v0] gd IH]; simpl.
  - done.
  - destruct (String.eqb k0 k) eqn:E0; simpl.
    + apply String.eqb_eq in E0 as ->. by destruct (String.eqb k k').
    + destruct (String.eqb k0 k') eqn:E1; [|done].
      apply String.eqb_eq in E1 as ->. apply String.eqb_neq in E0.
      destruct (String.eqb k k') eqn:E2; [|done].
      apply String.eqb_eq in E2. congruence.
Qed.

Lemma dict_set_elem (gd : dict) k v gn :
  gn ∈ dict_set gd k v -> gn = (k, v) \/ gn ∈ gd.
Proof.
  induction gd as [|[k0 v0] gd IH]; simpl.
  - intros ->%list_elem_of_singleton. by left.
  - destruct (String.eqb k0 k); rewrite !elem_of_cons; intros [->|H]; auto.
    destruct (IH H); auto.
Qed.

Lemma header_inv_step gate_order gates_dict gate :
  header_inv gate_order gates_dict ->
  header_inv (gate_order ++ [gate]) (dict_set gates_dict gate (depth gate)).
Proof.
  intros [Hget Hall]. split.
  - intros g Hg. rewrite dict_get_set. destruct (String.eqb gate g) eqn:E.
    + by apply String.eqb_eq in E as ->.
    + apply String.eqb_neq in E. apply elem_of_app in Hg as [Hg|Hg]; [by apply Hget|].
      by apply list_elem_of_singleton in Hg.
  - rewrite Forall_forall in *. intros gn [->|Hgn]%dict_set_elem; simpl.
    + split; [done|]. apply elem_of_app. right. by left.
    + destruct (Hall gn Hgn) as [H1 H2]. split; [done|]. apply elem_of_app. by left.
Qed.

Lemma read_header_Ok cells : forall gate_order gates_dict gate_order' gates_dict',
  read_header cells gate_order gates_dict = Ok (gate_order', gates_dict') ->
  header_inv gate_order gates_dict ->
  header_inv gate_order' gates_dict' /\
  exists gates,
    gate_order' = gate_order ++ gates /\
    Forall2 (fun cell gate => exists test, Str.split " | " cell = [gate; test]) cells gates.
Proof.
  induction cells as [|cell cells IH]; intros go gd go' gd' H Hinv; simpl in H.
  - injection H as <- <-. split; [done|]. exists []. by rewrite app_nil_r.
  - destruct (Str.contains " | " cell); simpl in H; [|discriminate].
    destruct (Str.split " | " cell) as [|gate [|test [|? ?]]] eqn:E; try discriminate.
    apply IH in H as [Hinv' (gates & -> & Hall)]; [|by apply header_inv_step].
    split; [done|]. exists (gate :: gates). rewrite <- app_assoc. split; [done|].
    constructor; [by exists test | done].
Qed.






(** C7 on the code: [strip(".fcs")] removes the characters ".", "f", "c"
    and "s" from both ends of the first cell, not the suffix ".fcs": the
    tube of the row "sample1.fcs" is named "ample1", and "cells.fcs"
    gives "ell".  The rows named "Mean" and "SD" are skipped. *)
Theorem tube_name_strips_characters :
  tube_name "sample1.fcs" = "ample1" /\
  tube_name "cells.fcs" = "ell" /\
  (exists x,
     read_rows [["sample1.fcs"; "50"; ""]] [] ["10"] = Ok ([x], []) /\
     TubeData.n x = "ample1") /\
  (forall first cells rest tubes stdin,
     first = "Mean" \/ first = "SD" ->
     read_rows ((first :: cells) :: rest) tubes stdin = read_rows rest tubes stdin).
Proof.
  split; [reflexivity|]. split; [reflexivity|]. split.
  - eexists. split; [vm_compute; reflexivity | reflexivity].
  - intros first cells rest tubes stdin [-> | ->]; reflexivity.
Qed.

(** ** Decimal arithmetic within the precision *)

(** [lia] reads quotients and remainders through their equations. *)
Ltac Zify.zify_post_hook ::= Z.to_euclidean_division_equations.

Lemma ndigits_go_spec (fuel : nat) : forall c : N,
  (c < 2 ^ N.of_nat fuel)%N ->
  (1 <= Dec.ndigits_go fuel c)%Z /\
  (Z.of_N c < 10 ^ Dec.ndigits_go fuel c)%Z /\
  (c <> 0%N -> 10 ^ (Dec.ndigits_go fuel c - 1) <= Z.of_N c)%Z.
Proof.
  induction fuel as [|fuel IH]; intros c Hc.
  - simpl in *. assert (c = 0%N) as -> by lia. simpl. repeat split; lia.
  - cbn [Dec.ndigits_go]. destruct (c <? 10)%N eqn:E.
    + apply N.ltb_lt in E. repeat split; lia.
    + apply N.ltb_ge in E.
      assert (Hdiv : (c / 10 < 2 ^ N.of_nat fuel)%N).
      { rewrite Nat2N.inj_succ, N.pow_succ_r' in Hc.
        apply N.Div0.div_lt_upper_bound. lia. }
      destruct (IH _ Hdiv) as (H1 & H2 & H3).
      set (r := Dec.ndigits_go fuel (c / 10)) in *.
      assert (Hq : (c / 10 <> 0)%N).
      { intros H0. apply N.div_small_iff in H0; lia. }
      specialize (H3 Hq).
      pose proof (N.div_mod c 10 ltac:(lia)) as Hdm.
      pose proof (N.mod_lt c 10 ltac:(lia)) as Hmod.
      clear IH Hc Hdiv. split; [lia|]. split.
      * rewrite Z.pow_add_r by lia. change (10 ^ 1)%Z with 10%Z. lia.
      * intros _. replace (1 + r - 1)%Z with (1 + (r - 1))%Z by lia.
        rewrite Z.pow_add_r by lia. change (10 ^ 1)%Z with 10%Z.
        clear H2. revert H3. generalize (10 ^ (r - 1))%Z. intros P H3. lia.
Qed.

(** The coefficient lies between the powers of ten of its length. *)
Lemma ndigits_spec (c : N) :
  (1 <= Dec.ndigits c)%Z /\
  (Z.of_N c < 10 ^ Dec.ndigits c)%Z /\
  (c <> 0%N -> 10 ^ (Dec.ndigits c - 1) <= Z.of_N c)%Z.
Proof.
  apply ndigits_go_spec. rewrite N2Nat.id. apply N.size_gt.
Qed.

Lemma ndigits_le (c : N) (k : Z) :
  (1 <= k)%Z -> (Z.of_N c < 10 ^ k)%Z -> (Dec.ndigits c <= k)%Z.
Proof.
  intros Hk Hc. destruct (ndigits_spec c) as (H1 & H2 & H3).
  destruct (N.eq_dec c 0%N) as [->|Hne].
  - change (Dec.ndigits 0%N) with 1%Z. lia.
  - specialize (H3 Hne). destruct (Z_le_gt_dec (Dec.ndigits c) k) as [|Hgt]; [done|].
    assert (10 ^ k <= 10 ^ (Dec.ndigits c - 1))%Z by (apply Z.pow_le_mono_r; lia).
    lia.
Qed.

(** A result that fits the precision and the exponent range is kept as
    it is by [_fix]. *)
Lemma fix_exact (s : bool) (c : N) (e : Z) :
  (c < 10 ^ 28)%N -> (Dec.Etiny <= e <= Dec.Etop)%Z ->
  Dec.fix_ (Dec.Finite s c e) = Ok (Dec.Finite s c e).
Proof.
  intros Hc He. unfold Dec.fix_.
  destruct (c =? 0)%N eqn:E0.
  - apply N.eqb_eq in E0 as ->. do 2 f_equal.
    unfold Dec.Etiny, Dec.Etop, Dec.Emin, Dec.Emax, Dec.prec in *. lia.
  - assert (HL : (Dec.ndigits c <= 28)%Z).
    { apply ndigits_le; [done|].
      apply N2Z.inj_lt in Hc. rewrite N2Z.inj_pow in Hc. exact Hc. }
    pose proof (proj1 (ndigits_spec c)) as H1. clear Hc.
    unfold Dec.Etiny, Dec.Etop, Dec.Emin, Dec.Emax, Dec.prec in *.
    destruct (Z.gtb_spec (Dec.ndigits c + e - 28) (999999 - 28 + 1)) as [E1|E1]; [lia|].
    destruct (Z.ltb_spec (Dec.ndigits c + e - 28) (-999999 - 28 + 1)) as [E2|E2].
    + destruct (Z.ltb_spec e (-999999 - 28 + 1)) as [E3|E3]; [lia|done].
    + destruct (Z.ltb_spec e (Dec.ndigits c + e - 28)) as [E3|E3]; [lia|done].
Qed.

(** A product whose coefficient fits 28 digits is the exact product. *)
Lemma mul_exact (s1 s2 : bool) (c1 c2 : N) (e1 e2 : Z) :
  (c1 * c2 < 10 ^ 28)%N -> (Dec.Etiny <= e1 + e2 <= Dec.Etop)%Z ->
  Dec.mul (Dec.Finite s1 c1 e1) (Dec.Finite s2 c2 e2)
  = Ok (Dec.Finite (xorb s1 s2) (c1 * c2) (e1 + e2)).
Proof. intros Hc He. unfold Dec.mul. simpl. by apply fix_exact. Qed.

(** The zeros dropped from an exact quotient do not change its value. *)
Lemma strip_zeros_value (steps : nat) : forall coeff exp c' e',
  Dec.strip_zeros steps coeff exp = (c', e') ->
  (exp <= e' <= exp + Z.of_nat steps)%Z /\
  (c' * 10 ^ Z.to_N (e' - exp) = coeff)%N.
Proof.
  induction steps as [|steps IH]; intros coeff exp c' e' H; simpl in H.
  - injection H as <- <-. rewrite Z.sub_diag. simpl. split; [lia|]. apply N.mul_1_r.
  - destruct (coeff mod 10 =? 0)%N eqn:E.
    + apply N.eqb_eq in E. apply IH in H as [Hr Hv]. split; [lia|].
      replace (Z.to_N (e' - exp)) with (N.succ (Z.to_N (e' - (exp + 1)))) by lia.
      rewrite N.pow_succ_r', (N.mul_comm 10), N.mul_assoc, Hv.
      pose proof (N.div_mod coeff 10 ltac:(done)) as Hdm. rewrite E in Hdm.
      rewrite N.add_0_r, N.mul_comm in Hdm. by rewrite <- Hdm.
    + injection H as <- <-. rewrite Z.sub_diag. simpl. split; [lia|]. apply N.mul_1_r.
Qed.

(** At least the zeros of a factor [10 ^ m] are dropped. *)
Lemma strip_zeros_least (steps : nat) : forall m coeff exp q,
  m <= steps -> coeff = (q * 10 ^ N.of_nat m)%N ->
  (exp + Z.of_nat m <= (Dec.strip_zeros steps coeff exp).2)%Z.
Proof.
  induction steps as [|steps IH]; intros m coeff exp q Hm Hq.
  - assert (m = 0) as -> by lia. simpl. lia.
  - destruct m as [|m].
    + destruct (Dec.strip_zeros (S steps) coeff exp) as [c' e'] eqn:E.
      apply strip_zeros_value in E as [Hr _]. simpl. lia.
    + simpl Dec.strip_zeros.
      assert (Hten : coeff = ((q * 10 ^ N.of_nat m) * 10)%N).
      { rewrite Hq, Nat2N.inj_succ, N.pow_succ_r', (N.mul_comm 10), N.mul_assoc. done. }
      assert (Hmod : (coeff mod 10 = 0)%N).
      { rewrite Hten. apply N.Div0.mod_mul. }
      assert (Hdiv : (coeff / 10 = q * 10 ^ N.of_nat m)%N).
      { rewrite Hten. by apply N.div_mul. }
      rewrite Hmod. simpl.
      specialize (IH m (coeff / 10)%N (exp + 1)%Z q ltac:(lia) Hdiv). lia.
Qed.

(** [d / 100] on a non-zero coefficient of at most 28 digits: the quotient
    is exact, and only trailing zeros are dropped from it. *)
Lemma truediv_100_unfold (s : bool) (c : N) (e : Z) :
  c <> 0%N -> (Dec.ndigits c <= 28)%Z ->
  Dec.truediv (Dec.Finite s c e) (Dec.of_int 100)
  = let shift := (32 - Dec.ndigits c)%Z in
    let '(c', e') :=
      Dec.strip_zeros (Z.to_nat shift) (c * 10 ^ Z.to_N (shift - 2))%N (e - shift)%Z in
    Dec.fix_ (Dec.Finite s c' e').
Proof.
  intros Hne HL. pose proof (proj1 (ndigits_spec c)) as H1.
  change (Dec.of_int 100) with (Dec.Finite false 100 0).
  unfold Dec.truediv, Dec.check_nans, Dec.sign_of.
  change (100 =? 0)%N with false.
  apply N.eqb_neq in Hne. rewrite Hne.
  change (Dec.ndigits 100) with 3%Z. unfold Dec.prec.
  replace (3 - Dec.ndigits c + 28 + 1)%Z with (32 - Dec.ndigits c)%Z by lia.
  set (shift := (32 - Dec.ndigits c)%Z).
  assert (Hshift : (4 <= shift)%Z) by (unfold shift; lia).
  assert (Hpos : (0 <=? shift)%Z = true) by (apply Z.leb_le; lia).
  rewrite Hpos. cbv beta iota.
  assert (Hnum : (c * 10 ^ Z.to_N shift = (c * 10 ^ Z.to_N (shift - 2)) * 100)%N).
  { replace (Z.to_N shift) with (Z.to_N (shift - 2) + 2)%N by lia.
    rewrite N.pow_add_r. change (10 ^ 2)%N with 100%N. apply N.mul_assoc. }
  rewrite Hnum, N.Div0.mod_mul, N.div_mul by done.
  change (negb (0 =? 0)%N) with false. cbv beta iota.
  rewrite xorb_false_r, Z.sub_0_r.
  replace (e - (e - shift))%Z with shift by lia.
  reflexivity.
Qed.

Lemma truediv_100_exact (s : bool) (c : N) (e : Z) :
  (c < 10 ^ 28)%N -> (Dec.Etiny + 2 <= e <= Dec.Etop)%Z ->
  exists c' e',
    Dec.truediv (Dec.Finite s c e) (Dec.of_int 100) = Ok (Dec.Finite s c' e') /\
    (e - 2 <= e' <= e)%Z /\
    (c' * 10 ^ Z.to_N (e' - (e - 2)) = c)%N.
Proof.
  intros Hc He. destruct (N.eq_dec c 0%N) as [->|Hne].
  - exists 0%N, e. split; [|split; [lia|apply N.mul_0_l]].
    change (Dec.truediv (Dec.Finite s 0 e) (Dec.of_int 100))
      with (Dec.fix_ (Dec.Finite (xorb s false) 0 (e - 0))).
    rewrite xorb_false_r, Z.sub_0_r. apply fix_exact; [done|lia].
  - assert (HL : (Dec.ndigits c <= 28)%Z).
    { apply ndigits_le; [done|].
      apply N2Z.inj_lt in Hc. rewrite N2Z.inj_pow in Hc. exact Hc. }
    pose proof (proj1 (ndigits_spec c)) as H1.
    rewrite truediv_100_unfold by done. cbv zeta.
    set (shift := (32 - Dec.ndigits c)%Z).
    assert (Hshift : (4 <= shift <= 31)%Z) by (unfold shift; lia).
    pose proof (strip_zeros_least (Z.to_nat shift) (Z.to_nat (shift - 2))
                  (c * 10 ^ Z.to_N (shift - 2))%N (e - shift)%Z c ltac:(lia)) as Hleast.
    rewrite <- Z_N_nat, N2Nat.id in Hleast. specialize (Hleast eq_refl).
    destruct (Dec.strip_zeros _ _ _) as [c' e'] eqn:E. simpl in Hleast.
    apply strip_zeros_value in E as [Hr Hv].
    assert (Hv' : (c' * 10 ^ Z.to_N (e' - (e - 2)) = c)%N).
    { replace (Z.to_N (e' - (e - shift)))
        with (Z.to_N (e' - (e - 2)) + Z.to_N (shift - 2))%N in Hv by lia.
      rewrite N.pow_add_r, N.mul_assoc in Hv.
      apply N.mul_cancel_r in Hv; [done|]. by apply N.pow_nonzero. }
    exists c', e'. split; [|split; [lia|done]].
    apply fix_exact; [|lia].
    apply N.le_lt_trans with c; [|done].
    assert (Hpow : (10 ^ Z.to_N (e' - (e - 2)) <> 0)%N) by (by apply N.pow_nonzero).
    revert Hv' Hpow. generalize (10 ^ Z.to_N (e' - (e - 2)))%N. clear.
    intros p <- Hp. rewrite <- (N.mul_1_r c') at 1. apply N.mul_le_mono_l. lia.
Qed.





(** * Further properties of the program *)

(** ** The exceptions of the arithmetic *)

Lemma fix_Raise (d : Decimal) (e : exn) : Dec.fix_ d = Raise e -> e = Overflow.
Proof.
  unfold Dec.fix_. intros H. repeat case_match; congruence.
Qed.

Lemma mul_Raise (a b : Decimal) (e : exn) :
  Dec.mul a b = Raise e -> decimal_error e.
Proof.
  unfold Dec.mul, Dec.check_nans, decimal_error. intros H.
  repeat case_match; simplify_eq; auto; right; by eapply fix_Raise.
Qed.

(** ** The count cascade never fails on a well-wired list *)

Lemma calculate_loop_safe (calc_list : list calc) (self0 : TubeData.t) :
  wired calc_list ->
  length calc_list <= length (percent_list self0) ->
  forall rest pos done_ self,
    calc_list = done_ ++ rest -> length done_ = pos ->
    percent_list self = percent_list self0 ->
    length (count_list self) = pos ->
    (forall j, j < pos -> calc_list !! j <> Some ignore ->
               exists d, count_list self !! j = Some (Num d)) ->
    (exists self',
       calculate_loop self pos rest = Ok self' /\
       length (count_list self') = length calc_list /\
       forall j, j < length calc_list -> calc_list !! j <> Some ignore ->
                 exists d, count_list self' !! j = Some (Num d)) \/
    (exists e, calculate_loop self pos rest = Raise e /\ decimal_error e).
Proof.
  intros Hwired Hlen. induction rest as [|i rest IH];
    intros pos done_ self Hsplit Hpos Hperc Hcount Hnum; simpl.
  - left. exists self. rewrite app_nil_r in Hsplit. subst. eauto.
  - assert (Hi : calc_list !! pos = Some i).
    { subst. rewrite lookup_app_r by lia. by rewrite Nat.sub_diag. }
    assert (Hlt : pos < length calc_list).
    { by eapply lookup_lt_Some. }
    destruct (lookup_lt_is_Some_2 (percent_list self) pos ltac:(rewrite Hperc; lia))
      as [p Hp].
    assert (Hstep :
      (exists c, cell_count_step self pos i
                 = Ok (set_count_list self (count_list self ++ [c])) /\
                 (i <> ignore -> exists d, c = Num d)) \/
      (exists e, cell_count_step self pos i = Raise e /\ decimal_error e)).
    { unfold cell_count_step. destruct i as [| |j]; simpl.
      - apply getitem_Ok in Hp. rewrite Hp. simpl.
        destruct (Dec.mul (cell_conc self) p) as [d|e] eqn:E; simpl.
        + left. eauto.
        + right. exists e. split; [done|]. by eapply mul_Raise.
      - left. exists Blank. done.
      - destruct (Hwired pos j Hi) as [Hj Hnot].
        destruct (Hnum j Hj Hnot) as [cj Hcj].
        apply getitem_Ok in Hcj, Hp. rewrite Hcj. simpl. rewrite Hp. simpl.
        destruct (Dec.mul cj p) as [d|e] eqn:E; simpl.
        + left. eauto.
        + right. exists e. split; [done|]. by eapply mul_Raise. }
    destruct Hstep as [(c & -> & Hc) | (e & -> & He)]; simpl; [|right; eauto].
    apply (IH (S pos) (done_ ++ [i])); simpl.
    + by rewrite <- app_assoc.
    + rewrite length_app. simpl. lia.
    + done.
    + rewrite length_app. simpl. lia.
    + intros j Hj Hnot. destruct (decide (j = pos)) as [->|Hne].
      * destruct Hc as [d ->]; [congruence|]. exists d.
        rewrite lookup_app_r by lia. by rewrite Hcount, Nat.sub_diag.
      * destruct (Hnum j ltac:(lia) Hnot) as [d Hd]. exists d.
        rewrite lookup_app_l by lia. done.
Qed.

(** X1. On a tube without counts that has a percent for every entry of a
    well-wired [calc_list], [calculate_cell_counts] never raises an
    [IndexError] or a [TypeError]: it returns, with a number at every
    position that is not ignored, or it raises an exception of the decimal
    arithmetic. *)
Theorem calculate_structurally_safe (self : TubeData.t) (calc_list : list calc) :
  count_list self = [] ->
  wired calc_list ->
  length calc_list <= length (percent_list self) ->
  (exists self',
     calculate_cell_counts self calc_list = Ok self' /\
     length (count_list self') = length calc_list /\
     forall j, j < length calc_list -> calc_list !! j <> Some ignore ->
               exists d, count_list self' !! j = Some (Num d)) \/
  (exists e, calculate_cell_counts self calc_list = Raise e /\ decimal_error e).
Proof.
  intros Hfresh Hwired Hlen.
  apply (calculate_loop_safe calc_list self Hwired Hlen calc_list 0 [] self);
    try done.
  - by rewrite Hfresh.
  - intros j Hj. lia.
Qed.

Lemma calculate_structurally_safe_witness :
  (exists self',
     calculate_cell_counts tube_ex [ignore; start; parent 1] = Ok self' /\
     length (count_list self') = 3 /\
     forall j, j < 3 -> [ignore; start; parent 1] !! j <> Some ignore ->
               exists d, count_list self' !! j = Some (Num d)) \/
  (exists e, calculate_cell_counts tube_ex [ignore; start; parent 1] = Raise e /\
             decimal_error e).
Proof.
  apply (calculate_structurally_safe tube_ex [ignore; start; parent 1] eq_refl).
  - intros [|[|[|i]]] j Hi; simpl in Hi; try discriminate.
    injection Hi as <-. split; [lia | discriminate].
  - simpl. lia.
Defined.

(** ** The shape of the list of [find_parent_gate] *)

Lemma parent_ref_cases sl g il p c :
  parent_ref sl g il p = Ok c ->
  (Str.in_list p sl = true /\ c = start) \/
  (Str.in_list p sl = false /\ Str.in_list p il = true /\ c = ignore) \/
  (Str.in_list p sl = false /\ Str.in_list p il = false /\
   exists j, c = parent j /\ g !! j = Some (Str.rsplit1_head p) /\
             forall j', j' < j -> g !! j' <> Some (Str.rsplit1_head p)).
Proof.
  unfold parent_ref. destruct (Str.in_list p sl); [intros [= <-]; by left|].
  destruct (Str.in_list p il); [intros [= <-]; right; by left|].
  intros H. apply bind_Ok in H as (j & Hj & [= <-]). apply index_Ok in Hj as [Hj Hfirst].
  do 2 right. repeat split; try done. by exists j.
Qed.

Lemma find_parent_gate_entries (start_gate_list g_list i_list : list string)
    (calc_list : list calc) :
  find_parent_gate start_gate_list g_list i_list = Ok calc_list ->
  length calc_list = length g_list /\
  forall i p, g_list !! i = Some p ->
    (Str.in_list p start_gate_list = true -> calc_list !! i = Some start) /\
    (Str.in_list p start_gate_list = false -> Str.in_list p i_list = true ->
     calc_list !! i = Some ignore) /\
    (forall j, calc_list !! i = Some (parent j) ->
       j < length g_list /\ g_list !! j = Some (Str.rsplit1_head p) /\
       Str.in_list p start_gate_list = false /\ Str.in_list p i_list = false /\
       forall j', j' < j -> g_list !! j' <> Some (Str.rsplit1_head p)).
Proof.
  unfold find_parent_gate. intros H.
  apply find_parent_loop_Ok in H as (cs & -> & Hall). simpl.
  split; [symmetry; by eapply Forall2_length|].
  intros i p Hp. destruct (Forall2_lookup_l _ _ _ _ _ Hall Hp) as (c & Hc & Href).
  rewrite Hc. apply parent_ref_cases in Href
    as [(Hs & ->) | [(Hs & Hi & ->) | (Hs & Hi & j & -> & Hj & Hfirst)]].
  - split; [done|]. split; [congruence|]. intros j' [=].
  - split; [congruence|]. split; [done|]. intros j' [=].
  - split; [congruence|]. split; [congruence|]. intros j' [= <-].
    split; [by eapply lookup_lt_Some | done].
Qed.

(** X2. The list [find_parent_gate] returns has one entry per gate, and
    the entry is fixed by the gate: a starting gate gets ["start"] even
    when it is also in the ignore list; an ignored gate that is no
    starting gate gets ["ignore"]; every other gate gets a parent index;
    and a parent index is the first position of the parent path, so it
    lies inside the list. *)
Theorem find_parent_gate_shape (start_gate_list g_list i_list : list string)
    (calc_list : list calc) :
  find_parent_gate start_gate_list g_list i_list = Ok calc_list ->
  length calc_list = length g_list /\
  forall i p, g_list !! i = Some p ->
    (Str.in_list p start_gate_list = true -> calc_list !! i = Some start) /\
    (Str.in_list p start_gate_list = false -> Str.in_list p i_list = true ->
     calc_list !! i = Some ignore) /\
    (Str.in_list p start_gate_list = false -> Str.in_list p i_list = false ->
     exists j, calc_list !! i = Some (parent j)) /\
    (forall j, calc_list !! i = Some (parent j) ->
       j < length g_list /\ g_list !! j = Some (Str.rsplit1_head p) /\
       Str.in_list p start_gate_list = false /\ Str.in_list p i_list = false /\
       forall j', j' < j -> g_list !! j' <> Some (Str.rsplit1_head p)).
Proof.
  intros H. pose proof (find_parent_gate_entries _ _ _ _ H) as [Hlen Hshape].
  split; [done|]. intros i p Hp. destruct (Hshape i p Hp) as (H1 & H2 & H3).
  split; [done|]. split; [done|]. split; [|done].
  intros Hs Hi. unfold find_parent_gate in H.
  apply find_parent_loop_Ok in H as (cs & -> & Hall). simpl.
  destruct (Forall2_lookup_l _ _ _ _ _ Hall Hp) as (c & Hc & Href).
  apply parent_ref_cases in Href
    as [(Hs' & _) | [(_ & Hi' & _) | (_ & _ & j & -> & _)]]; [congruence | congruence |].
  by exists j.
Qed.

Lemma find_parent_gate_shape_witness :
  length [ignore; start; parent 1] = 3 /\
  [ignore; start; parent 1] !! 1 = Some start /\
  [ignore; start; parent 1] !! 0 = Some ignore /\
  (exists j, [ignore; start; parent 1] !! 2 = Some (parent j)) /\
  ["Singlets"; "Singlets/Live"; "Singlets/Live/CD3+"] !! 1
  = Some (Str.rsplit1_head "Singlets/Live/CD3+").
Proof.
  pose proof (find_parent_gate_shape ["Singlets/Live"]
                ["Singlets"; "Singlets/Live"; "Singlets/Live/CD3+"] ["Singlets"]
                [ignore; start; parent 1] eq_refl) as [Hlen Hshape].
  split; [exact Hlen|]. split; [|split; [|split]].
  - exact (proj1 (Hshape 1 "Singlets/Live" eq_refl) eq_refl).
  - exact (proj1 (proj2 (Hshape 0 "Singlets" eq_refl)) eq_refl eq_refl).
  - exact (proj1 (proj2 (proj2 (Hshape 2 "Singlets/Live/CD3+" eq_refl))) eq_refl eq_refl).
  - exact (proj1 (proj2 (proj2 (proj2 (proj2 (Hshape 2 "Singlets/Live/CD3+" eq_refl)))
                                1 eq_refl))).
Defined.

(** X3. On a catalog in which every gate is a starting gate, or ignored,
    or has its parent path at an earlier position that is not only
    ignored, [find_parent_gate] returns, and the list it returns is
    well-wired: every parent index points to an earlier position whose
    entry is not ["ignore"]. *)
Theorem find_parent_gate_wired (start_gate_list g_list i_list : list string) :
  rooted start_gate_list g_list i_list ->
  exists calc_list,
    find_parent_gate start_gate_list g_list i_list = Ok calc_list /\
    length calc_list = length g_list /\
    wired calc_list.
Proof.
  intros Hrooted.
  destruct (find_parent_gate start_gate_list g_list i_list) as [cl|e] eqn:E.
  - exists cl. split; [done|].
    pose proof (find_parent_gate_entries _ _ _ _ E) as [Hlen Hshape].
    split; [done|]. intros i j Hi.
    assert (Hlt : i < length g_list) by (rewrite <- Hlen; by eapply lookup_lt_Some).
    destruct (lookup_lt_is_Some_2 _ _ Hlt) as [p Hp].
    destruct (Hshape i p Hp) as (_ & _ & Hpar).
    destruct (Hpar j Hi) as (Hj & Hgj & Hs & Hig & _).
    unfold find_parent_gate in E. apply find_parent_loop_Ok in E as (cs & -> & Hall).
    simpl in *. destruct (Forall2_lookup_l _ _ _ _ _ Hall Hp) as (c & Hc & Href).
    rewrite Hi in Hc. injection Hc as <-.
    apply parent_ref_cases in Href
      as [(? & ?) | [(? & ? & ?) | (_ & _ & j' & [= <-] & _ & Hfirst)]]; try congruence.
    destruct (Hrooted i p Hp) as [H | [H | [(j0 & Hj0 & Hg0) Hcls]]]; try congruence.
    split.
    + destruct (decide (j < i)) as [|Hge]; [done|].
      exfalso. apply (Hfirst j0); [lia|done].
    + destruct (Hshape j _ Hgj) as (Hst & Hign & _).
      destruct Hcls as [Hq | Hq].
      * rewrite (Hst Hq). discriminate.
      * intros Hc'.
        destruct (Forall2_lookup_l _ _ _ _ _ Hall Hgj) as (c & Hc & Href).
        rewrite Hc' in Hc. injection Hc as <-.
        apply parent_ref_cases in Href
          as [(? & ?) | [(? & ? & ?) | (_ & _ & ? & ? & _)]]; congruence.
  - exfalso. unfold find_parent_gate in E.
    apply find_parent_loop_Raise in E as (pre & q & post & Heq & _ & Hq).
    apply parent_ref_Raise in Hq as (Hs & Hi & Hnot & _).
    assert (Hq : g_list !! length pre = Some q).
    { rewrite Heq, lookup_app_r by lia. by rewrite Nat.sub_diag. }
    destruct (Hrooted _ _ Hq) as [H | [H | [(j0 & _ & Hg0) _]]]; try congruence.
    apply Hnot. by eapply list_elem_of_lookup_2.
Qed.

Lemma find_parent_gate_wired_witness :
  exists calc_list,
    find_parent_gate ["Singlets/Live"]
      ["Singlets"; "Singlets/Live"; "Singlets/Live/CD3+"] ["Singlets"] = Ok calc_list /\
    length calc_list = 3 /\ wired calc_list.
Proof.
  apply (find_parent_gate_wired ["Singlets/Live"]
           ["Singlets"; "Singlets/Live"; "Singlets/Live/CD3+"] ["Singlets"]).
  intros [|[|[|i]]] p Hp; simpl in Hp; try discriminate; injection Hp as <-.
  - right. left. reflexivity.
  - left. reflexivity.
  - do 2 right. split; [exists 1; split; [lia|reflexivity] | left; reflexivity].
Defined.

(** X4. A gate outside both lists whose parent path is ignored and is no
    starting gate (a sibling of the starting gate, say) stops the counts:
    [find_parent_gate] gives it the index of the ignored parent, and
    [calculate_cell_counts] raises on every tube without counts. *)
Theorem ignored_parent_gate_raises (start_gate_list g_list i_list : list string)
    (calc_list : list calc) (i : nat) (p : string) (self : TubeData.t) :
  g_list !! i = Some p ->
  Str.in_list p start_gate_list = false ->
  Str.in_list p i_list = false ->
  Str.in_list (Str.rsplit1_head p) start_gate_list = false ->
  Str.in_list (Str.rsplit1_head p) i_list = true ->
  find_parent_gate start_gate_list g_list i_list = Ok calc_list ->
  count_list self = [] ->
  (exists j, calc_list !! i = Some (parent j) /\ calc_list !! j = Some ignore) /\
  raises (calculate_cell_counts self calc_list).
Proof.
  intros Hp Hs Hi Hps Hpi Hfind Hfresh.
  pose proof (find_parent_gate_entries _ _ _ _ Hfind) as [Hlen Hshape].
  assert (Hex : exists j, calc_list !! i = Some (parent j) /\
                          calc_list !! j = Some ignore).
  { unfold find_parent_gate in Hfind.
    apply find_parent_loop_Ok in Hfind as (cs & -> & Hall). simpl in *.
    destruct (Forall2_lookup_l _ _ _ _ _ Hall Hp) as (c & Hc & Href).
    apply parent_ref_cases in Href
      as [(? & ?) | [(? & ? & ?) | (_ & _ & j & -> & Hj & _)]]; try congruence.
    exists j. split; [done|]. by apply (Hshape j _ Hj). }
  split; [done|]. destruct Hex as (j & Hij & Hj).
  destruct (calculate_cell_counts self calc_list) as [self'|e] eqn:E; [|by exists e].
  exfalso. apply (calculate_fresh _ _ _ Hfresh) in E as (counts & -> & _ & Hall).
  pose proof (Hall i _ Hij) as (cj & q & d & _ & Hcj & _).
  pose proof (Hall j _ Hj) as Hb. simpl in Hb. congruence.
Qed.

Lemma ignored_parent_gate_raises_witness :
  raises (calculate_cell_counts tube_ex [ignore; start; parent 0]).
Proof.
  exact (proj2 (ignored_parent_gate_raises ["Singlets/Live"]
                  ["Singlets"; "Singlets/Live"; "Singlets/Dead"] ["Singlets"]
                  [ignore; start; parent 0] 2 "Singlets/Dead" tube_ex
                  eq_refl eq_refl eq_refl eq_refl eq_refl eq_refl eq_refl)).
Defined.

(** ** What [check_starting_gate] returns *)

Lemma dict_get_NoDup (gates : dict) g m :
  NoDup (map fst gates) -> (g, m) ∈ gates -> dict_get gates g = Ok m.
Proof.
  induction gates as [|[k v] gates IH]; simpl; intros Hnd Hin.
  - by apply elem_of_nil in Hin.
  - apply NoDup_cons in Hnd as [Hk Hnd]. destruct (String.eqb k g) eqn:E.
    + apply String.eqb_eq in E as ->. apply elem_of_cons in Hin as [[= ->]|Hin]; [done|].
      destruct Hk. apply list_elem_of_fmap. by exists (g, m).
    + apply String.eqb_neq in E. apply elem_of_cons in Hin as [[= -> ->]|Hin]; [done|].
      by apply IH.
Qed.

Lemma ask_level_shorter len : forall stdin k rest,
  ask_level len stdin = Ok (k, rest) -> length rest < length stdin.
Proof.
  assert (H : forall fuel stdin, length stdin <= fuel ->
            forall k rest, ask_level len stdin = Ok (k, rest) ->
                           length rest < length stdin).
  { intros fuel. induction fuel as [|fuel IH]; intros stdin Hn k rest.
    - destruct stdin; [discriminate | simpl in Hn; lia].
    - destruct stdin as [|answer stdin]; [discriminate|].
      rewrite ask_level_unfold.
      assert (Hagain : (rest' ← yes_no stdin; ask_level len rest') = Ok (k, rest) ->
                       length rest < length (answer :: stdin)).
      { destruct stdin as [|a stdin]; [discriminate|]. simpl.
        destruct (quits a); [discriminate|]. simpl. intros H.
        apply IH in H; simpl in *; lia. }
      destruct (int_of_string answer) as [z|]; [|exact Hagain].
      destruct ((0 <? z)%Z && (z <=? Z.of_nat len)%Z); [|exact Hagain].
      intros [= <- <-]. simpl. lia. }
  intros stdin. by apply (H (length stdin)).
Qed.

(** X5. Whatever [check_starting_gate] returns, there is at least one
    starting gate, the starting gates and the ignored gates are gates of
    the dict, and no starting gate is ignored.  With a second depth 1
    there are two or more starting gates, nothing is ignored and nothing
    is read; otherwise there is one starting gate and the user was
    asked. *)
Theorem check_starting_gate_result (gates : dict) (stdin rest : list string)
    (starts ignored : list string) :
  NoDup (map fst gates) ->
  check_starting_gate gates stdin = Ok (starts, ignored, rest) ->
  starts <> [] /\
  (forall g, g ∈ starts -> g ∈ map fst gates) /\
  (forall g, g ∈ ignored -> g ∈ map fst gates) /\
  (forall g, g ∈ starts -> g ∉ ignored) /\
  (2 <= occ 1 (map snd gates) ->
   2 <= length starts /\ ignored = [] /\ rest = stdin) /\
  (occ 1 (map snd gates) <= 1 ->
   length starts = 1 /\ length rest < length stdin).
Proof.
  intros Hnd H. unfold check_starting_gate in H.
  pose proof (scan_lengths_spec (map snd gates) [] ∅ ∅ summarises_nil) as Hscan.
  rewrite occ_nil in Hscan. specialize (Hscan ltac:(lia)). simpl in Hscan.
  destruct (scan_lengths (map snd gates) ∅ ∅) as [[[] C] R].
  - destruct Hscan as [Hone _].
    apply bind_Ok in H as (min_gate & _ & H).
    apply bind_Ok in H as ([start_gate_str stdin'] & Hask & H).
    apply bind_Ok in H as (m & Hget & [= <- <- <-]).
    unfold ask_starting_gate in Hask.
    apply bind_Ok in Hask as ([k rest'] & Hask & [= <- <-]).
    apply ask_level_shorter in Hask.
    pose proof (dict_get_Ok _ _ _ Hget) as Hin.
    split; [done|]. split; [|split; [|split; [|split]]].
    + intros g ->%list_elem_of_singleton. apply list_elem_of_fmap. by eexists (_, m).
    + intros g (gn & -> & Hgn)%list_elem_of_fmap.
      apply list_elem_of_filter in Hgn as [_ Hgn]. apply list_elem_of_fmap. by exists gn.
    + intros g ->%list_elem_of_singleton ([g' v] & Hg & Hgv)%list_elem_of_fmap.
      apply list_elem_of_filter in Hgv as [Hlt Hgv]. simpl in *. subst g'.
      apply (dict_get_NoDup _ _ _ Hnd) in Hgv. rewrite Hgv in Hget.
      injection Hget as <-. lia.
    + intros. lia.
    + intros _. split; [done|lia].
  - injection H as <- <- <-.
    destruct Hscan as (pre & post & Heq & Hocc & _).
    assert (Htwo : 2 <= occ 1 (map snd gates)).
    { rewrite Heq, occ_app, occ_cons. simpl in *. destruct (decide (1 = 1)); lia. }
    assert (Hlen : length (map fst (filter (fun gn : string * nat => gn.2 = 1) gates))
                   = occ 1 (map snd gates)).
    { by rewrite length_map, occ_filter_gates. }
    split; [|split; [|split; [|split; [|split]]]].
    + intros E. rewrite E in Hlen. simpl in Hlen. lia.
    + intros g (gn & -> & Hgn)%list_elem_of_fmap.
      apply list_elem_of_filter in Hgn as [_ Hgn]. apply list_elem_of_fmap. by exists gn.
    + by intros g ?%elem_of_nil.
    + intros g _. apply not_elem_of_nil.
    + intros _. split; [lia|done].
    + intros. lia.
Qed.

Lemma check_starting_gate_result_witness :
  ["Singlets/Live"] <> [] /\
  forall g, g ∈ ["Singlets/Live"] -> g ∉ ["Singlets"].
Proof.
  pose proof (check_starting_gate_result singlets_dict ["2"] []
                ["Singlets/Live"] ["Singlets"]) as H.
  assert (Hnd : NoDup (map fst singlets_dict)).
  { simpl. repeat (apply NoDup_cons_2; [by compute_done|]). apply NoDup_nil_2. }
  destruct (H Hnd eq_refl) as (H1 & _ & _ & H4 & _). split; [exact H1 | exact H4].
Defined.

(** X6. When no depth is met exactly once (and the depth 1 at most once),
    as on an empty header or on the gates A/B and A/C alone,
    [check_starting_gate] raises the [ValueError] of [max] on an empty
    set, before it asks anything. *)
Theorem check_starting_gate_no_candidate (gates : dict) (stdin : list string) :
  occ 1 (map snd gates) <= 1 ->
  (forall d, occ d (map snd gates) <> 1) ->
  check_starting_gate gates stdin = Raise ValueError_max_empty.
Proof.
  intros Hone Hnone. unfold check_starting_gate.
  pose proof (scan_lengths_spec (map snd gates) [] ∅ ∅ summarises_nil) as Hscan.
  rewrite occ_nil in Hscan. specialize (Hscan ltac:(lia)). simpl in Hscan.
  destruct (scan_lengths (map snd gates) ∅ ∅) as [[[] C] R].
  - destruct Hscan as [_ [HC HR]]. unfold candidate_gate.
    rewrite set_max_empty; [done|].
    intros x. rewrite elem_of_difference, HC, HR, <- occ_pos.
    specialize (Hnone x). lia.
  - destruct Hscan as (pre & post & Heq & Hocc & _).
    rewrite Heq, occ_app, occ_cons in Hone. simpl in *. destruct (decide (1 = 1)); lia.
Qed.

Lemma check_starting_gate_no_candidate_witness :
  check_starting_gate [("A/B", 2); ("A/C", 2)] ["1"] = Raise ValueError_max_empty /\
  check_starting_gate [] ["1"] = Raise ValueError_max_empty.
Proof.
  split.
  - apply (check_starting_gate_no_candidate [("A/B", 2); ("A/C", 2)] ["1"]).
    + vm_compute. lia.
    + intros d. destruct (decide (d = 2)) as [->|Hne]; [vm_compute; lia|].
      unfold occ. simpl. rewrite !filter_cons, filter_nil.
      destruct (decide (2 = d)); [congruence|]. simpl. lia.
  - apply (check_starting_gate_no_candidate [] ["1"]).
    + vm_compute. lia.
    + intros d. vm_compute. lia.
Defined.

(** ** The dict of the header *)

Lemma dict_set_keys (gd : dict) k v :
  map fst (dict_set gd k v)
  = if decide (k ∈ map fst gd) then map fst gd else map fst gd ++ [k].
Proof.
  induction gd as [|[k0 v0] gd IH].
  - destruct (decide (k ∈ map fst [])) as [Hin|_]; [|done]. by apply elem_of_nil in Hin.
  - cbn [dict_set]. destruct (String.eqb k0 k) eqn:E.
    + apply String.eqb_eq in E as ->.
      destruct (decide (k ∈ map fst ((k, v0) :: gd))) as [_|Hnot]; [done|].
      destruct Hnot. by left.
    + apply String.eqb_neq in E. cbn [map fst]. rewrite IH.
      destruct (decide (k ∈ map fst gd)) as [Hin|Hnot];
        destruct (decide (k ∈ k0 :: map fst gd)) as [Hin'|Hnot']; try done.
      * destruct Hnot'. by right.
      * apply elem_of_cons in Hin' as [->|?]; done.
Qed.

Lemma read_header_keys cells : forall gate_order gates_dict gate_order' gates_dict',
  read_header cells gate_order gates_dict = Ok (gate_order', gates_dict') ->
  NoDup (map fst gates_dict) ->
  (NoDup gate_order' -> map fst gates_dict = gate_order) ->
  NoDup (map fst gates_dict') /\
  (NoDup gate_order' -> map fst gates_dict' = gate_order') /\
  length gate_order' = length gate_order + length cells.
Proof.
  induction cells as [|cell cells IH]; intros go gd go' gd' H Hnd Hsame; simpl in H.
  - injection H as <- <-. repeat split; [done|done|simpl; lia].
  - destruct (Str.contains " | " cell); simpl in H; [|discriminate].
    destruct (Str.split " | " cell) as [|gate [|test [|? ?]]] eqn:E; try discriminate.
    pose proof (read_header_Ok _ _ _ _ _ H) as Hprefix.
    apply IH in H as (H1 & H2 & H3).
    + repeat split; [done|done|]. rewrite H3, length_app. simpl. lia.
    + rewrite dict_set_keys. destruct (decide (gate ∈ map fst gd)); [done|].
      apply NoDup_app. repeat split; [done| |apply NoDup_singleton].
      intros x Hx ->%list_elem_of_singleton. done.
    + intros Hnd'. rewrite dict_set_keys.
      assert (Hpre : exists rest, go' = (go ++ [gate]) ++ rest).
      { clear -H. revert H. generalize (go ++ [gate]).
        generalize (dict_set gd gate (length (Str.split "/" gate))).
        induction cells as [|c cells IHc]; intros d l H; simpl in H.
        - injection H as <- _. exists []. by rewrite app_nil_r.
        - destruct (Str.contains " | " c); simpl in H; [|discriminate].
          destruct (Str.split " | " c) as [|g [|t [|? ?]]]; try discriminate.
          apply IHc in H as [rest ->]. exists (g :: rest). by rewrite <- !app_assoc. }
      destruct Hpre as [rest ->]. pose proof Hnd' as Hfull.
      apply NoDup_app in Hnd' as (Hnd' & _ & _).
      pose proof Hnd' as Hnd''. apply NoDup_app in Hnd'' as (Hgo & Hdisj & _).
      rewrite (Hsame Hfull). rewrite decide_False; [done|].
      intros Hin. by apply (Hdisj gate Hin), list_elem_of_singleton.
Qed.

(** X7. The dict [process_csv] builds has one entry per distinct gate of
    the header: its keys are distinct, they are the gates of
    [gate_order], and when no gate occurs twice in the header they are
    [gate_order] itself, in the order of the header. *)
Theorem read_header_dict (cells gate_order : list string) (gates_dict : dict) :
  read_header cells [] [] = Ok (gate_order, gates_dict) ->
  NoDup (map fst gates_dict) /\
  (forall gate, gate ∈ map fst gates_dict <-> gate ∈ gate_order) /\
  (NoDup gate_order -> map fst gates_dict = gate_order) /\
  length gate_order = length cells.
Proof.
  intros H.
  pose proof (read_header_keys _ _ _ _ _ H (NoDup_nil_2 : NoDup (map fst [])) (fun _ => eq_refl))
    as (H1 & H2 & H3).
  apply read_header_Ok in H as [[Hget Hall] _].
  - split; [done|]. split; [|done]. intros gate. split.
    + intros ([g v] & -> & Hin)%list_elem_of_fmap.
      rewrite Forall_forall in Hall. by apply (Hall _ Hin).
    + intros Hin. apply Hget in Hin. apply dict_get_Ok in Hin.
      apply list_elem_of_fmap. by eexists (_, _).
  - split; [by intros g ?%elem_of_nil | constructor].
Qed.

Lemma read_header_dict_witness :
  NoDup ["A"; "A/B"] /\ length ["A"; "A/B"; "A"] = 3.
Proof.
  destruct (read_header_dict [hdr "A"; hdr "A/B"; hdr "A"] ["A"; "A/B"; "A"]
              [("A", 1); ("A/B", 2)] eq_refl) as (H1 & _ & _ & H4).
  split; [exact H1 | exact H4].
Defined.

(** ** Reading the percents *)

Lemma truediv_100_Raise (d : Decimal) (e : exn) :
  Dec.truediv d (Dec.of_int 100) = Raise e -> decimal_error e.
Proof.
  change (Dec.of_int 100) with (Dec.Finite false 100 0).
  unfold Dec.truediv, Dec.check_nans, decimal_error.
  destruct d as [s c ex|s|s [] p]; try (intros [= <-]; auto); try discriminate.
  change (100 =? 0)%N with false. cbv beta iota.
  destruct (c =? 0)%N.
  - intros ?%fix_Raise. auto.
  - repeat case_match; intros ?%fix_Raise; auto.
Qed.

Lemma percent_of_string_Raise (percent : string) (e : exn) :
  percent_of_string percent = Raise e -> decimal_error e.
Proof.
  unfold percent_of_string. destruct (Dec.of_string percent).
  - apply truediv_100_Raise.
  - intros [= <-]. by left.
Qed.

Lemma convert_to_decimal_Ok raw : forall acc l,
  convert_to_decimal raw acc = Ok l <->
  exists ds, l = acc ++ ds /\
             Forall2 (fun p d => percent_of_string p = Ok d) raw ds.
Proof.
  induction raw as [|p raw IH]; intros acc l; simpl.
  - split.
    + intros [= <-]. exists []. by rewrite app_nil_r.
    + intros (ds & -> & H). inversion H. by rewrite app_nil_r.
  - destruct (percent_of_string p) as [d|e] eqn:E.
    + rewrite IH. split.
      * intros (ds & -> & H). exists (d :: ds). rewrite <- app_assoc. split; [done|].
        by constructor.
      * intros (ds & -> & H). inversion H as [|? d' ? ds' Hd Hds]; subst.
        assert (d' = d) as -> by congruence.
        exists ds'. by rewrite <- app_assoc.
    + split.
      * destruct e; discriminate.
      * intros (ds & -> & H). inversion H; congruence.
Qed.

Lemma convert_to_decimal_Raise raw : forall acc e,
  convert_to_decimal raw acc = Raise e ->
  (e = SystemExit \/ e = Overflow) /\
  exists pre cell post,
    raw = pre ++ cell :: post /\
    Forall (fun p => exists d, percent_of_string p = Ok d) pre /\
    (percent_of_string cell = Raise InvalidOperation /\ e = SystemExit \/
     percent_of_string cell = Raise Overflow /\ e = Overflow).
Proof.
  induction raw as [|p raw IH]; intros acc e; simpl; [discriminate|].
  destruct (percent_of_string p) as [d|e'] eqn:E.
  - intros H. apply IH in H as (He & pre & cell & post & -> & Hpre & Hcell).
    split; [done|]. exists (p :: pre), cell, post. split; [done|]. split; [|done].
    constructor; eauto.
  - pose proof (percent_of_string_Raise _ _ E) as [-> | ->]; intros [= <-].
    + split; [by left|]. exists [], p, raw. repeat split; auto.
    + split; [by right|]. exists [], p, raw. repeat split; auto.
Qed.

(** X8. [convert_to_decimal] returns exactly when every cell gives a
    percent, and then returns these percents in the order of the cells.
    Otherwise it stops at the first cell that does not: the program exits
    when that cell is no number, a number beyond the limits of the
    constructor or a signaling NaN, and the [Overflow] of the division,
    which the code does not catch, escapes; no other exception is
    possible. *)
Theorem convert_to_decimal_spec (raw : list string) :
  (forall l,
     convert_to_decimal raw [] = Ok l <->
     Forall2 (fun p d => percent_of_string p = Ok d) raw l) /\
  (forall e,
     convert_to_decimal raw [] = Raise e ->
     (e = SystemExit \/ e = Overflow) /\
     exists pre cell post,
       raw = pre ++ cell :: post /\
       Forall (fun p => exists d, percent_of_string p = Ok d) pre /\
       (percent_of_string cell = Raise InvalidOperation /\ e = SystemExit \/
        percent_of_string cell = Raise Overflow /\ e = Overflow)) /\
  (forall pre cell post,
     raw = pre ++ cell :: post ->
     Forall (fun p => exists d, percent_of_string p = Ok d) pre ->
     Dec.of_string cell = None ->
     convert_to_decimal raw [] = Raise SystemExit).
Proof.
  split; [|split].
  - intros l. rewrite convert_to_decimal_Ok. simpl. split.
    + by intros (ds & -> & H).
    + intros H. by exists l.
  - intros e. apply convert_to_decimal_Raise.
  - intros pre cell post -> Hpre Hcell. generalize (@nil Decimal).
    induction pre as [|p pre IH]; intros acc; simpl.
    + unfold percent_of_string. by rewrite Hcell.
    + inversion Hpre as [|? ? [d Hd] Hpre']; subst. rewrite Hd. by apply IH.
Qed.

Lemma convert_to_decimal_spec_witness :
  convert_to_decimal ["50"; "n/a"; "20"] [] = Raise SystemExit /\
  convert_to_decimal ["50"; "1e99999999999999999999"] [] = Raise SystemExit /\
  convert_to_decimal ["50"; "1e1000010"] [] = Raise Overflow.
Proof.
  split; [|split].
  - apply (proj2 (proj2 (convert_to_decimal_spec ["50"; "n/a"; "20"])) ["50"] "n/a" ["20"]).
    + reflexivity.
    + repeat constructor. eexists. vm_compute. reflexivity.
    + reflexivity.
  - apply (proj2 (proj2 (convert_to_decimal_spec ["50"; "1e99999999999999999999"]))
             ["50"] "1e99999999999999999999" []).
    + reflexivity.
    + repeat constructor. eexists. vm_compute. reflexivity.
    + reflexivity.
  - vm_compute. reflexivity.
Defined.

(** ** The questions to the user *)

Lemma pairs_ind {A} (P : list A -> Prop) :
  P [] -> (forall x, P [x]) -> (forall x y l, P l -> P (x :: y :: l)) ->
  forall l, P l.
Proof.
  intros H0 H1 H2. assert (H : forall l, P l /\ forall x, P (x :: l)).
  { induction l as [|y l [IH1 IH2]]; split; auto. }
  intros l. apply H.
Qed.

Lemma ask_level_level_of len answer rest :
  ask_level len (answer :: rest)
  = match level_of len answer with
    | Some k => Ok (k, rest)
    | None => rest' ← yes_no rest; ask_level len rest'
    end.
Proof.
  rewrite ask_level_unfold. unfold level_of.
  destruct (int_of_string answer) as [z|]; [|done].
  by destruct ((0 <? z)%Z && (z <=? Z.of_nat len)%Z).
Qed.

Section AskLoop.

Context {A : Type}.
Variable attempt : string -> option A.
Variable ask : list string -> result (A * list string).

Hypothesis ask_nil : ask [] = Raise EOFError.
Hypothesis ask_cons : forall answer rest,
  ask (answer :: rest)
  = match attempt answer with
    | Some a => Ok (a, rest)
    | None => rest' ← yes_no rest; ask rest'
    end.

(** The attempts before the answer: each is refused and followed by a
    line that does not quit. *)
Let refused (attempts : list (string * string)) : Prop :=
  Forall (fun ba : string * string => attempt ba.1 = None /\ quits ba.2 = false)
         attempts.

Lemma ask_loop_Ok stdin a rest :
  ask stdin = Ok (a, rest) <->
  exists attempts answer,
    stdin = typed attempts ++ answer :: rest /\
    refused attempts /\ attempt answer = Some a.
Proof.
  revert stdin. apply (pairs_ind (fun stdin => _ <-> _)).
  - rewrite ask_nil. split; [discriminate|].
    intros (att & answer & H & _). by destruct att.
  - intros x. rewrite ask_cons. destruct (attempt x) as [a'|] eqn:E; simpl.
    + split.
      * intros [= <- <-]. exists [], x. split; [done|]. split; [by constructor|done].
      * intros (att & answer & H & Hatt & Hans). destruct att as [|[b y] att].
        -- injection H as <- <-. congruence.
        -- discriminate.
    + split; [discriminate|].
      intros (att & answer & H & Hatt & Hans). destruct att as [|[b y] att].
      * injection H as <- <-. congruence.
      * discriminate.
  - intros x y l IH. rewrite ask_cons. destruct (attempt x) as [a'|] eqn:E; simpl.
    + split.
      * intros [= <- <-]. exists [], x. split; [done|]. split; [by constructor|done].
      * intros (att & answer & H & Hatt & Hans). destruct att as [|[b z] att].
        -- injection H as <- <-. congruence.
        -- injection H as <- <- H.
           inversion Hatt as [|? ? [Hb _] _]; subst. simpl in Hb. congruence.
    + destruct (quits y) eqn:Q; simpl.
      * split; [discriminate|].
        intros (att & answer & H & Hatt & Hans). destruct att as [|[b z] att].
        -- injection H as <- <-. congruence.
        -- injection H as <- <- H.
           inversion Hatt as [|? ? [_ Hq] _]; subst. simpl in Hq. congruence.
      * rewrite IH. split.
        -- intros (att & answer & -> & Hatt & Hans).
           exists ((x, y) :: att), answer. split; [done|]. split; [by constructor|done].
        -- intros (att & answer & H & Hatt & Hans). destruct att as [|[b z] att].
           ++ injection H as <- <-. congruence.
           ++ injection H as <- <- ->. inversion Hatt; subst. by exists att, answer.
Qed.

Lemma ask_loop_Raise stdin e :
  ask stdin = Raise e <->
  exists attempts tail,
    stdin = typed attempts ++ tail /\ refused attempts /\
    (e = EOFError /\ (tail = [] \/ exists bad, tail = [bad] /\ attempt bad = None) \/
     e = SystemExit /\
     exists bad again rest, tail = bad :: again :: rest /\
                            attempt bad = None /\ quits again = true).
Proof.
  revert stdin. apply (pairs_ind (fun stdin => _ <-> _)).
  - rewrite ask_nil. split.
    + intros [= <-]. exists [], []. split; [done|]. split; [by constructor|]. left. auto.
    + intros (att & tail & H & _ & [[-> _] | [_ (b & a & r & -> & _)]]); [done|].
      destruct att as [|[] ?]; discriminate.
  - intros x. rewrite ask_cons. destruct (attempt x) as [a'|] eqn:E; simpl.
    + split; [discriminate|].
      intros (att & tail & H & _ & Hcase). destruct att as [|[] ?]; [|discriminate].
      simpl in H. subst tail.
      destruct Hcase as [[_ [H | (b & [= <-] & Hb)]] | [_ (b & a & r & H & _)]];
        [discriminate | congruence | discriminate].
    + split.
      * intros [= <-]. exists [], [x]. split; [done|]. split; [by constructor|].
        left. eauto.
      * intros (att & tail & H & _ & Hcase). destruct att as [|[] ?]; [|discriminate].
        simpl in H. subst tail.
        destruct Hcase as [[-> _] | [_ (b & a & r & H & _)]]; [done | discriminate].
  - intros x y l IH. rewrite ask_cons. destruct (attempt x) as [a'|] eqn:E; simpl.
    + split; [discriminate|].
      intros (att & tail & H & Hatt & Hcase). destruct att as [|[b z] att].
      * simpl in H. subst tail.
        destruct Hcase as [[_ [H | (b & H & _)]] | [_ (b & a & r & [= <- <- <-] & Hb & _)]];
          [discriminate | discriminate | congruence].
      * injection H as <- <- H.
        inversion Hatt as [|? ? [Hb _] _]; subst. simpl in Hb. congruence.
    + destruct (quits y) eqn:Q; simpl.
      * split.
        -- intros [= <-]. exists [], (x :: y :: l). split; [done|].
           split; [by constructor|]. right. split; [done|]. by exists x, y, l.
        -- intros (att & tail & H & Hatt & Hcase). destruct att as [|[b z] att].
           ++ simpl in H. subst tail.
              destruct Hcase as [[_ [H | (b & H & _)]] | [-> _]];
                [discriminate | discriminate | done].
           ++ injection H as <- <- H.
              inversion Hatt as [|? ? [_ Hq] _]; subst. simpl in Hq. congruence.
      * rewrite IH. split.
        -- intros (att & tail & -> & Hatt & Hcase).
           exists ((x, y) :: att), tail. split; [done|]. split; [by constructor|done].
        -- intros (att & tail & H & Hatt & Hcase). destruct att as [|[b z] att].
           ++ simpl in H. subst tail.
              destruct Hcase
                as [[_ [H | (b & H & _)]] | [_ (b & a & r & [= <- <- <-] & _ & Hq)]];
                [discriminate | discriminate | congruence].
           ++ injection H as <- <- ->. inversion Hatt; subst. by exists att, tail.
Qed.

End AskLoop.

(** X9. [ask_cell_conc] returns the first line that reads as a [Decimal],
    the lines before it being pairs of a line that does not (no number,
    or one beyond the limits of the constructor) and a line, typed at the
    question of [yes_no], that does not quit; the line typed at that
    question is never taken as the concentration.  It raises only at the
    end of the input or when the user quits. *)
Theorem ask_cell_conc_spec (stdin : list string) :
  (forall d rest,
     ask_cell_conc stdin = Ok (d, rest) <->
     exists attempts answer,
       stdin = typed attempts ++ answer :: rest /\
       Forall (fun ba : string * string =>
                 Dec.of_string ba.1 = None /\ quits ba.2 = false) attempts /\
       Dec.of_string answer = Some d) /\
  (forall e, ask_cell_conc stdin = Raise e -> e = EOFError \/ e = SystemExit).
Proof.
  split.
  - intros d rest. apply (ask_loop_Ok Dec.of_string ask_cell_conc eq_refl).
    intros. apply ask_cell_conc_unfold.
  - intros e H.
    apply (ask_loop_Raise Dec.of_string ask_cell_conc eq_refl) in H
      as (att & tail & _ & _ & [[-> _] | [-> _]]); auto.
    intros. apply ask_cell_conc_unfold.
Qed.

Lemma level_of_range len answer k : level_of len answer = Some k -> 1 <= k <= len.
Proof.
  unfold level_of. destruct (int_of_string answer) as [z|]; [|discriminate].
  destruct ((0 <? z)%Z && (z <=? Z.of_nat len)%Z) eqn:E; [|discriminate].
  intros [= <-]. apply andb_prop in E as [E1 E2].
  apply Z.ltb_lt in E1. apply Z.leb_le in E2. lia.
Qed.

Lemma startswith_append p s : Str.startswith p (p ++ s)%string = true.
Proof.
  induction p as [|c p IH]; [done|]. rewrite append_cons. simpl.
  by rewrite Ascii.eqb_refl, IH.
Qed.

Lemma append_nil_r (s : string) : (s ++ "")%string = s.
Proof. induction s as [|c s IH]; [done|]. by rewrite append_cons, IH. Qed.

Lemma append_assoc (a b c : string) : ((a ++ b) ++ c)%string = (a ++ (b ++ c))%string.
Proof. induction a as [|x a IH]; [done|]. by rewrite !append_cons, IH. Qed.

Lemma join_app sep l1 l2 :
  l1 <> [] -> l2 <> [] ->
  Str.join sep (l1 ++ l2) = (Str.join sep l1 ++ sep ++ Str.join sep l2)%string.
Proof.
  intros H1 H2. induction l1 as [|x l1 IH]; [done|].
  destruct l1 as [|y l1].
  - simpl. by destruct l2.
  - change (Str.join sep ((x :: y :: l1) ++ l2))
      with (x ++ sep ++ Str.join sep ((y :: l1) ++ l2))%string.
    rewrite IH by done.
    change (Str.join sep (x :: y :: l1)) with (x ++ sep ++ Str.join sep (y :: l1))%string.
    by rewrite !append_assoc.
Qed.

Lemma join_take_prefix sep l k :
  Str.startswith (Str.join sep (take k l)) (Str.join sep l) = true.
Proof.
  destruct (decide (take k l = [])) as [E|Hne]; [by rewrite E|].
  destruct (decide (drop k l = [])) as [E|Hne'].
  - rewrite <- (take_drop k l) at 2. rewrite E, app_nil_r.
    rewrite <- (append_nil_r (Str.join sep (take k l))) at 2. apply startswith_append.
  - rewrite <- (take_drop k l) at 2. rewrite join_app by done. apply startswith_append.
Qed.

(** X10. [ask_starting_gate] returns for the first line that [int] reads
    as one of the levels 1 to the depth of the gate shown, the lines
    before it being pairs of a refused line and a line that does not
    quit.  The
    gate returned is made of the first segments of the gate shown, as many
    as the level: it has that depth, it is a prefix of the gate shown,
    and at the deepest level it is the gate shown itself. *)
Theorem ask_starting_gate_spec (min_gate : string) (stdin : list string) :
  (forall start_gate rest,
     ask_starting_gate min_gate stdin = Ok (start_gate, rest) <->
     exists attempts answer k,
       stdin = typed attempts ++ answer :: rest /\
       Forall (fun ba : string * string =>
                 level_of (depth min_gate) ba.1 = None /\ quits ba.2 = false)
              attempts /\
       level_of (depth min_gate) answer = Some k /\
       start_gate = Str.join "/" (take k (Str.split "/" min_gate))) /\
  (forall k,
     1 <= k <= depth min_gate ->
     depth (Str.join "/" (take k (Str.split "/" min_gate))) = k /\
     Str.startswith (Str.join "/" (take k (Str.split "/" min_gate))) min_gate = true /\
     (k = depth min_gate ->
      Str.join "/" (take k (Str.split "/" min_gate)) = min_gate)) /\
  (forall e, ask_starting_gate min_gate stdin = Raise e -> e = EOFError \/ e = SystemExit).
Proof.
  assert (Hcons : forall answer rest,
            ask_level (depth min_gate) (answer :: rest)
            = match level_of (depth min_gate) answer with
              | Some k => Ok (k, rest)
              | None => rest' ← yes_no rest; ask_level (depth min_gate) rest'
              end) by (intros; apply ask_level_level_of).
  split; [|split].
  - intros start_gate rest. unfold ask_starting_gate. fold (depth min_gate).
    rewrite bind_Ok. split.
    + intros ([k rest'] & Hask & [= <- <-]).
      apply (ask_loop_Ok _ _ eq_refl Hcons) in Hask as (att & answer & H1 & H2 & H3).
      by exists att, answer, k.
    + intros (att & answer & k & H1 & H2 & H3 & ->). exists (k, rest). split; [|done].
      apply (ask_loop_Ok _ _ eq_refl Hcons). by exists att, answer.
  - intros k Hk. split; [by apply depth_prefix|]. split.
    + rewrite <- (join_split min_gate) at 2. apply join_take_prefix.
    + intros ->. unfold depth. rewrite take_ge by done. apply join_split.
  - intros e. unfold ask_starting_gate. fold (depth min_gate).
    rewrite bind_Raise. intros [H | ([k rest'] & _ & [=])].
    apply (ask_loop_Raise _ _ eq_refl Hcons) in H
      as (att & tail & _ & _ & [[-> _] | [-> _]]); auto.
Qed.

Lemma ask_starting_gate_spec_witness :
  depth (Str.join "/" (take 2 (Str.split "/" "Singlets/Live/CD3+"))) = 2 /\
  Str.startswith (Str.join "/" (take 2 (Str.split "/" "Singlets/Live/CD3+")))
                 "Singlets/Live/CD3+" = true /\
  ask_starting_gate "Singlets/Live/CD3+"
    [String (ascii_of_nat 31) "2"; "y"; "4"; "yes"; " 2 "; "3"]
  = Ok ("Singlets/Live", ["3"]).
Proof.
  destruct (proj1 (proj2 (ask_starting_gate_spec "Singlets/Live/CD3+" [])) 2)
    as (H1 & H2 & _).
  - vm_compute. lia.
  - split; [exact H1|]. split; [exact H2|].
    apply (proj1 (ask_starting_gate_spec "Singlets/Live/CD3+"
                    [String (ascii_of_nat 31) "2"; "y"; "4"; "yes"; " 2 "; "3"])).
    exists [(String (ascii_of_nat 31) "2", "y"); ("4", "yes")], " 2 ", 2.
    split; [reflexivity|]. split; [repeat constructor|]. split; reflexivity.
Defined.

Lemma ask_cell_conc_spec_witness :
  ask_cell_conc ["ten"; "10"; "1e99999999999999999999"; "y"; "20"; "30"]
  = Ok (Dec.Finite false 20 0, ["30"]).
Proof.
  apply (proj1 (ask_cell_conc_spec
                  ["ten"; "10"; "1e99999999999999999999"; "y"; "20"; "30"])).
  exists [("ten", "10"); ("1e99999999999999999999", "y")], "20".
  repeat split. repeat constructor.
Defined.

(** ** The tubes of [process_csv] *)

Lemma init_Ok tube_name' raw stdin x rest :
  TubeData.init tube_name' raw stdin = Ok (x, rest) <->
  exists percents conc,
    Forall2 (fun p d => percent_of_string p = Ok d) raw percents /\
    ask_cell_conc stdin = Ok (conc, rest) /\
    x = TubeData.mk tube_name' raw "" conc percents [].
Proof.
  unfold TubeData.init. rewrite bind_Ok. split.
  - intros (percents & Hconv & H). apply bind_Ok in H as ([conc rest'] & Hask & [= <- <-]).
    apply convert_to_decimal_Ok in Hconv as (ds & -> & Hds). by exists ds, conc.
  - intros (percents & conc & Hconv & Hask & ->). exists percents. split.
    + apply convert_to_decimal_Ok. by exists percents.
    + rewrite Hask. done.
Qed.

Lemma length_slice_1_m1 {A} (l : list A) : length (slice_1_m1 l) = length l - 2.
Proof.
  unfold slice_1_m1. destruct l as [|x l]; [done|]. simpl.
  induction l as [|y l IH] using rev_ind; [done|].
  rewrite removelast_last, length_app. simpl. lia.
Qed.

Lemma read_rows_Ok lines : forall tubes stdin tubes' rest,
  read_rows lines tubes stdin = Ok (tubes', rest) ->
  Forall (fun line => line <> []) lines /\
  exists new,
    tubes' = tubes ++ new /\
    Forall2 (fun line x =>
               exists first, head line = Some first /\
                 TubeData.n x = tube_name first /\
                 raw_percent x = slice_1_m1 line /\
                 length (percent_list x) = length line - 2 /\
                 count_list x = [] /\ group_id x = "")
            (filter (fun line => is_summary line = false) lines) new.
Proof.
  induction lines as [|line lines IH]; intros tubes stdin tubes' rest H;
    cbn [read_rows] in H.
  - injection H as <- <-. split; [constructor|]. exists []. by rewrite app_nil_r.
  - apply bind_Ok in H as (first & Hfirst & H). apply getitem_Ok in Hfirst.
    destruct line as [|first' cells]; [discriminate|]. injection Hfirst as ->.
    cbv zeta in H.
    rewrite filter_cons.
    assert (Hs : is_summary (first :: cells)
                 = Str.in_list (tube_name first) ["Mean"; "SD"]) by done.
    destruct (Str.in_list (tube_name first) ["Mean"; "SD"]) eqn:E; cbn [negb] in H.
    + apply IH in H as (Hne & new & -> & Hall). split; [by constructor|].
      exists new. split; [done|]. rewrite decide_False by (by rewrite Hs). done.
    + apply bind_Ok in H as ([x stdin'] & Hinit & H).
      apply IH in H as (Hne & new & -> & Hall). split; [by constructor|].
      exists (x :: new). rewrite <- app_assoc. split; [done|].
      rewrite decide_True by done. constructor; [|done].
      apply init_Ok in Hinit as (percents & conc & Hconv & _ & ->).
      exists first. cbn [head TubeData.n raw_percent percent_list count_list group_id].
      repeat split.
      rewrite <- (length_slice_1_m1 (first :: cells)).
      symmetry. by eapply Forall2_length.
Qed.

(** X11. When the loop over the rows returns, no row was empty, and the
    tubes are those of the rows that are not named ["Mean"] or ["SD"], in
    the order of the rows: each has the stripped first cell as name, the
    cells between the first and the last as raw percents, one percent per
    such cell, no count and no group yet.  An empty row, as a blank line
    gives, makes the loop raise. *)
Theorem read_rows_tubes (lines : list (list string)) (stdin : list string) :
  (forall tubes rest,
     read_rows lines [] stdin = Ok (tubes, rest) ->
     Forall (fun line => line <> []) lines /\
     Forall2 (fun line x =>
                exists first, head line = Some first /\
                  TubeData.n x = tube_name first /\
                  raw_percent x = slice_1_m1 line /\
                  length (percent_list x) = length line - 2 /\
                  count_list x = [] /\ group_id x = "")
             (filter (fun line => is_summary line = false) lines) tubes) /\
  ([] ∈ lines -> raises (read_rows lines [] stdin)).
Proof.
  split.
  - intros tubes rest H. apply read_rows_Ok in H as (Hne & new & -> & Hall). done.
  - intros Hin. destruct (read_rows lines [] stdin) as [[tubes rest]|e] eqn:E.
    + apply read_rows_Ok in E as (Hne & _). rewrite Forall_forall in Hne.
      by destruct (Hne [] Hin).
    + by exists e.
Qed.

Lemma read_rows_tubes_witness :
  raises (read_rows [["t1.fcs"; "50"; ""]; []; ["t2.fcs"; "20"; ""]] [] ["10"; "20"]).
Proof.
  apply (proj2 (read_rows_tubes [["t1.fcs"; "50"; ""]; []; ["t2.fcs"; "20"; ""]]
                  ["10"; "20"])).
  right. left.
Defined.

(** ** The name of a tube *)

Lemma lstrip_first chars s c :
  first_char (Str.lstrip chars s) = Some c -> Str.mem c chars = false.
Proof.
  induction s as [|a s IH]; simpl; [discriminate|].
  destruct (Str.mem a chars) eqn:E; [done|]. simpl. by intros [= <-].
Qed.

Lemma lstrip_clean chars s :
  (forall c, first_char s = Some c -> Str.mem c chars = false) ->
  Str.lstrip chars s = s.
Proof. destruct s as [|a s]; simpl; [done|]. intros H. by rewrite (H a). Qed.

Lemma rstrip_last chars s c :
  last_char (Str.rstrip chars s) = Some c -> Str.mem c chars = false.
Proof.
  induction s as [|a s IH]; simpl; [discriminate|].
  destruct (Str.rstrip chars s) as [|b r] eqn:E.
  - destruct (Str.mem a chars) eqn:Ea; simpl; [discriminate|]. by intros [= <-].
  - simpl. simpl in IH. exact IH.
Qed.

Lemma rstrip_clean chars s :
  (forall c, last_char s = Some c -> Str.mem c chars = false) ->
  Str.rstrip chars s = s.
Proof.
  induction s as [|a s IH]; simpl; [done|]. intros H.
  destruct s as [|b s].
  - simpl. by rewrite (H a).
  - rewrite IH by exact H. done.
Qed.

Lemma rstrip_first chars s c :
  first_char (Str.rstrip chars s) = Some c -> first_char s = Some c.
Proof.
  destruct s as [|a s]; simpl; [done|].
  destruct (Str.rstrip chars s); [destruct (Str.mem a chars)|]; simpl; congruence.
Qed.

Lemma rstrip_append chars s t :
  Str.rstrip chars t = "" -> Str.rstrip chars (s ++ t)%string = Str.rstrip chars s.
Proof.
  intros Ht. induction s as [|a s IH].
  - by rewrite append_nil_l.
  - rewrite append_cons. simpl. by rewrite IH.
Qed.

Lemma strip_clean s : clean_ends s -> tube_name s = s.
Proof.
  intros [Hf Hl]. unfold tube_name, Str.strip.
  rewrite lstrip_clean by exact Hf. by apply rstrip_clean.
Qed.

Lemma tube_name_clean first : clean_ends (tube_name first).
Proof.
  unfold tube_name, Str.strip. split.
  - intros c H. apply rstrip_first in H. by eapply lstrip_first.
  - intros c H. by eapply rstrip_last.
Qed.

(** X12. The name of a tube never starts or ends with one of the
    characters ".", "f", "c", "s", and stripping it again changes nothing.
    A first cell made of a name with clean ends and the suffix ".fcs"
    gives that name; a first cell with clean ends is the name itself. *)
Theorem tube_name_spec :
  (forall first, clean_ends (tube_name first)) /\
  (forall first, tube_name (tube_name first) = tube_name first) /\
  (forall base, clean_ends base -> tube_name (base ++ ".fcs") = base) /\
  (forall first, clean_ends first -> tube_name first = first).
Proof.
  split; [apply tube_name_clean|]. split; [|split; [|apply strip_clean]].
  - intros first. apply strip_clean, tube_name_clean.
  - intros base [Hf Hl]. unfold tube_name, Str.strip.
    destruct base as [|a base]; [reflexivity|].
    rewrite append_cons.
    rewrite (lstrip_clean ".fcs" (String a (base ++ ".fcs")))
      by (intros c [= <-]; by apply Hf).
    rewrite <- append_cons, rstrip_append by reflexivity.
    by apply rstrip_clean.
Qed.

Lemma tube_name_spec_witness :
  tube_name "Specimen_001_Tube_001.fcs" = "Specimen_001_Tube_001".
Proof.
  apply (proj1 (proj2 (proj2 tube_name_spec)) "Specimen_001_Tube_001").
  split; intros c [= <-]; reflexivity.
Defined.

(** ** The groups of the tubes *)

Lemma compare_refl (s : string) : String.compare s s = Eq.
Proof.
  induction s as [|c s IH]; simpl; [done|].
  unfold Ascii.compare. by rewrite N.compare_refl.
Qed.

Lemma leb_refl (s : string) : String.leb s s = true.
Proof. unfold String.leb. by rewrite compare_refl. Qed.

Lemma compare_le_trans (a : string) : forall b c,
  String.compare a b <> Gt -> String.compare b c <> Gt -> String.compare a c <> Gt.
Proof.
  induction a as [|x a IH]; intros [|y b] [|z c]; simpl; try congruence.
  unfold Ascii.compare.
  destruct (N.compare_spec (N_of_ascii x) (N_of_ascii y)),
           (N.compare_spec (N_of_ascii y) (N_of_ascii z)),
           (N.compare_spec (N_of_ascii x) (N_of_ascii z));
    try congruence; try lia; eauto.
Qed.

Lemma leb_trans (a b c : string) :
  String.leb a b = true -> String.leb b c = true -> String.leb a c = true.
Proof.
  unfold String.leb. intros H1 H2.
  pose proof (compare_le_trans a b c) as H.
  destruct (String.compare a b), (String.compare b c), (String.compare a c);
    try done; exfalso; apply H; congruence.
Qed.

Lemma leb_false_le (a b : string) : String.leb a b = false -> String.leb b a = true.
Proof. intros H. destruct (String.leb_total a b); congruence. Qed.

Lemma sort_insert_perm tube l : sort_insert tube l ≡ₚ tube :: l.
Proof.
  induction l as [|x l IH]; simpl; [done|].
  destruct (String.leb _ _); [done|]. rewrite IH. apply Permutation_swap.
Qed.

Lemma sort_by_group_perm l : sort_by_group l ≡ₚ l.
Proof.
  induction l as [|x l IH]; simpl; [done|].
  rewrite sort_insert_perm. by rewrite IH.
Qed.

Lemma sort_insert_ordered tube l : ordered l -> ordered (sort_insert tube l).
Proof.
  induction l as [|x l IH]; simpl.
  - intros _. split; [constructor|done].
  - intros [Hx Hl]. destruct (String.leb (group_id tube) (group_id x)) eqn:E.
    + simpl. split; [|done]. constructor; [done|].
      eapply Forall_impl; [exact Hx|]. intros y Hy. simpl in Hy.
      by eapply leb_trans.
    + simpl. split; [|by apply IH].
      rewrite sort_insert_perm. constructor; [by apply leb_false_le | done].
Qed.

Lemma sort_by_group_ordered l : ordered (sort_by_group l).
Proof. induction l as [|x l IH]; simpl; [done|]. by apply sort_insert_ordered. Qed.

Lemma ordered_by_group l : ordered l -> by_group l.
Proof.
  induction l as [|x l IH]; intros Ho i j a b Hi Hj Hij.
  - done.
  - destruct Ho as [Hx Hl]. destruct i as [|i], j as [|j]; simpl in *.
    + injection Hi as <-. injection Hj as <-. apply leb_refl.
    + injection Hi as <-. rewrite Forall_forall in Hx. apply Hx.
      by eapply list_elem_of_lookup_2.
    + lia.
    + eapply (IH Hl i j); eauto. lia.
Qed.

Lemma sort_insert_group gid tube l :
  group_of gid (sort_insert tube l) = group_of gid (tube :: l).
Proof.
  unfold group_of. induction l as [|x l IH]; simpl; [done|].
  destruct (String.leb (group_id tube) (group_id x)) eqn:E; [done|].
  rewrite filter_cons, IH, !filter_cons.
  destruct (decide (group_id x = gid)) as [Hx|Hx]; [|done].
  destruct (decide (group_id tube = gid)) as [Ht|Ht]; [|done].
  rewrite Hx, Ht, leb_refl in E. discriminate.
Qed.

Lemma sort_by_group_group gid l : group_of gid (sort_by_group l) = group_of gid l.
Proof.
  induction l as [|x l IH]; simpl; [done|].
  rewrite sort_insert_group. unfold group_of in *. by rewrite !filter_cons, IH.
Qed.

Lemma ask_tube_number_level len stdin : ask_tube_number len stdin = ask_level len stdin.
Proof.
  revert stdin. apply pairs_ind.
  - done.
  - intros x. reflexivity.
  - intros x y l IH. cbn [ask_tube_number ask_level]. rewrite <- IH.
    cbn [ask_tube_number]. reflexivity.
Qed.

Lemma ask_group_ids_Ok t_list : forall stdin out rest,
  ask_group_ids t_list stdin = Ok (out, rest) <->
  exists ids, length ids = length t_list /\ stdin = ids ++ rest /\
              out = zip_with set_group_id t_list ids.
Proof.
  induction t_list as [|tube t_list IH]; intros stdin out rest; simpl.
  - split.
    + intros [= <- <-]. by exists [].
    + intros ([|] & Hl & -> & ->); [done | discriminate].
  - destruct stdin as [|answer stdin]; simpl.
    + split; [discriminate|]. intros ([|] & Hl & H & _); [discriminate|].
      destruct rest; discriminate.
    + destruct (ask_group_ids t_list stdin) as [[out' rest']|e] eqn:E; simpl.
      * apply IH in E as (ids & Hl & -> & ->). split.
        -- intros [= <- <-]. exists (answer :: ids). simpl. by rewrite Hl.
        -- intros ([|id ids'] & Hl' & H & ->); [discriminate|].
           simpl in *. injection H as <- H. injection Hl' as Hl'.
           assert (ids' = ids /\ rest = rest') as [-> ->].
           { apply app_inj_1; [lia | done]. }
           done.
      * split; [discriminate|]. intros ([|id ids'] & Hl' & H & ->); [discriminate|].
        simpl in *. injection H as <- ->. injection Hl' as Hl'.
        assert (ask_group_ids t_list (ids' ++ rest) = Ok (zip_with set_group_id t_list ids', rest)) as H
          by (apply IH; eauto).
        congruence.
Qed.

Lemma ask_group_ids_Raise t_list : forall stdin e,
  ask_group_ids t_list stdin = Raise e -> e = EOFError /\ length stdin < length t_list.
Proof.
  induction t_list as [|tube t_list IH]; intros stdin e; simpl; [discriminate|].
  destruct stdin as [|answer stdin]; simpl.
  - intros [= <-]. split; [done | lia].
  - destruct (ask_group_ids t_list stdin) as [[out' rest']|e'] eqn:E; simpl; [discriminate|].
    intros [= <-]. apply IH in E as [-> Hl]. split; [done | lia].
Qed.

Lemma fix_group_Ok t_list stdin t_list' stdin' :
  fix_group t_list stdin = Ok (t_list', stdin') ->
  exists k to_fix id used,
    1 <= k <= length t_list /\ t_list !! (k - 1) = Some to_fix /\
    t_list' = <[(k - 1)%nat := set_group_id to_fix id]> t_list /\
    stdin = used ++ id :: stdin' /\ used <> [].
Proof.
  unfold fix_group. rewrite ask_tube_number_level.
  destruct (ask_level (length t_list) stdin) as [[k stdin1]|e] eqn:E; [|discriminate].
  simpl.
  apply (ask_loop_Ok (level_of (length t_list)) (ask_level (length t_list)) eq_refl
           (ask_level_level_of (length t_list))) in E
    as (att & answer & -> & _ & Hk).
  apply level_of_range in Hk.
  destruct (getitem t_list (k - 1)) as [to_fix|e] eqn:G; simpl.
  - apply getitem_Ok in G. destruct stdin1 as [|id stdin1]; [discriminate|].
    simpl. intros [= <- <-]. exists k, to_fix, id, (typed att ++ [answer]).
    split; [done|]. split; [done|]. split; [done|]. split.
    + by rewrite <- app_assoc.
    + by destruct (typed att).
  - apply getitem_Raise in G as [G _]. lia.
Qed.

Lemma fix_group_Raise t_list stdin e :
  fix_group t_list stdin = Raise e -> e = EOFError \/ e = SystemExit.
Proof.
  unfold fix_group. rewrite ask_tube_number_level.
  destruct (ask_level (length t_list) stdin) as [[k stdin1]|e'] eqn:E; simpl.
  - apply (ask_loop_Ok (level_of (length t_list)) (ask_level (length t_list)) eq_refl
             (ask_level_level_of (length t_list))) in E
      as (att & answer & -> & _ & Hk).
    apply level_of_range in Hk.
    destruct (getitem t_list (k - 1)) as [to_fix|e'] eqn:G; simpl.
    + destruct stdin1; simpl; [|discriminate]. intros [= <-]. by left.
    + apply getitem_Raise in G as [G _]. lia.
  - intros [= <-].
    apply (ask_loop_Raise (level_of (length t_list)) (ask_level (length t_list)) eq_refl
             (ask_level_level_of (length t_list))) in E
      as (att & tail & _ & _ & [[-> _] | [-> _]]); auto.
Qed.

Lemma same_data_set a b id : same_data a b -> same_data a (set_group_id b id).
Proof. unfold same_data. intros <-. reflexivity. Qed.

Lemma confirm_groups_Ok fuel : forall t_list stdin out rest,
  confirm_groups fuel t_list stdin = Ok (out, rest) ->
  forall (orig : list TubeData.t) (pool : list string),
    Forall2 same_data orig t_list ->
    Forall (fun tube => group_id tube ∈ pool) t_list ->
    (forall x, x ∈ stdin -> x ∈ pool) ->
    Forall2 same_data orig out /\ Forall (fun tube => group_id tube ∈ pool) out /\
    exists used, stdin = used ++ rest.
Proof.
  induction fuel as [|fuel IH]; intros t_list stdin out rest H orig pool Hsame Hpool Hin;
    destruct stdin as [|answer stdin]; cbn [confirm_groups] in H; try discriminate.
  - destruct (Str.in_list _ _); [|discriminate]. injection H as <- <-.
    split; [done|]. split; [done|]. by exists [answer].
  - destruct (Str.in_list _ _).
    { injection H as <- <-. split; [done|]. split; [done|]. by exists [answer]. }
    destruct (fix_group t_list stdin) as [[t_list' stdin']|e] eqn:F; [|discriminate].
    simpl in H.
    apply fix_group_Ok in F as (k & to_fix & id & used & Hk & Hfix & -> & -> & _).
    eapply IH in H as (H1 & H2 & used' & ->).
    + split; [exact H1|]. split; [exact H2|].
      exists (answer :: used ++ id :: used'). simpl. by rewrite <- app_assoc.
    + rewrite <- (list_insert_id orig (k - 1)
                    (default to_fix (orig !! (k - 1)))).
      * apply Forall2_insert; [done|].
        destruct (Forall2_lookup_r _ _ _ _ _ Hsame Hfix) as (o & Ho & Hso).
        rewrite Ho. simpl. by apply same_data_set.
      * destruct (Forall2_lookup_r _ _ _ _ _ Hsame Hfix) as (o & Ho & Hso).
        by rewrite Ho.
    + apply Forall_insert; [done|]. simpl. apply Hin.
      right. apply elem_of_app. right. left.
    + intros x Hx. apply Hin. right. apply elem_of_app. right. by right.
Qed.

Lemma confirm_groups_Raise fuel : forall t_list stdin e,
  confirm_groups fuel t_list stdin = Raise e -> e = EOFError \/ e = SystemExit.
Proof.
  induction fuel as [|fuel IH]; intros t_list stdin e H;
    destruct stdin as [|answer stdin]; cbn [confirm_groups] in H.
  - injection H as <-. by left.
  - destruct (Str.in_list _ _); [discriminate|]. injection H as <-. by left.
  - injection H as <-. by left.
  - destruct (Str.in_list _ _); [discriminate|].
    destruct (fix_group t_list stdin) as [[t_list' stdin']|e'] eqn:F; simpl in H.
    + by eapply IH.
    + injection H as <-. by eapply fix_group_Raise.
Qed.

(** The passes of the outer loop never outnumber the lines typed. *)
Lemma confirm_groups_fuel fuel : forall fuel' t_list stdin,
  length stdin <= fuel -> length stdin <= fuel' ->
  confirm_groups fuel t_list stdin = confirm_groups fuel' t_list stdin.
Proof.
  induction fuel as [|fuel IH]; intros fuel' t_list stdin H1 H2;
    destruct stdin as [|answer stdin]; simpl in H1, H2; try lia.
  - by destruct fuel'.
  - by destruct fuel'.
  - destruct fuel' as [|fuel']; [lia|]. cbn [confirm_groups].
    destruct (Str.in_list _ _); [done|].
    destruct (fix_group t_list stdin) as [[t_list' stdin']|e] eqn:F; [|done].
    simpl. apply fix_group_Ok in F as (k & to_fix & id & used & _ & _ & _ & -> & Hu).
    destruct used; [done|]. simpl in *. rewrite length_app in *. simpl in *.
    apply IH; lia.
Qed.

Lemma ask_group_identification_perm t_list stdin out rest :
  ask_group_identification t_list stdin = Ok (out, rest) ->
  exists regrouped, Forall2 same_data t_list regrouped /\ out ≡ₚ regrouped.
Proof.
  unfold ask_group_identification. intros H.
  apply bind_Ok in H as ([t_list1 stdin1] & E1 & H).
  apply bind_Ok in H as ([t_list2 stdin2] & E2 & [= <- <-]).
  apply ask_group_ids_Ok in E1 as (ids & Hl & -> & ->).
  assert (Hsame : Forall2 same_data t_list (zip_with set_group_id t_list ids)).
  { clear E2. revert ids Hl. induction t_list as [|a t_list IH]; intros [|id ids] Hl;
      simpl in *; try discriminate; constructor.
    - reflexivity.
    - apply IH. lia. }
  destruct (confirm_groups_Ok _ _ _ _ _ E2 t_list (ids ++ stdin1) Hsame) as (H1 & _ & _).
  - clear E2 Hsame. revert ids Hl.
    induction t_list as [|a t_list IH]; intros [|id ids] Hl;
      simpl in *; try discriminate; constructor.
    + simpl. left.
    + eapply Forall_impl; [apply (IH ids); lia|]. intros x Hx. simpl in Hx. by right.
  - intros x Hx. apply elem_of_app. by right.
  - exists t_list2. split; [done|]. apply sort_by_group_perm.
Qed.

(** X13. The list [ask_group_identification] returns holds the tubes it
    was given, each with a group that was typed and otherwise unchanged,
    ordered by group as strings compare; the tubes of one group keep the
    order they had.  The lines left are an end of the lines given. *)
Theorem ask_group_identification_result (t_list out : list TubeData.t)
    (stdin rest : list string) :
  ask_group_identification t_list stdin = Ok (out, rest) ->
  exists regrouped,
    Forall2 same_data t_list regrouped /\
    Forall (fun tube => group_id tube ∈ stdin) regrouped /\
    out ≡ₚ regrouped /\ by_group out /\
    (forall gid, group_of gid out = group_of gid regrouped) /\
    exists used, stdin = used ++ rest.
Proof.
  unfold ask_group_identification. intros H.
  destruct (ask_group_ids t_list stdin) as [[t_list1 stdin1]|e] eqn:E1; [|discriminate].
  simpl in H.
  destruct (confirm_groups (length stdin1) t_list1 stdin1)
    as [[t_list2 stdin2]|e] eqn:E2; [|discriminate].
  injection H as <- <-.
  apply ask_group_ids_Ok in E1 as (ids & Hl & -> & ->).
  assert (Hsame : Forall2 same_data t_list (zip_with set_group_id t_list ids)).
  { clear E2. revert ids Hl. induction t_list as [|a t_list IH]; intros [|id ids] Hl;
      simpl in *; try discriminate; constructor.
    - reflexivity.
    - apply IH. lia. }
  assert (Hpool : Forall (fun tube => group_id tube ∈ ids ++ stdin1)
                         (zip_with set_group_id t_list ids)).
  { clear E2 Hsame. revert ids Hl.
    induction t_list as [|a t_list IH]; intros [|id ids] Hl;
      simpl in *; try discriminate; constructor.
    - simpl. left.
    - eapply Forall_impl; [apply (IH ids); lia|]. intros x Hx. simpl in Hx. by right. }
  destruct (confirm_groups_Ok _ _ _ _ _ E2 t_list (ids ++ stdin1) Hsame Hpool)
    as (H1 & H2 & used & ->).
  { intros x Hx. apply elem_of_app. by right. }
  exists t_list2. split; [done|]. split; [done|].
  split; [apply sort_by_group_perm|].
  split; [apply ordered_by_group, sort_by_group_ordered|].
  split; [intros gid; apply sort_by_group_group|].
  exists (ids ++ used). by rewrite <- app_assoc.
Qed.

Lemma ask_group_identification_result_witness :
  exists regrouped,
    Forall2 same_data [tube_ex; tube_ex2] regrouped /\
    Forall (fun tube => group_id tube ∈ ["treated"; "control"; "Yes"]) regrouped /\
    [set_group_id tube_ex2 "control"; set_group_id tube_ex "treated"] ≡ₚ regrouped /\
    by_group [set_group_id tube_ex2 "control"; set_group_id tube_ex "treated"] /\
    (forall gid,
       group_of gid [set_group_id tube_ex2 "control"; set_group_id tube_ex "treated"]
       = group_of gid regrouped) /\
    exists used, ["treated"; "control"; "Yes"] = used ++ [].
Proof.
  apply (ask_group_identification_result [tube_ex; tube_ex2] _
           ["treated"; "control"; "Yes"] []).
  reflexivity.
Defined.

Lemma set_group_id_twice a x y : set_group_id (set_group_id a x) y = set_group_id a y.
Proof. reflexivity. Qed.

Lemma zip_with_set_insert t_list : forall ids i to_fix id,
  zip_with set_group_id t_list ids !! i = Some to_fix ->
  <[i := set_group_id to_fix id]> (zip_with set_group_id t_list ids)
  = zip_with set_group_id t_list (<[i := id]> ids).
Proof.
  induction t_list as [|a t_list IH]; intros [|x ids] i to_fix id H; simpl in *;
    try discriminate.
  destruct i as [|i]; simpl in *.
  - injection H as <-. reflexivity.
  - f_equal. by apply IH.
Qed.

Lemma confirm_groups_step fuel t_list answer rest :
  confirm_groups (S fuel) t_list (answer :: rest)
  = if Str.in_list (Str.lower answer) ["yes"; "y"] then Ok (t_list, rest)
    else '(t_list', stdin') ← fix_group t_list rest; confirm_groups fuel t_list' stdin'.
Proof. reflexivity. Qed.

(** X14. After one group typed for every tube, a yes ends the questions.
    A correction (another answer, the number of a tube, the new group)
    has the effect of having typed the new group for that tube at first.
    The questions raise only at the end of the input or when the user
    quits. *)
Theorem ask_group_identification_input (t_list : list TubeData.t) :
  (forall ids answer rest,
     length ids = length t_list -> is_yes answer = true ->
     ask_group_identification t_list (ids ++ answer :: rest)
     = Ok (sort_by_group (zip_with set_group_id t_list ids), rest)) /\
  (forall ids no num k id' more,
     length ids = length t_list -> is_yes no = false ->
     level_of (length t_list) num = Some k ->
     ask_group_identification t_list (ids ++ no :: num :: id' :: more)
     = ask_group_identification t_list (<[(k - 1)%nat := id']> ids ++ more)) /\
  (forall stdin e,
     ask_group_identification t_list stdin = Raise e -> e = EOFError \/ e = SystemExit).
Proof.
  split; [|split].
  - intros ids answer rest Hl Hy. unfold ask_group_identification.
    assert (E : ask_group_ids t_list (ids ++ answer :: rest)
                = Ok (zip_with set_group_id t_list ids, answer :: rest))
      by (apply ask_group_ids_Ok; eauto).
    rewrite E. cbn [mbind result_bind length confirm_groups]. unfold is_yes in Hy. by rewrite Hy.
  - intros ids no num k id' more Hl Hn Hk. unfold ask_group_identification.
    assert (E : ask_group_ids t_list (ids ++ no :: num :: id' :: more)
                = Ok (zip_with set_group_id t_list ids, no :: num :: id' :: more))
      by (apply ask_group_ids_Ok; eauto).
    assert (E' : ask_group_ids t_list (<[(k - 1)%nat := id']> ids ++ more)
                 = Ok (zip_with set_group_id t_list (<[(k - 1)%nat := id']> ids), more)).
    { apply ask_group_ids_Ok. eexists. split; [|done]. by rewrite length_insert. }
    rewrite E, E'. cbn [mbind result_bind].
    change (length (no :: num :: id' :: more)) with (S (S (S (length more)))).
    rewrite confirm_groups_step. unfold is_yes in Hn. rewrite Hn.
    pose proof (level_of_range _ _ _ Hk) as Hr.
    assert (Hlen : length (zip_with set_group_id t_list ids) = length t_list)
      by (rewrite length_zip_with; lia).
    destruct (lookup_lt_is_Some_2 (zip_with set_group_id t_list ids) (k - 1))
      as [to_fix Hfix]; [lia|].
    assert (F : fix_group (zip_with set_group_id t_list ids) (num :: id' :: more)
                = Ok (zip_with set_group_id t_list (<[(k - 1)%nat := id']> ids), more)).
    { unfold fix_group. rewrite ask_tube_number_level, ask_level_level_of, Hlen, Hk.
      cbn [mbind result_bind]. apply getitem_Ok in Hfix. rewrite Hfix.
      cbn [mbind result_bind ask_group_id].
      erewrite zip_with_set_insert; [done|]. by apply getitem_Ok. }
    rewrite F. cbn [mbind result_bind].
    by rewrite (confirm_groups_fuel (S (S (length more))) (length more)) by lia.
  - intros stdin e. unfold ask_group_identification.
    destruct (ask_group_ids t_list stdin) as [[t_list1 stdin1]|e1] eqn:E1; simpl.
    + destruct (confirm_groups (length stdin1) t_list1 stdin1)
        as [[t_list2 stdin2]|e2] eqn:E2; simpl; [discriminate|].
      intros [= <-]. by eapply confirm_groups_Raise.
    + intros [= <-]. apply ask_group_ids_Raise in E1 as [-> _]. by left.
Qed.

Lemma ask_group_identification_input_witness :
  ask_group_identification [tube_ex; tube_ex2] ["a"; "b"; "no"; "2"; "c"; "y"]
  = ask_group_identification [tube_ex; tube_ex2] ["a"; "c"; "y"].
Proof.
  apply (proj1 (proj2 (ask_group_identification_input [tube_ex; tube_ex2]))
           ["a"; "b"] "no" "2" 2 "c" ["y"]); reflexivity.
Defined.

(** ** The compact output *)

Lemma digits_go_acc fuel : forall m acc, acc <> "" -> DecStr.digits_go fuel m acc <> "".
Proof.
  induction fuel as [|fuel IH]; intros m acc Hacc; simpl; [done|].
  destruct (m <? 10)%N; [done|]. by apply IH.
Qed.

Lemma digits_not_empty (m : N) : DecStr.digits m <> "".
Proof.
  unfold DecStr.digits. cbn [DecStr.digits_go].
  destruct (m <? 10)%N; [done|]. by apply digits_go_acc.
Qed.

Lemma append_not_empty (a b : string) : b <> "" -> (a ++ b)%string <> "".
Proof.
  destruct a as [|c a]; [by rewrite append_nil_l|]. by rewrite append_cons.
Qed.

Lemma append_not_empty_l (a b : string) : a <> "" -> (a ++ b)%string <> "".
Proof. destruct a as [|c a]; [done|]. by rewrite append_cons. Qed.

Lemma str_not_empty (d : Decimal) : DecStr.str d <> "".
Proof.
  destruct d as [sign coeff exp|sign|sign signaling payload]; unfold DecStr.str.
  - pose proof (digits_not_empty coeff) as Hd.
    destruct (DecStr.digits coeff) as [|c int_] eqn:E; [done|]. clear Hd.
    set (len := Z.of_nat (String.length (String c int_))).
    set (dotplace := if (exp <=? 0)%Z && (-6 <? exp + len)%Z then (exp + len)%Z else 1%Z).
    destruct (dotplace <=? 0)%Z eqn:E1;
      [by apply append_not_empty, append_not_empty_l|].
    destruct (len <=? dotplace)%Z eqn:E2;
      apply append_not_empty, append_not_empty_l; [by rewrite append_cons|].
    apply Z.leb_gt in E1. destruct (Z.to_nat dotplace) eqn:E3; [lia|]. done.
  - by apply append_not_empty.
  - apply append_not_empty, append_not_empty_l. by destruct signaling.
Qed.

Lemma cell_str_empty (c : cell) : cell_str c = "" <-> c = Blank.
Proof.
  destruct c as [d|]; simpl; [|done]. split; [|discriminate].
  intros H. by apply str_not_empty in H.
Qed.

Lemma make_row_counts data : make_row_from_decimal data false = Ok (map cell_str data).
Proof. induction data as [|c data IH]; simpl; [done|]. by rewrite IH. Qed.

Lemma make_row_percents_Ok ps : forall row,
  make_row_from_decimal (map Num ps) true = Ok row <-> Forall2 percent_shown ps row.
Proof.
  induction ps as [|p ps IH]; intros row; simpl.
  - split; [intros [= <-]; constructor | by inversion 1].
  - unfold percent_shown at 1.
    destruct (Dec.mul p (Dec.of_int 100)) as [d|e] eqn:E; simpl.
    + destruct (make_row_from_decimal (map Num ps) true) as [row'|e] eqn:R; simpl.
      * split.
        -- intros [= <-]. constructor; [by exists d | by apply IH].
        -- inversion 1 as [|? s ? row'' (d' & Hd & ->) Hrest]; subst.
           apply IH in Hrest. congruence.
      * split; [discriminate|].
        inversion 1 as [|? s ? row'' _ Hrest]; subst. apply IH in Hrest. congruence.
    + split; [discriminate|].
      inversion 1 as [|? s ? row'' (d' & Hd & ->) Hrest]; subst. congruence.
Qed.

Lemma make_row_percents_Raise ps e :
  make_row_from_decimal (map Num ps) true = Raise e -> decimal_error e.
Proof.
  induction ps as [|p ps IH]; simpl; [discriminate|].
  destruct (Dec.mul p (Dec.of_int 100)) as [d|e'] eqn:E; simpl.
  - destruct (make_row_from_decimal (map Num ps) true) as [row'|e'] eqn:R; simpl;
      [discriminate|]. intros [= <-]. by apply IH.
  - intros [= <-]. by eapply mul_Raise.
Qed.

Lemma chunk_counts g t_list :
  make_compact_row_chunk g t_list false
  = Ok (map (fun tube => compact_row g tube (map cell_str (count_list tube))) t_list).
Proof.
  induction t_list as [|tube t_list IH]; simpl; [done|].
  by rewrite make_row_counts, IH.
Qed.

Lemma chunk_percents_Ok g t_list : forall content,
  make_compact_row_chunk g t_list true = Ok content <->
  Forall2 (fun tube row => exists ps, Forall2 percent_shown (percent_list tube) ps /\
                                      row = compact_row g tube ps) t_list content.
Proof.
  induction t_list as [|tube t_list IH]; intros content; simpl.
  - split; [intros [= <-]; constructor | by inversion 1].
  - destruct (make_row_from_decimal (map Num (percent_list tube)) true)
      as [cells|e] eqn:R; simpl.
    + destruct (make_compact_row_chunk g t_list true) as [content'|e] eqn:C; simpl.
      * split.
        -- intros [= <-]. constructor; [|by apply IH].
           exists cells. split; [by apply make_row_percents_Ok | done].
        -- inversion 1 as [|? row ? rows (ps & Hps & ->) Hrest]; subst.
           apply make_row_percents_Ok in Hps. apply IH in Hrest.
           assert (ps = cells) as -> by congruence.
           assert (rows = content') as -> by congruence. reflexivity.
      * split; [discriminate|].
        inversion 1 as [|? row ? rows _ Hrest]; subst. apply IH in Hrest. congruence.
    + split; [discriminate|].
      inversion 1 as [|? row ? rows (ps & Hps & ->) Hrest]; subst.
      apply make_row_percents_Ok in Hps. congruence.
Qed.

Lemma chunk_percents_Raise g t_list e :
  make_compact_row_chunk g t_list true = Raise e -> decimal_error e.
Proof.
  induction t_list as [|tube t_list IH]; simpl; [discriminate|].
  destruct (make_row_from_decimal (map Num (percent_list tube)) true)
    as [cells|e'] eqn:R; simpl.
  - destruct (make_compact_row_chunk g t_list true) as [content'|e'] eqn:C; simpl;
      [discriminate|]. intros [= <-]. by apply IH.
  - intros [= <-]. by eapply make_row_percents_Raise.
Qed.

Lemma compact_header_titles g gate_list :
  compact_header g gate_list = compact_titles g gate_list.
Proof. by destruct g. Qed.

Lemma make_compact_Ok g gate_list tube_list content :
  make_compact_csv_content g gate_list tube_list = Ok content <->
  exists percents,
    Forall2 (fun tube row => exists ps, Forall2 percent_shown (percent_list tube) ps /\
                                        row = compact_row g tube ps) tube_list percents /\
    content = [["Percents"]; compact_titles g gate_list] ++ percents
              ++ [[""]; ["Cell Numbers"]; compact_titles g gate_list]
              ++ map (fun tube => compact_row g tube (map cell_str (count_list tube)))
                     tube_list.
Proof.
  unfold make_compact_csv_content. rewrite compact_header_titles, chunk_counts.
  destruct (make_compact_row_chunk g tube_list true) as [percents|e] eqn:C;
    cbn [mbind result_bind].
  - apply chunk_percents_Ok in C. split.
    + intros [= <-]. exists percents. split; [done|]. by rewrite <- !app_assoc.
    + intros (percents' & H & ->). apply chunk_percents_Ok in H, C.
      assert (percents' = percents) as -> by congruence. by rewrite <- !app_assoc.
  - split; [discriminate|]. intros (percents' & H & _).
    apply chunk_percents_Ok in H. congruence.
Qed.

Lemma compact_content_rows g gate_list tube_list content j tube :
  make_compact_csv_content g gate_list tube_list = Ok content ->
  tube_list !! j = Some tube ->
  content !! (length tube_list + 5 + j)
  = Some (compact_row g tube (map cell_str (count_list tube))).
Proof.
  intros H Hj.
  apply make_compact_Ok in H as (percents & HP & ->).
  pose proof (Forall2_length _ _ _ HP) as HT.
  rewrite lookup_app_r by (simpl; lia).
  rewrite lookup_app_r by (simpl; lia).
  replace (length tube_list + 5 + j - length [["Percents"]; compact_titles g gate_list]
           - length percents) with (3 + j) by (simpl; lia).
  simpl. by rewrite list_lookup_fmap, Hj.
Qed.

(** X15. The compact content is two tables, of the percents and of the
    counts, under the same titles: the name, the group when there is
    grouping, the gates, the concentration.  Row [j] of each table is the
    row of tube [j]: every percent times 100, or every count, then the
    concentration.  The content exists when every percent times 100 does,
    and only an error of the decimal arithmetic is raised. *)
Theorem compact_content_layout (grouping_bool : bool) (gate_list : list string)
    (tube_list : list TubeData.t) :
  (forall content,
     make_compact_csv_content grouping_bool gate_list tube_list = Ok content ->
     let T := length tube_list in
     length content = 2 * T + 5 /\
     content !! 0 = Some ["Percents"] /\
     content !! 1 = Some (compact_titles grouping_bool gate_list) /\
     content !! (T + 2) = Some [""] /\
     content !! (T + 3) = Some ["Cell Numbers"] /\
     content !! (T + 4) = Some (compact_titles grouping_bool gate_list) /\
     forall j tube, tube_list !! j = Some tube ->
       exists ps,
         Forall2 percent_shown (percent_list tube) ps /\
         content !! (2 + j) = Some (compact_row grouping_bool tube ps) /\
         content !! (T + 5 + j)
         = Some (compact_row grouping_bool tube (map cell_str (count_list tube)))) /\
  (Forall (fun tube => Forall (fun p => exists s, percent_shown p s) (percent_list tube))
          tube_list ->
   exists content,
     make_compact_csv_content grouping_bool gate_list tube_list = Ok content) /\
  (forall e,
     make_compact_csv_content grouping_bool gate_list tube_list = Raise e ->
     decimal_error e).
Proof.
  split; [|split].
  - intros content H. apply make_compact_Ok in H as (percents & HP & ->).
    pose proof (Forall2_length _ _ _ HP) as HT. cbv zeta.
    split; [|split; [done|split; [done|]]].
    { simpl. rewrite length_app. simpl. rewrite length_map. lia. }
    assert (Hat : forall k,
              ([["Percents"]; compact_titles grouping_bool gate_list] ++ percents
                 ++ [[""]; ["Cell Numbers"]; compact_titles grouping_bool gate_list]
                 ++ map (fun tube => compact_row grouping_bool tube
                                       (map cell_str (count_list tube))) tube_list)
                !! (length tube_list + 2 + k)
              = ([[""]; ["Cell Numbers"]; compact_titles grouping_bool gate_list]
                   ++ map (fun tube => compact_row grouping_bool tube
                                         (map cell_str (count_list tube))) tube_list)
                  !! k).
    { intros k. rewrite lookup_app_r by (simpl; lia).
      rewrite lookup_app_r by (simpl; lia). f_equal. simpl. lia. }
    split; [|split; [|split]].
    + by rewrite <- (Nat.add_0_r (length tube_list + 2)), Hat.
    + replace (length tube_list + 3) with (length tube_list + 2 + 1) by lia.
      by rewrite Hat.
    + replace (length tube_list + 4) with (length tube_list + 2 + 2) by lia.
      by rewrite Hat.
    + intros j tube Hj.
      destruct (Forall2_lookup_l _ _ _ _ _ HP Hj) as (row & Hrow & ps & Hps & ->).
      exists ps. split; [done|]. split.
      * change (2 + j) with (S (S j)). simpl. by rewrite lookup_app_l by
          (apply lookup_lt_Some in Hrow; lia).
      * replace (length tube_list + 5 + j) with (length tube_list + 2 + (3 + j)) by lia.
        rewrite Hat. simpl. by rewrite list_lookup_fmap, Hj.
  - intros Hall.
    assert (exists percents,
              Forall2 (fun tube row =>
                         exists ps, Forall2 percent_shown (percent_list tube) ps /\
                                    row = compact_row grouping_bool tube ps)
                      tube_list percents) as (percents & HP).
    { induction Hall as [|tube tubes Htube _ (percents & IH)]; [by exists []|].
      assert (exists ps, Forall2 percent_shown (percent_list tube) ps) as (ps & Hps).
      { induction Htube as [|p l (s & Hs) _ (ps & IHp)]; [by exists []|].
        exists (s :: ps). by constructor. }
      exists (compact_row grouping_bool tube ps :: percents).
      constructor; [by exists ps | done]. }
    eexists. apply make_compact_Ok. exists percents. split; [done|reflexivity].
  - intros e. unfold make_compact_csv_content. rewrite chunk_counts.
    destruct (make_compact_row_chunk grouping_bool tube_list true) as [p|e'] eqn:C;
      cbn [mbind result_bind]; [discriminate|].
    intros [= <-]. by eapply chunk_percents_Raise.
Qed.

Lemma compact_content_layout_witness :
  exists content, make_compact_csv_content true ["A"; "A/B"; "A/B/C"] [tube_ex2] = Ok content.
Proof.
  apply (proj1 (proj2 (compact_content_layout true ["A"; "A/B"; "A/B/C"] [tube_ex2]))).
  repeat constructor; eexists; eexists; (split; [vm_compute; reflexivity | reflexivity]).
Defined.

Lemma calculate_all_Ok tubes calc_list : forall tubes',
  calculate_all tubes calc_list = Ok tubes' ->
  Forall2 (fun tube tube' => calculate_cell_counts tube calc_list = Ok tube') tubes tubes'.
Proof.
  induction tubes as [|tube tubes IH]; intros tubes'; simpl.
  - intros [= <-]. constructor.
  - destruct (calculate_cell_counts tube calc_list) as [tube'|e] eqn:E; [|discriminate].
    simpl. destruct (calculate_all tubes calc_list) as [rest|e] eqn:R; [|discriminate].
    simpl. intros [= <-]. constructor; [done | by apply IH].
Qed.

(** What [main] has computed when it reaches the output: a parent entry
    for every gate, and for every tube a count for every gate, empty
    exactly at the ignored gates. *)
Lemma main_counts content stdin r :
  main content stdin = Ok r ->
  length (calc_list r) = length (gate_list r) /\
  Forall (fun tube =>
            length (count_list tube) = length (gate_list r) /\
            (forall k, k < length (gate_list r) ->
               (count_list tube !! k = Some Blank <-> calc_list r !! k = Some ignore)) /\
            (forall k, k < length (gate_list r) -> calc_list r !! k <> Some ignore ->
               k < length (percent_list tube)))
         (tube_list r).
Proof.
  unfold main, process_csv. intros H.
  apply bind_Ok in H as ([[[gl sd] tl] stdin1] & Hp & H).
  apply bind_Ok in H as ([[sl il] stdin2] & _ & H).
  apply bind_Ok in H as (cl & Hf & H).
  apply bind_Ok in H as (tl' & Hc & [= <-]). simpl.
  apply bind_Ok in Hp as (header & _ & Hp).
  apply bind_Ok in Hp as ([go gd] & _ & Hp).
  apply bind_Ok in Hp as ([tl0 stdin0] & Hrows & [= <- <- <- <-]).
  unfold find_parent_gate in Hf.
  apply find_parent_loop_Ok in Hf as (cs & -> & Hcs). simpl.
  pose proof (Forall2_length _ _ _ Hcs) as Hlen.
  split; [done|].
  apply read_rows_Ok in Hrows as (_ & new & -> & Hnew). simpl in Hc.
  apply calculate_all_Ok in Hc.
  apply Forall_forall. intros tube' Hin.
  apply list_elem_of_lookup in Hin as [j Hj].
  destruct (Forall2_lookup_r _ _ _ _ _ Hc Hj) as (tube & Ht & Hcalc).
  assert (Hfresh : count_list tube = []).
  { apply Forall2_flip in Hnew.
    destruct (Forall2_lookup_l _ _ _ _ _ Hnew Ht) as (line & _ & first & _ & _ & _ & _ & H0 & _).
    exact H0. }
  apply (calculate_fresh _ _ _ Hfresh) in Hcalc as (counts & -> & Hlenc & Hprop).
  destruct tube; simpl in *. split; [lia|]. split.
  - intros k Hk. destruct (lookup_lt_is_Some_2 cs k) as [i Hi]; [lia|].
    specialize (Hprop k i Hi). rewrite Hi. destruct i.
    + destruct Hprop as (p & d & _ & _ & ->). split; discriminate.
    + by rewrite Hprop.
    + destruct Hprop as (cj & p & d & _ & _ & _ & _ & ->). split; discriminate.
  - intros k Hk Hne. destruct (lookup_lt_is_Some_2 cs k) as [i Hi]; [lia|].
    specialize (Hprop k i Hi). destruct i.
    + destruct Hprop as (p & d & Hp & _). by eapply lookup_lt_Some.
    + congruence.
    + destruct Hprop as (cj & p & d & _ & _ & Hp & _). by eapply lookup_lt_Some.
Qed.

Lemma same_data_refl a : same_data a a.
Proof. by destruct a. Qed.

Lemma same_data_counts a b : same_data a b -> count_list b = count_list a.
Proof. unfold same_data. by intros <-. Qed.

(** X16. After [main] has computed the counts, the table of the counts
    of the compact output is rectangular: the row of every tube has one
    cell under every title, and the cell of a gate is empty exactly when
    the gate is ignored.  This holds for the tubes as [main] has them and
    as the question about the groups returns them. *)
Theorem main_compact_counts (content : list (list string)) (stdin : list string)
    (r : run) (grouping_bool : bool) (tubes regrouped : list TubeData.t)
    (out : list (list string)) :
  main content stdin = Ok r ->
  Forall2 same_data (tube_list r) regrouped ->
  tubes ≡ₚ regrouped ->
  make_compact_csv_content grouping_bool (gate_list r) tubes = Ok out ->
  forall j, j < length tubes ->
    exists row,
      out !! (length tubes + 5 + j) = Some row /\
      length row = length (compact_titles grouping_bool (gate_list r)) /\
      forall k, k < length (gate_list r) ->
        (row !! ((if grouping_bool then 2 else 1) + k) = Some ""
         <-> calc_list r !! k = Some ignore).
Proof.
  intros Hmain Hsame Hperm Hout j Hj.
  apply main_counts in Hmain as [_ Hall].
  destruct (lookup_lt_is_Some_2 tubes j Hj) as [tube Htube].
  assert (Hin : tube ∈ regrouped).
  { rewrite <- Hperm. by eapply list_elem_of_lookup_2. }
  apply list_elem_of_lookup in Hin as [i Hi].
  destruct (Forall2_lookup_r _ _ _ _ _ Hsame Hi) as (orig & Horig & Hso).
  rewrite Forall_forall in Hall.
  destruct (Hall orig) as (Hlen & Hblank & _); [by eapply list_elem_of_lookup_2|].
  apply same_data_counts in Hso.
  pose proof (compact_content_rows _ _ _ _ _ _ Hout Htube) as Hrow.
  exists (compact_row grouping_bool tube (map cell_str (count_list tube))).
  split; [done|]. rewrite Hso. split.
  - unfold compact_row, compact_titles. destruct grouping_bool; simpl;
      rewrite !length_app, length_map; simpl; lia.
  - intros k Hk. rewrite <- (Hblank k Hk).
    assert (compact_row grouping_bool tube (map cell_str (count_list orig))
              !! ((if grouping_bool then 2 else 1) + k)
            = cell_str <$> count_list orig !! k) as ->.
    { unfold compact_row. destruct grouping_bool; simpl;
        rewrite lookup_app_l by (rewrite length_map; lia);
        by rewrite list_lookup_fmap. }
    destruct (count_list orig !! k) as [c|] eqn:E; simpl.
    + split.
      * intros [= Hc]. apply cell_str_empty in Hc. by subst.
      * by intros [= ->].
    + split; discriminate.
Qed.

Lemma main_compact_counts_witness :
  exists r out,
    main [header_of ["A"; "A/B"; "A/B/C"]; ["t1.fcs"; "90"; "50"; "20"; ""]] ["10"; "2"]
    = Ok r /\
    make_compact_csv_content false (gate_list r) (tube_list r) = Ok out /\
    exists row,
      out !! (length (tube_list r) + 5 + 0) = Some row /\
      length row = length (compact_titles false (gate_list r)) /\
      forall k, k < length (gate_list r) ->
        (row !! (1 + k) = Some "" <-> calc_list r !! k = Some ignore).
Proof.
  eexists. eexists. split; [vm_compute; reflexivity|]. split; [vm_compute; reflexivity|].
  refine (main_compact_counts
            [header_of ["A"; "A/B"; "A/B/C"]; ["t1.fcs"; "90"; "50"; "20"; ""]]
            ["10"; "2"] _ false _ _ _ _ _ _ _ 0 _).
  3: reflexivity.
  - vm_compute. reflexivity.
  - apply Forall_Forall2_diag, Forall_forall. intros tube _. apply same_data_refl.
  - vm_compute. reflexivity.
  - simpl. lia.
Defined.

(** X17. A percent of the export with at most 26 digits comes out of the
    table of the percents numerically unchanged: the cell is divided by
    100 when the tube is read and multiplied by 100 when the row is
    written, both exactly. *)
Theorem percent_round_trip (percent : string) (s : bool) (c : N) (e : Z) :
  Dec.of_string percent = Some (Dec.Finite s c e) ->
  (c < 10 ^ 26)%N -> (Dec.Etiny + 2 <= e <= Dec.Etop)%Z ->
  exists p d,
    convert_to_decimal [percent] [] = Ok [p] /\
    make_row_from_decimal [Num p] true = Ok [DecStr.str d] /\
    Dec.num_eq d (Dec.Finite s c e).
Proof.
  intros Hparse Hc He.
  assert (Hc' : (c < 10 ^ 28)%N).
  { eapply N.lt_trans; [exact Hc|]. by vm_compute. }
  destruct (truediv_100_exact s c e Hc' He) as (c' & e' & Hdiv & Hr & Hv).
  assert (Hle : (c' <= c)%N).
  { rewrite <- Hv. rewrite <- (N.mul_1_r c') at 1. apply N.mul_le_mono_l.
    assert (10 ^ Z.to_N (e' - (e - 2)) <> 0)%N by (by apply N.pow_nonzero). lia. }
  assert (Hmul : Dec.mul (Dec.Finite s c' e') (Dec.of_int 100)
                 = Ok (Dec.Finite s (c' * 100) e')).
  { change (Dec.of_int 100) with (Dec.Finite false 100 0).
    rewrite (mul_exact s false c' 100 e' 0).
    - by rewrite xorb_false_r, Z.add_0_r.
    - apply (N.le_lt_trans _ (c * 100)); [by apply N.mul_le_mono_r|].
      change (10 ^ 28)%N with (10 ^ 26 * 100)%N. by apply N.mul_lt_mono_pos_r.
    - unfold Dec.Etiny, Dec.Etop, Dec.Emin, Dec.Emax, Dec.prec in *. lia. }
  exists (Dec.Finite s c' e'), (Dec.Finite s (c' * 100) e').
  split; [|split].
  - simpl. unfold percent_of_string. by rewrite Hparse, Hdiv.
  - cbn [make_row_from_decimal cell_times_100 mbind result_bind].
    rewrite Hmul. reflexivity.
  - unfold Dec.num_eq. rewrite Z.min_l by lia.
    unfold Dec.scaled. rewrite Z.sub_diag, Z.mul_1_r. f_equal.
    clear Hmul Hdiv Hparse Hc Hc' Hle He.
    assert (Hcases : (e' - (e - 2) = 0 \/ e' - (e - 2) = 1 \/ e' - (e - 2) = 2)%Z) by lia.
    destruct Hcases as [Hk | [Hk | Hk]]; rewrite Hk in Hv.
    + replace (e - e')%Z with 2%Z by lia.
      change (10 ^ Z.to_N 0)%N with 1%N in Hv. change (10 ^ 2)%Z with 100%Z. lia.
    + replace (e - e')%Z with 1%Z by lia.
      change (10 ^ Z.to_N 1)%N with 10%N in Hv. change (10 ^ 1)%Z with 10%Z. lia.
    + replace (e - e')%Z with 0%Z by lia.
      change (10 ^ Z.to_N 2)%N with 100%N in Hv. change (10 ^ 0)%Z with 1%Z. lia.
Qed.

Lemma percent_round_trip_witness :
  exists p d,
    convert_to_decimal ["12.50"] [] = Ok [p] /\
    make_row_from_decimal [Num p] true = Ok [DecStr.str d] /\
    Dec.num_eq d (Dec.Finite false 1250 (-2)).
Proof.
  apply (percent_round_trip "12.50" false 1250 (-2)).
  - reflexivity.
  - reflexivity.
  - unfold Dec.Etiny, Dec.Etop, Dec.Emin, Dec.Emax, Dec.prec. lia.
Defined.

(** ** The output for Prism *)

Lemma prism_rows_Ok attr tl : forall rows,
  prism_rows tl attr = Ok rows ->
  length rows = length tl /\
  forall j tube, tl !! j = Some tube ->
    exists v, attr tube = Ok v /\ rows !! j = Some [OStr (n tube); v].
Proof.
  induction tl as [|obj tl IH]; intros rows; simpl.
  - intros [= <-]. split; [done|]. intros j tube H. by destruct j.
  - destruct (attr obj) as [v|e] eqn:E; [|discriminate]. simpl.
    destruct (prism_rows tl attr) as [rows'|e] eqn:R; [|discriminate]. simpl.
    intros [= <-]. destruct (IH rows' eq_refl) as [Hlen Hrows]. split.
    + simpl. by rewrite Hlen.
    + intros [|j] tube Hj; simpl in *.
      * injection Hj as <-. by exists v.
      * by apply Hrows.
Qed.

Lemma prism_rows_Raise attr tl e :
  prism_rows tl attr = Raise e -> exists tube, tube ∈ tl /\ attr tube = Raise e.
Proof.
  induction tl as [|obj tl IH]; simpl; [discriminate|].
  destruct (attr obj) as [v|e'] eqn:E; simpl.
  - destruct (prism_rows tl attr) as [rows'|e'] eqn:R; simpl; [discriminate|].
    intros [= <-]. destruct (IH eq_refl) as (tube & Hin & Ht).
    exists tube. split; [by right | done].
  - intros [= <-]. exists obj. split; [left | done].
Qed.

Lemma prism_chunk_Ok header attr tl chunk :
  prism_chunk header tl attr = Ok chunk ->
  length chunk = length tl + 2 /\
  chunk !! 0 = Some [] /\
  chunk !! 1 = Some [OStr ""; OStr header] /\
  forall j tube, tl !! j = Some tube ->
    exists v, attr tube = Ok v /\ chunk !! (2 + j) = Some [OStr (n tube); v].
Proof.
  unfold prism_chunk.
  destruct (prism_rows tl attr) as [rows|e] eqn:R; [|discriminate]. simpl.
  intros [= <-]. apply prism_rows_Ok in R as [Hlen Hrows].
  split; [simpl; lia|]. split; [done|]. split; [done|]. exact Hrows.
Qed.

Lemma prism_gates_Ok mark attr tl gates : forall count content,
  prism_gates mark attr count gates tl = Ok content ->
  length content = length gates * (length tl + 2) /\
  forall k gate, gates !! k = Some gate ->
    content !! (k * (length tl + 2)) = Some [] /\
    content !! (k * (length tl + 2) + 1) = Some [OStr ""; OStr (mark ++ gate)%string] /\
    forall j tube, tl !! j = Some tube ->
      exists v, attr (count + k) tube = Ok v /\
                content !! (k * (length tl + 2) + 2 + j) = Some [OStr (n tube); v].
Proof.
  induction gates as [|g gates IH]; intros count content; cbn [prism_gates].
  - intros [= <-]. split; [done|]. intros k gate H. by destruct k.
  - destruct (prism_chunk (mark ++ g)%string tl (attr count)) as [chunk|e] eqn:C;
      [|discriminate]. cbn [mbind result_bind].
    destruct (prism_gates mark attr (S count) gates tl) as [content'|e] eqn:R;
      [|discriminate]. cbn [mbind result_bind].
    intros [= <-].
    apply prism_chunk_Ok in C as (Hlen & H0 & H1 & Hrows).
    destruct (IH _ _ R) as [Hlen' Hrest].
    set (m := length tl + 2) in *.
    split.
    { rewrite length_app, Hlen, Hlen'. simpl. lia. }
    intros [|k] gate Hk; cbn [lookup list_lookup] in Hk.
    + injection Hk as <-. rewrite Nat.mul_0_l, Nat.add_0_r. simpl.
      split; [by rewrite lookup_app_l by lia|].
      split; [by rewrite lookup_app_l by lia|].
      intros j tube Hj. destruct (Hrows j tube Hj) as (v & Hv & Hrow).
      exists v. split; [done|].
      rewrite lookup_app_l; [done|]. apply lookup_lt_Some in Hj. lia.
    + destruct (Hrest k gate Hk) as (Hb & Ht & Hr).
      replace (S k * m) with (m + k * m) by (simpl; lia).
      split; [|split].
      * rewrite lookup_app_r by lia. rewrite <- Hb. f_equal. lia.
      * rewrite lookup_app_r by lia. rewrite <- Ht. f_equal. lia.
      * intros j tube Hj. destruct (Hr j tube Hj) as (v & Hv & Hrow).
        exists v. rewrite <- Nat.add_succ_comm. split; [done|].
        rewrite lookup_app_r by lia. rewrite <- Hrow. f_equal. lia.
Qed.

Lemma prism_gates_Raise mark attr tl gates : forall count e,
  prism_gates mark attr count gates tl = Raise e ->
  exists k tube, k < length gates /\ tube ∈ tl /\ attr (count + k) tube = Raise e.
Proof.
  induction gates as [|g gates IH]; intros count e; cbn [prism_gates]; [discriminate|].
  unfold prism_chunk.
  destruct (prism_rows tl (attr count)) as [rows|e'] eqn:C; cbn [mbind result_bind].
  - destruct (prism_gates mark attr (S count) gates tl) as [content'|e'] eqn:R;
      cbn [mbind result_bind]; [discriminate|].
    intros [= <-]. destruct (IH _ _ R) as (k & tube & Hk & Hin & Ht).
    exists (S k), tube. rewrite <- Nat.add_succ_comm. simpl. split; [lia | done].
  - intros [= <-]. apply prism_rows_Raise in C as (tube & Hin & Ht).
    exists 0, tube. rewrite Nat.add_0_r. simpl. split; [lia | done].
Qed.

Lemma make_prism_Raise gate_list tube_list e :
  make_prism_csv_content gate_list tube_list = Raise e ->
  decimal_error e \/
  e = IndexError /\
  exists tube, tube ∈ tube_list /\
    (length (percent_list tube) < length gate_list \/
     length (count_list tube) < length gate_list).
Proof.
  intros H. unfold make_prism_csv_content in H.
  destruct (prism_chunk "Cell Concentration" tube_list
              (fun x => Ok (ODec (cell_conc x)))) as [conc|e'] eqn:C.
  - cbn [mbind result_bind] in H.
    destruct (prism_gates "% " percent_attr 0 gate_list tube_list)
      as [percents|e'] eqn:P; cbn [mbind result_bind] in H.
    + destruct (prism_gates "# " count_attr 0 gate_list tube_list)
        as [counts|e'] eqn:N; cbn [mbind result_bind] in H; [discriminate|].
      injection H as <-.
      apply prism_gates_Raise in N as (k & tube & Hk & Hin & Ht).
      unfold count_attr in Ht. apply bind_Raise in Ht as [Ht | (c & _ & Ht)];
        [|discriminate].
      apply getitem_Raise in Ht as [Hlen ->]. right. split; [done|].
      exists tube. split; [done|]. right. simpl in Hlen. lia.
    + injection H as <-.
      apply prism_gates_Raise in P as (k & tube & Hk & Hin & Ht).
      unfold percent_attr in Ht. apply bind_Raise in Ht as [Ht | (p & _ & Ht)].
      * apply getitem_Raise in Ht as [Hlen ->]. right. split; [done|].
         exists tube. split; [done|]. left. simpl in Hlen. lia.
      * apply bind_Raise in Ht as [Ht | (d & _ & Ht)]; [|discriminate].
         left. by eapply mul_Raise.
  - unfold prism_chunk in C.
    destruct (prism_rows tube_list (fun x => Ok (ODec (cell_conc x)))) as [rows|e''] eqn:R;
      [discriminate|].
    apply prism_rows_Raise in R as (tube & _ & Ht). discriminate.
Qed.

(** X18. Without grouping, the content for Prism is a column of blocks
    separated by an empty row: the concentrations, then the percents of
    every gate, then the counts of every gate.  A block is a row with an
    empty cell and the title, then a row with the name and the value for
    every tube, in the order of the tubes; a percent is written times
    100.  The content is raised as an [IndexError] only when a tube has
    fewer percents or counts than there are gates, and otherwise only an
    error of the decimal arithmetic is raised. *)
Theorem prism_content_layout (gate_list : list string) (tube_list : list TubeData.t) :
  (forall content,
     make_prism_csv_content gate_list tube_list = Ok content ->
     let m := length tube_list + 2 in
     let G := length gate_list in
     length content = (2 * G + 1) * m - 1 /\
     content !! 0 = Some [OStr ""; OStr "Cell Concentration"] /\
     (forall k gate, gate_list !! k = Some gate ->
        content !! ((1 + k) * m - 1) = Some [] /\
        content !! ((1 + k) * m) = Some [OStr ""; OStr ("% " ++ gate)%string] /\
        content !! ((1 + G + k) * m - 1) = Some [] /\
        content !! ((1 + G + k) * m) = Some [OStr ""; OStr ("# " ++ gate)%string]) /\
     (forall j tube, tube_list !! j = Some tube ->
        content !! (1 + j) = Some [OStr (n tube); ODec (cell_conc tube)] /\
        forall k, k < G ->
          exists p s c,
            percent_list tube !! k = Some p /\ percent_shown p s /\
            count_list tube !! k = Some c /\
            content !! ((1 + k) * m + 1 + j) = Some [OStr (n tube); OStr s] /\
            content !! ((1 + G + k) * m + 1 + j)
            = Some [OStr (n tube); OStr (cell_str c)])) /\
  (forall e,
     make_prism_csv_content gate_list tube_list = Raise e ->
     decimal_error e \/
     e = IndexError /\
     exists tube, tube ∈ tube_list /\
       (length (percent_list tube) < length gate_list \/
        length (count_list tube) < length gate_list)).
Proof.
  split.
  - intros content H. unfold make_prism_csv_content in H.
    destruct (prism_chunk "Cell Concentration" tube_list
                (fun x => Ok (ODec (cell_conc x)))) as [conc|e] eqn:C; [|discriminate].
    cbn [mbind result_bind] in H.
    destruct (prism_gates "% " percent_attr 0 gate_list tube_list)
      as [percents|e] eqn:P; [|discriminate].
    cbn [mbind result_bind] in H.
    destruct (prism_gates "# " count_attr 0 gate_list tube_list)
      as [counts|e] eqn:N; [|discriminate].
    cbn [mbind result_bind] in H. injection H as <-.
    apply prism_chunk_Ok in C as (Hc & _ & Hc1 & Hcrows).
    apply prism_gates_Ok in P as [Hp Hprows].
    apply prism_gates_Ok in N as [Hn Hnrows].
    intros m G. fold m in Hc, Hp, Hprows, Hn, Hnrows. fold G in Hp, Hn.
    assert (Hconc : forall i, i < m -> (conc ++ percents ++ counts) !! i = conc !! i).
    { intros i Hi. by rewrite lookup_app_l by lia. }
    assert (Hper : forall i, i < G * m ->
              (conc ++ percents ++ counts) !! (m + i) = percents !! i).
    { intros i Hi. rewrite lookup_app_r by lia. rewrite lookup_app_l by lia.
      f_equal. lia. }
    assert (Hcnt : forall i, (conc ++ percents ++ counts) !! (m + G * m + i) = counts !! i).
    { intros i. rewrite lookup_app_r by lia. rewrite lookup_app_r by lia.
      f_equal. lia. }
    assert (Hm : 2 <= m) by (unfold m; lia).
    split; [|split; [|split]].
    + rewrite length_drop, !length_app, Hc, Hp, Hn. lia.
    + rewrite lookup_drop. rewrite Hconc by lia. exact Hc1.
    + intros k gate Hk.
      pose proof (lookup_lt_Some _ _ _ Hk) as HkG. fold G in HkG.
      destruct (Hprows k gate Hk) as (Hb & Ht & _).
      destruct (Hnrows k gate Hk) as (Hb' & Ht' & _).
      assert (Hkm : k * m + m <= G * m).
      { replace (k * m + m) with (S k * m) by (simpl; lia).
        apply Nat.mul_le_mono_r. lia. }
      rewrite !lookup_drop.
      replace (1 + ((1 + k) * m - 1)) with (m + k * m) by (simpl; lia).
      replace (1 + (1 + k) * m) with (m + (k * m + 1)) by (simpl; lia).
      replace (1 + ((1 + G + k) * m - 1)) with (m + G * m + k * m)
        by (rewrite !Nat.mul_add_distr_r; simpl; lia).
      replace (1 + (1 + G + k) * m) with (m + G * m + (k * m + 1))
        by (rewrite !Nat.mul_add_distr_r; simpl; lia).
      rewrite !Hper by lia. rewrite !Hcnt. done.
    + intros j tube Hj. pose proof (lookup_lt_Some _ _ _ Hj) as HjT.
      split.
      * destruct (Hcrows j tube Hj) as (v & [= <-] & Hrow).
        rewrite lookup_drop. replace (1 + (1 + j)) with (2 + j) by lia.
        rewrite Hconc by (unfold m; lia). exact Hrow.
      * intros k Hk. destruct (lookup_lt_is_Some_2 gate_list k Hk) as [gate Hgate].
        destruct (Hprows k gate Hgate) as (_ & _ & Hpr).
        destruct (Hnrows k gate Hgate) as (_ & _ & Hnr).
        destruct (Hpr j tube Hj) as (v & Hv & Hrow).
        destruct (Hnr j tube Hj) as (v' & Hv' & Hrow').
        simpl in Hv, Hv'. unfold percent_attr in Hv. unfold count_attr in Hv'.
        apply bind_Ok in Hv as (p & Hp' & Hv). apply bind_Ok in Hv as (d & Hd & [= <-]).
        apply bind_Ok in Hv' as (c & Hc' & [= <-]).
        apply getitem_Ok in Hp', Hc'.
        exists p, (DecStr.str d), c. split; [done|]. split; [by exists d|].
        split; [done|].
        assert (Hkm : k * m + m <= G * m).
        { replace (k * m + m) with (S k * m) by (simpl; lia).
          apply Nat.mul_le_mono_r. lia. }
        rewrite !lookup_drop.
        replace (1 + ((1 + k) * m + 1 + j)) with (m + (k * m + 2 + j)) by (simpl; lia).
        replace (1 + ((1 + G + k) * m + 1 + j)) with (m + G * m + (k * m + 2 + j))
          by (rewrite !Nat.mul_add_distr_r; simpl; lia).
        rewrite Hper by (unfold m in *; lia). rewrite Hcnt. done.
  - intros e H. by apply make_prism_Raise.
Qed.

Lemma prism_content_layout_witness :
  exists content,
    make_prism_csv_content ["A"; "A/B"]
      [set_count_list cascade_tube
         [Num (Dec.Finite false 80 (-1)); Num (Dec.Finite false 400 (-2))]]
    = Ok content /\
    content !! 0 = Some [OStr ""; OStr "Cell Concentration"].
Proof.
  eexists. split; [vm_compute; reflexivity|].
  apply (proj1 (prism_content_layout ["A"; "A/B"]
                  [set_count_list cascade_tube
                     [Num (Dec.Finite false 80 (-1)); Num (Dec.Finite false 400 (-2))]])).
  vm_compute. reflexivity.
Defined.

(** X19. After [main] has computed the counts, the content for Prism
    can still be an [IndexError], but only for a tube with fewer percents
    than there are gates, and the gates it has no percent for are all
    ignored: a row of the export that lacks the cells of ignored gates
    passes the counts and stops the output.  The counts never cause
    it. *)
Theorem main_prism_errors (content : list (list string)) (stdin : list string)
    (r : run) (e : exn) :
  main content stdin = Ok r ->
  make_prism_csv_content (gate_list r) (tube_list r) = Raise e ->
  decimal_error e \/
  e = IndexError /\
  exists tube, tube ∈ tube_list r /\
    length (percent_list tube) < length (gate_list r) /\
    length (count_list tube) = length (gate_list r) /\
    forall k, length (percent_list tube) <= k < length (gate_list r) ->
      calc_list r !! k = Some ignore.
Proof.
  intros Hmain H. apply main_counts in Hmain as [_ Hall].
  rewrite Forall_forall in Hall.
  apply make_prism_Raise in H as [H | [-> (tube & Hin & Hshort)]]; [by left|].
  right. split; [done|]. exists tube. split; [done|].
  destruct (Hall tube Hin) as (Hlen & _ & Hper).
  split; [lia|]. split; [done|].
  intros k [Hk1 Hk2].
  assert (Hcase : calc_list r !! k = Some ignore \/ calc_list r !! k <> Some ignore).
  { destruct (calc_list r !! k) as [[| |j]|]; auto; right; discriminate. }
  destruct Hcase as [|Hne]; [done|]. specialize (Hper k Hk2 Hne). lia.
Qed.

Lemma main_prism_errors_witness :
  exists r,
    main [header_of ["A/B"; "A"]; ["t1.fcs"; "50"; ""]] ["10"; "2"] = Ok r /\
    make_prism_csv_content (gate_list r) (tube_list r) = Raise IndexError /\
    (decimal_error IndexError \/
     IndexError = IndexError /\
     exists tube, tube ∈ tube_list r /\
       length (percent_list tube) < length (gate_list r) /\
       length (count_list tube) = length (gate_list r) /\
       forall k, length (percent_list tube) <= k < length (gate_list r) ->
         calc_list r !! k = Some ignore).
Proof.
  eexists. split; [vm_compute; reflexivity|]. split; [vm_compute; reflexivity|].
  eapply (main_prism_errors [header_of ["A/B"; "A"]; ["t1.fcs"; "50"; ""]] ["10"; "2"]).
  - vm_compute. reflexivity.
  - vm_compute. reflexivity.
Defined.

(** ** The groups of the output for Prism *)

Lemma group_append_keys d tube :
  map fst (group_append d tube)
  = if decide (group_id tube ∈ map fst d) then map fst d
    else map fst d ++ [group_id tube].
Proof.
  induction d as [|[k tubes] d IH]; cbn [group_append map fst].
  - destruct (decide _) as [Hin|Hin]; [by apply elem_of_nil in Hin | done].
  - destruct (String.eqb k (group_id tube)) eqn:E; cbn [map fst].
    + apply String.eqb_eq in E as ->. clear IH.
      destruct (decide _) as [Hin|Hin]; [done|]. destruct Hin. left.
    + apply String.eqb_neq in E. rewrite IH.
      destruct (decide (group_id tube ∈ map fst d)) as [Hin|Hin];
        destruct (decide (group_id tube ∈ k :: map fst d)) as [Hin'|Hin']; try done.
      * destruct Hin'. by right.
      * apply elem_of_cons in Hin' as [?|?]; [congruence | done].
Qed.

Lemma group_append_elem d tube gid tubes :
  NoDup (map fst d) ->
  (gid, tubes) ∈ group_append d tube <->
  (gid <> group_id tube /\ (gid, tubes) ∈ d) \/
  (gid = group_id tube /\
   ((exists old, (gid, old) ∈ d /\ tubes = old ++ [tube]) \/
    ((gid ∉ map fst d) /\ tubes = [tube]))).
Proof.
  induction d as [|[k l] d IH]; cbn [group_append map fst]; intros Hnd.
  - rewrite list_elem_of_singleton. split.
    + intros [= -> ->]. right. split; [done|]. right. split; [apply not_elem_of_nil|done].
    + intros [[_ H] | [Hg [(old & H & _) | [_ Ht]]]].
      * by apply elem_of_nil in H.
      * by apply elem_of_nil in H.
      * by subst.
  - apply NoDup_cons in Hnd as [Hk Hnd]. specialize (IH Hnd).
    assert (Hfst : forall x y, (x, y) ∈ d -> x ∈ map fst d).
    { intros x y Hxy. apply list_elem_of_fmap. by exists (x, y). }
    destruct (String.eqb k (group_id tube)) eqn:E.
    + apply String.eqb_eq in E. subst k. clear IH. split.
      * intros H. apply elem_of_cons in H as [H | H].
        -- injection H as -> ->. right. split; [done|]. left. exists l.
           split; [left | done].
        -- destruct (decide (gid = group_id tube)) as [->|Hne].
           ++ destruct Hk. by eapply Hfst.
           ++ left. split; [done|]. by right.
      * intros [[Hne H] | [Hg [(old & H & Ht) | [Hnot _]]]].
        -- apply elem_of_cons in H as [H | H]; [congruence | by right].
        -- subst gid tubes. apply elem_of_cons in H as [H | H].
           ++ injection H as <-. left.
           ++ destruct Hk. by eapply Hfst.
        -- subst gid. destruct Hnot. left.
    + apply String.eqb_neq in E. split.
      * intros H. apply elem_of_cons in H as [H | H].
        -- injection H as -> ->. left. split; [done|]. left.
        -- apply IH in H as [[Hne H] | [Hg [(old & H & Ht) | [Hnot Ht]]]].
           ++ left. split; [done|]. by right.
           ++ right. split; [done|]. left. exists old. split; [by right | done].
           ++ right. split; [done|]. right. split; [|done].
              intros Hin. apply elem_of_cons in Hin as [Hin | Hin]; [congruence | done].
      * intros [[Hne H] | [Hg [(old & H & Ht) | [Hnot Ht]]]].
        -- apply elem_of_cons in H as [H | H].
           ++ injection H as -> ->. left.
           ++ right. apply IH. left. done.
        -- apply elem_of_cons in H as [H | H]; [congruence|].
           right. apply IH. right. split; [done|]. left. by exists old.
        -- right. apply IH. right. split; [done|]. right. split; [|done].
           intros Hin. apply Hnot. by right.
Qed.

Lemma group_of_app gid a b : group_of gid (a ++ b) = group_of gid a ++ group_of gid b.
Proof. unfold group_of. apply filter_app. Qed.

Lemma group_of_single gid tube :
  group_of gid [tube] = if decide (group_id tube = gid) then [tube] else [].
Proof. unfold group_of. rewrite filter_cons, filter_nil. by destruct (decide _). Qed.

(** The groups built from the tubes seen so far. *)
Lemma group_fold_inv l : forall d seen,
  NoDup (map fst d) ->
  (forall gid tubes, (gid, tubes) ∈ d <-> tubes = group_of gid seen /\ tubes <> []) ->
  NoDup (map fst (fold_left group_append l d)) /\
  (forall gid tubes,
     (gid, tubes) ∈ fold_left group_append l d <->
     tubes = group_of gid (seen ++ l) /\ tubes <> []).
Proof.
  induction l as [|tube l IH]; intros d seen Hnd Hd; simpl.
  - by rewrite app_nil_r.
  - replace (seen ++ tube :: l) with ((seen ++ [tube]) ++ l) by (by rewrite <- app_assoc).
    apply IH.
    + rewrite group_append_keys. destruct (decide _) as [Hin|Hin]; [done|].
      apply NoDup_app. split; [done|]. split; [|apply NoDup_singleton].
      intros x Hx ->%list_elem_of_singleton. done.
    + intros gid tubes. rewrite (group_append_elem _ _ _ _ Hnd).
      rewrite group_of_app, group_of_single.
      assert (Hkey : gid ∈ map fst d <-> group_of gid seen <> []).
      { split.
        - intros ([k old] & -> & Hin)%list_elem_of_fmap. apply Hd in Hin as [Heq Hne].
          simpl. by rewrite <- Heq.
        - intros Hne. apply list_elem_of_fmap.
          exists (gid, group_of gid seen). split; [done|]. by apply Hd. }
      destruct (decide (group_id tube = gid)) as [Heq|Hne].
      * subst gid. split.
        -- intros [[Hne _] | [_ [(old & Hold & ->) | [Hnot ->]]]]; [done | |].
           ++ apply Hd in Hold as [Hold _]. subst old.
              split; [done|]. by destruct (group_of _ seen).
           ++ split; [|done].
              destruct (group_of (group_id tube) seen) eqn:F; [done|].
              destruct Hnot. apply Hkey. congruence.
        -- intros [-> _]. right. split; [done|].
           destruct (group_of (group_id tube) seen) as [|x xs] eqn:F.
           ++ right. split; [|done]. intros Hin. apply Hkey in Hin. congruence.
           ++ left. exists (x :: xs). split; [|done]. apply Hd. split; [done|].
              congruence.
      * rewrite app_nil_r. split.
        -- intros [[_ H] | [-> _]]; [by apply Hd | done].
        -- intros H. left. split; [done|]. by apply Hd.
Qed.

Lemma group_tubes_inv tube_list :
  NoDup (map fst (group_tubes tube_list)) /\
  (forall gid tubes,
     (gid, tubes) ∈ group_tubes tube_list <->
     tubes = group_of gid tube_list /\ tubes <> []).
Proof.
  unfold group_tubes.
  destruct (group_fold_inv tube_list [] []) as [H1 H2].
  - constructor.
  - intros gid tubes. split; [by intros H%elem_of_nil | by intros [-> H]].
  - done.
Qed.

Lemma zip_longest_length {A} (lists : list (list A)) :
  length (zip_longest lists) = foldr Nat.max 0 (map length lists).
Proof. unfold zip_longest. by rewrite length_map, length_seq. Qed.

Lemma zip_longest_lookup {A} (lists : list (list A)) i :
  i < foldr Nat.max 0 (map length lists) ->
  zip_longest lists !! i = Some (map (fun l => l !! i) lists).
Proof.
  intros Hi. unfold zip_longest.
  change (map (fun i0 => map (fun l => l !! i0) lists)) with
    (fmap (M:=list) (fun i0 => map (fun l : list A => l !! i0) lists)).
  rewrite list_lookup_fmap, lookup_seq_lt by done. done.
Qed.

Lemma grouped_row_Ok attr obj : forall row,
  grouped_row obj attr = Ok row ->
  Forall2 (fun (o : option TubeData.t) cell =>
             match o with
             | Some tube => attr tube = Ok cell
             | None => cell = OStr ""
             end) obj row.
Proof.
  induction obj as [|o obj IH]; intros row; cbn [grouped_row].
  - intros [= <-]. constructor.
  - intros H. apply bind_Ok in H as (v & Hv & H).
    apply bind_Ok in H as (temp & Ht & [= <-]).
    constructor; [|by apply IH].
    destruct o; [done | by injection Hv as <-].
Qed.

Lemma grouped_row_Raise attr obj e :
  grouped_row obj attr = Raise e -> exists tube, Some tube ∈ obj /\ attr tube = Raise e.
Proof.
  induction obj as [|o obj IH]; cbn [grouped_row]; [discriminate|].
  intros H. apply bind_Raise in H as [H | (v & _ & H)].
  - destruct o as [tube|]; [|discriminate]. exists tube. split; [left | done].
  - apply bind_Raise in H as [H | (temp & _ & H)]; [|discriminate].
    destruct (IH H) as (tube & Hin & Ht). exists tube. split; [by right | done].
Qed.

Lemma grouped_rows_Ok attr obj_list : forall rows,
  grouped_rows obj_list attr = Ok rows ->
  Forall2 (fun obj row => grouped_row obj attr = Ok row) obj_list rows.
Proof.
  induction obj_list as [|obj obj_list IH]; intros rows; cbn [grouped_rows].
  - intros [= <-]. constructor.
  - intros H. apply bind_Ok in H as (temp & Ht & H).
    apply bind_Ok in H as (rows' & Hr & [= <-]).
    constructor; [done | by apply IH].
Qed.

Lemma grouped_rows_Raise attr obj_list e :
  grouped_rows obj_list attr = Raise e ->
  exists obj tube, obj ∈ obj_list /\ Some tube ∈ obj /\ attr tube = Raise e.
Proof.
  induction obj_list as [|obj obj_list IH]; cbn [grouped_rows]; [discriminate|].
  intros H. apply bind_Raise in H as [H | (temp & _ & H)].
  - apply grouped_row_Raise in H as (tube & Hin & Ht).
    exists obj, tube. split; [left | done].
  - apply bind_Raise in H as [H | (rows & _ & H)]; [|discriminate].
    destruct (IH H) as (obj' & tube & Hin & Hin' & Ht).
    exists obj', tube. split; [by right | done].
Qed.

Lemma prism_chunk_grouped_Ok title order matrix attr chunk :
  prism_chunk_grouped (title, order) matrix attr = Ok chunk ->
  length chunk = length matrix + 3 /\
  chunk !! 0 = Some [] /\ chunk !! 1 = Some title /\ chunk !! 2 = Some order /\
  forall i obj, matrix !! i = Some obj ->
    exists row, chunk !! (3 + i) = Some row /\ grouped_row obj attr = Ok row.
Proof.
  unfold prism_chunk_grouped. intros H.
  apply bind_Ok in H as (rows & Hrows & [= <-]).
  apply grouped_rows_Ok in Hrows. pose proof (Forall2_length _ _ _ Hrows) as Hlen.
  split; [simpl; lia|]. split; [done|]. split; [done|]. split; [done|].
  intros i obj Hi. destruct (Forall2_lookup_l _ _ _ _ _ Hrows Hi) as (row & Hrow & Hr).
  by exists row.
Qed.

Lemma prism_gates_grouped_Ok mark attr order matrix gates : forall count content,
  prism_gates_grouped mark attr count gates order matrix = Ok content ->
  length content = length gates * (length matrix + 3) /\
  forall k gate, gates !! k = Some gate ->
    content !! (k * (length matrix + 3)) = Some [] /\
    content !! (k * (length matrix + 3) + 1) = Some [OStr (mark ++ gate)%string] /\
    content !! (k * (length matrix + 3) + 2) = Some order /\
    forall i obj, matrix !! i = Some obj ->
      exists row, content !! (k * (length matrix + 3) + 3 + i) = Some row /\
                  grouped_row obj (attr (count + k)) = Ok row.
Proof.
  induction gates as [|g gates IH]; intros count content; cbn [prism_gates_grouped].
  - intros [= <-]. split; [done|]. intros k gate H. by destruct k.
  - intros H. apply bind_Ok in H as (chunk & C & H).
    apply bind_Ok in H as (content' & R & [= <-]).
    apply prism_chunk_grouped_Ok in C as (Hlen & H0 & H1 & H2 & Hrows).
    destruct (IH _ _ R) as [Hlen' Hrest].
    set (m := length matrix + 3) in *.
    split.
    { rewrite length_app, Hlen, Hlen'. simpl. lia. }
    intros [|k] gate Hk; cbn [lookup list_lookup] in Hk.
    + injection Hk as <-. rewrite Nat.mul_0_l, Nat.add_0_r. simpl.
      split; [by rewrite lookup_app_l by lia|].
      split; [by rewrite lookup_app_l by lia|].
      split; [by rewrite lookup_app_l by lia|].
      intros i obj Hi. destruct (Hrows i obj Hi) as (row & Hrow & Hr).
      exists row. split; [|done].
      rewrite lookup_app_l; [done|]. apply lookup_lt_Some in Hi. lia.
    + destruct (Hrest k gate Hk) as (Hb & Ht & Ho & Hr).
      replace (S k * m) with (m + k * m) by (simpl; lia).
      split; [|split; [|split]].
      * rewrite lookup_app_r by lia. rewrite <- Hb. f_equal. lia.
      * rewrite lookup_app_r by lia. rewrite <- Ht. f_equal. lia.
      * rewrite lookup_app_r by lia. rewrite <- Ho. f_equal. lia.
      * intros i obj Hi. destruct (Hr i obj Hi) as (row & Hrow & Hv).
        exists row. replace (count + S k) with (S count + k) by lia. split; [|done].
        rewrite lookup_app_r by lia. rewrite <- Hrow. f_equal. lia.
Qed.

Lemma prism_gates_grouped_Raise mark attr order matrix gates : forall count e,
  prism_gates_grouped mark attr count gates order matrix = Raise e ->
  exists k obj tube, k < length gates /\ obj ∈ matrix /\ Some tube ∈ obj /\
                     attr (count + k) tube = Raise e.
Proof.
  induction gates as [|g gates IH]; intros count e; cbn [prism_gates_grouped];
    [discriminate|].
  intros H. apply bind_Raise in H as [H | (chunk & _ & H)].
  - unfold prism_chunk_grouped in H.
    apply bind_Raise in H as [H | (rows & _ & H)]; [|discriminate].
    apply grouped_rows_Raise in H as (obj & tube & Hin & Hin' & Ht).
    exists 0, obj, tube. rewrite Nat.add_0_r. simpl. split; [lia | done].
  - apply bind_Raise in H as [H | (content' & _ & H)]; [|discriminate].
    destruct (IH _ _ H) as (k & obj & tube & Hk & Hin & Hin' & Ht).
    exists (S k), obj, tube. rewrite <- Nat.add_succ_comm. simpl. split; [lia | done].
Qed.

(** The first row of the matrix holds the first tube of every group, and
    so its groups are the keys. *)
Lemma group_order_keys (groups : list (string * list TubeData.t)) :
  (forall gid tubes, (gid, tubes) ∈ groups -> tubes = group_of gid tubes /\ tubes <> []) ->
  omap (fmap group_id) (map (fun l : list TubeData.t => l !! 0) (map snd groups))
  = map fst groups.
Proof.
  induction groups as [|[gid tubes] groups IH]; intros H; [done|].
  cbn [map snd fst omap]. destruct (H gid tubes) as [Hg Hne]; [left|].
  destruct tubes as [|tube tubes]; [done|]. simpl.
  assert (Hin : tube ∈ group_of gid (tube :: tubes)) by (rewrite <- Hg; left).
  unfold group_of in Hin. apply list_elem_of_filter in Hin as [Hin _]. rewrite Hin.
  f_equal. apply IH. intros g ts Hgts. apply H. by right.
Qed.

Lemma group_of_idemp gid l : group_of gid (group_of gid l) = group_of gid l.
Proof.
  unfold group_of. induction l as [|x l IH]; [done|].
  rewrite filter_cons. destruct (decide (group_id x = gid)) as [Hx|Hx]; [|done].
  by rewrite filter_cons, decide_True, IH by done.
Qed.

Lemma largest_pos (groups : list (string * list TubeData.t)) :
  groups <> [] -> (forall gid tubes, (gid, tubes) ∈ groups -> tubes <> []) ->
  0 < largest groups.
Proof.
  destruct groups as [|[gid tubes] groups]; [done|]. intros _ H.
  unfold largest. simpl. destruct tubes; [|simpl; lia].
  destruct (H gid []); [left | done].
Qed.

Lemma group_tubes_nil tube_list : group_tubes tube_list = [] -> tube_list = [].
Proof.
  intros H. destruct tube_list as [|tube l]; [done|]. exfalso.
  destruct (group_tubes_inv (tube :: l)) as [_ Hin].
  assert (Hx : (group_id tube, group_of (group_id tube) (tube :: l))
               ∈ group_tubes (tube :: l)).
  { apply Hin. split; [done|]. unfold group_of. rewrite filter_cons, decide_True; done. }
  rewrite H in Hx. by apply elem_of_nil in Hx.
Qed.

Lemma grouped_cells_of_row groups i attr (shown : TubeData.t -> out -> Prop) row :
  grouped_row (map (fun l : list TubeData.t => l !! i) (map snd groups)) attr = Ok row ->
  (forall tube cell, attr tube = Ok cell -> shown tube cell) ->
  grouped_cells groups i shown row.
Proof.
  intros H Hshown. apply grouped_row_Ok in H. unfold grouped_cells.
  revert row H. induction groups as [|[gid tubes] groups IH]; intros row H.
  - inversion H. constructor.
  - inversion H as [|o cell obj row' Hcell Hrest]; subst. constructor; [|by apply IH].
    simpl. destruct (tubes !! i); [by apply Hshown | done].
Qed.

Lemma percent_attr_shown k tube cell :
  percent_attr k tube = Ok cell ->
  exists p s, percent_list tube !! k = Some p /\ percent_shown p s /\ cell = OStr s.
Proof.
  unfold percent_attr. intros H. apply bind_Ok in H as (p & Hp & H).
  apply bind_Ok in H as (d & Hd & [= <-]). apply getitem_Ok in Hp.
  exists p, (DecStr.str d). split; [done|]. split; [by exists d | done].
Qed.

Lemma count_attr_shown k tube cell :
  count_attr k tube = Ok cell ->
  exists c, count_list tube !! k = Some c /\ cell = OStr (cell_str c).
Proof.
  unfold count_attr. intros H. apply bind_Ok in H as (c & Hc & [= <-]).
  apply getitem_Ok in Hc. by exists c.
Qed.

(** X20. With grouping, the content for Prism is a column of blocks
    separated by an empty row: the names, the concentrations, then the
    percents and the counts of every gate.  A block is its title, the
    row of the groups in the order they were met, then one row for every
    rank in a group; the cell of a group in the row of rank [i] is the
    value of its tube [i], and is empty when the group has fewer tubes.
    Without any tube the content is an [IndexError]. *)
Theorem prism_grouped_layout (gate_list : list string) (tube_list : list TubeData.t) :
  let groups := group_tubes tube_list in
  let m := largest groups + 3 in
  let G := length gate_list in
  (forall content,
     make_prism_csv_content_grouped gate_list tube_list = Ok content ->
     length content = (2 * G + 2) * m - 1 /\
     grouped_block content 0 "Tube ID" groups
       (fun tube cell => cell = OStr (n tube)) /\
     content !! (m - 1) = Some [] /\
     grouped_block content m "Cell Concentration" groups
       (fun tube cell => cell = ODec (cell_conc tube)) /\
     forall k gate, gate_list !! k = Some gate ->
       content !! ((2 + k) * m - 1) = Some [] /\
       grouped_block content ((2 + k) * m) ("% " ++ gate) groups
         (fun tube cell =>
            exists p s, percent_list tube !! k = Some p /\ percent_shown p s /\
                        cell = OStr s) /\
       content !! ((2 + G + k) * m - 1) = Some [] /\
       grouped_block content ((2 + G + k) * m) ("# " ++ gate) groups
         (fun tube cell =>
            exists c, count_list tube !! k = Some c /\ cell = OStr (cell_str c))) /\
  (tube_list = [] ->
   make_prism_csv_content_grouped gate_list tube_list = Raise IndexError) /\
  (forall e,
     make_prism_csv_content_grouped gate_list tube_list = Raise e ->
     decimal_error e \/ e = IndexError).
Proof.
  intros groups m G.
  destruct (group_tubes_inv tube_list) as [Hnd Hgroups]. fold groups in Hnd, Hgroups.
  assert (Hlenm : length (zip_longest (map snd groups)) + 3 = m).
  { by rewrite zip_longest_length. }
  assert (Hrow : forall i, i < largest groups ->
            zip_longest (map snd groups) !! i
            = Some (map (fun l : list TubeData.t => l !! i) (map snd groups))).
  { intros i Hi. by apply zip_longest_lookup. }
  split; [|split].
  - intros content H. unfold make_prism_csv_content_grouped in H. fold groups in H.
    apply bind_Ok in H as (first_row & Hfirst & H).
    apply getitem_Ok in Hfirst.
    assert (H0 : 0 < largest groups).
    { apply lookup_lt_Some in Hfirst. by rewrite zip_longest_length in Hfirst. }
    rewrite (Hrow 0 H0) in Hfirst. injection Hfirst as <-.
    rewrite group_order_keys in H.
    2:{ intros gid tubes Hin. apply Hgroups in Hin as [-> Hne].
        split; [by rewrite group_of_idemp | done]. }
    apply bind_Ok in H as (ids & Hids & H).
    apply bind_Ok in H as (conc & Hconc & H).
    apply bind_Ok in H as (percents & Hper & H).
    apply bind_Ok in H as (counts & Hcnt & [= <-]).
    apply prism_chunk_grouped_Ok in Hids as (Li & _ & Ti & Oi & Ri).
    apply prism_chunk_grouped_Ok in Hconc as (Lc & Bc & Tc & Oc & Rc).
    apply prism_gates_grouped_Ok in Hper as [Lp Rp].
    apply prism_gates_grouped_Ok in Hcnt as [Ln Rn].
    rewrite Hlenm in *. fold G in Lp, Ln.
    assert (Hm : 3 <= m) by (unfold m; lia).
    assert (Fi : forall i, i < m -> (ids ++ conc ++ percents ++ counts) !! i = ids !! i).
    { intros i Hi. by rewrite lookup_app_l by lia. }
    assert (Fc : forall i, i < m ->
              (ids ++ conc ++ percents ++ counts) !! (m + i) = conc !! i).
    { intros i Hi. rewrite lookup_app_r by lia. rewrite lookup_app_l by lia.
      f_equal. lia. }
    assert (Fp : forall i, i < G * m ->
              (ids ++ conc ++ percents ++ counts) !! (m + m + i) = percents !! i).
    { intros i Hi. rewrite lookup_app_r by lia. rewrite lookup_app_r by lia.
      rewrite lookup_app_l by lia. f_equal. lia. }
    assert (Fn : forall i,
              (ids ++ conc ++ percents ++ counts) !! (m + m + G * m + i) = counts !! i).
    { intros i. rewrite lookup_app_r by lia. rewrite lookup_app_r by lia.
      rewrite lookup_app_r by lia. f_equal. lia. }
    split; [|split; [|split; [|split]]].
    + rewrite length_drop, !length_app, Li, Lc, Lp, Ln. lia.
    + unfold grouped_block. rewrite !lookup_drop.
      split; [by rewrite Fi by lia|]. split; [by rewrite Fi by lia|].
      intros i Hi. destruct (Ri i _ (Hrow i Hi)) as (row & Hr & Hv).
      exists row. split.
      * rewrite lookup_drop. replace (1 + (0 + 2 + i)) with (3 + i) by lia.
        rewrite Fi by (unfold m; lia). done.
      * eapply grouped_cells_of_row; [exact Hv|]. by intros tube cell [= <-].
    + rewrite lookup_drop. replace (1 + (m - 1)) with (m + 0) by lia.
      by rewrite Fc by lia.
    + unfold grouped_block. rewrite !lookup_drop.
      split.
      { replace (1 + m) with (m + 1) by lia. by rewrite Fc by lia. }
      split.
      { replace (1 + (m + 1)) with (m + 2) by lia. by rewrite Fc by lia. }
      intros i Hi. destruct (Rc i _ (Hrow i Hi)) as (row & Hr & Hv).
      exists row. split.
      * rewrite lookup_drop. replace (1 + (m + 2 + i)) with (m + (3 + i)) by lia.
        rewrite Fc by (unfold m; lia). done.
      * eapply grouped_cells_of_row; [exact Hv|]. by intros tube cell [= <-].
    + intros k gate Hk. pose proof (lookup_lt_Some _ _ _ Hk) as HkG. fold G in HkG.
      destruct (Rp k gate Hk) as (Bp & Tp & Op & Rowsp).
      destruct (Rn k gate Hk) as (Bn & Tn & On & Rowsn).
      assert (Hkm : k * m + m <= G * m).
      { replace (k * m + m) with (S k * m) by (simpl; lia).
        apply Nat.mul_le_mono_r. lia. }
      assert (E1 : (2 + k) * m = m + m + k * m) by (simpl; lia).
      assert (E2 : (2 + G + k) * m = m + m + G * m + k * m).
      { rewrite !Nat.mul_add_distr_r. simpl. lia. }
      rewrite E1, E2. unfold grouped_block. rewrite !lookup_drop.
      split; [|split; [|split]].
      * replace (1 + (m + m + k * m - 1)) with (m + m + k * m) by lia.
        by rewrite Fp by lia.
      * split; [|split].
        -- replace (1 + (m + m + k * m)) with (m + m + (k * m + 1)) by lia.
           by rewrite Fp by lia.
        -- replace (1 + (m + m + k * m + 1)) with (m + m + (k * m + 2)) by lia.
           by rewrite Fp by lia.
        -- intros i Hi. destruct (Rowsp i _ (Hrow i Hi)) as (row & Hr & Hv).
           exists row. split.
           ++ rewrite lookup_drop.
              replace (1 + (m + m + k * m + 2 + i)) with (m + m + (k * m + 3 + i)) by lia.
              rewrite Fp by (unfold m in *; lia). done.
           ++ eapply grouped_cells_of_row; [exact Hv|].
              intros tube cell Hcell. by apply percent_attr_shown.
      * replace (1 + (m + m + G * m + k * m - 1)) with (m + m + G * m + k * m) by lia.
        by rewrite Fn.
      * split; [|split].
        -- replace (1 + (m + m + G * m + k * m)) with (m + m + G * m + (k * m + 1)) by lia.
           by rewrite Fn.
        -- replace (1 + (m + m + G * m + k * m + 1))
             with (m + m + G * m + (k * m + 2)) by lia.
           by rewrite Fn.
        -- intros i Hi. destruct (Rowsn i _ (Hrow i Hi)) as (row & Hr & Hv).
           exists row. split.
           ++ rewrite lookup_drop.
              replace (1 + (m + m + G * m + k * m + 2 + i))
                with (m + m + G * m + (k * m + 3 + i)) by lia.
              by rewrite Fn.
           ++ eapply grouped_cells_of_row; [exact Hv|].
              intros tube cell Hcell. by apply count_attr_shown.
  - intros ->. reflexivity.
  - intros e H. unfold make_prism_csv_content_grouped in H.
    apply bind_Raise in H as [H | (first_row & _ & H)].
    { apply getitem_Raise in H as [_ ->]. by right. }
    apply bind_Raise in H as [H | (ids & _ & H)].
    { unfold prism_chunk_grouped in H.
      apply bind_Raise in H as [H | (rows & _ & H)]; [|discriminate].
      apply grouped_rows_Raise in H as (obj & tube & _ & _ & Ht). discriminate. }
    apply bind_Raise in H as [H | (conc & _ & H)].
    { unfold prism_chunk_grouped in H.
      apply bind_Raise in H as [H | (rows & _ & H)]; [|discriminate].
      apply grouped_rows_Raise in H as (obj & tube & _ & _ & Ht). discriminate. }
    apply bind_Raise in H as [H | (percents & _ & H)].
    { apply prism_gates_grouped_Raise in H as (k & obj & tube & _ & _ & _ & Ht).
      unfold percent_attr in Ht. apply bind_Raise in Ht as [Ht | (p & _ & Ht)].
      - apply getitem_Raise in Ht as [_ ->]. by right.
      - apply bind_Raise in Ht as [Ht | (d & _ & Ht)]; [|discriminate].
        left. by eapply mul_Raise. }
    apply bind_Raise in H as [H | (counts & _ & H)]; [|discriminate].
    apply prism_gates_grouped_Raise in H as (k & obj & tube & _ & _ & _ & Ht).
    unfold count_attr in Ht. apply bind_Raise in Ht as [Ht | (c & _ & Ht)]; [|discriminate].
    apply getitem_Raise in Ht as [_ ->]. by right.
Qed.

Lemma prism_grouped_layout_witness :
  exists content,
    make_prism_csv_content_grouped ["A"] grouped_ex = Ok content /\
    grouped_block content 0 "Tube ID" (group_tubes grouped_ex)
      (fun tube cell => cell = OStr (n tube)).
Proof.
  eexists. split; [vm_compute; reflexivity|].
  apply (proj1 (prism_grouped_layout ["A"] grouped_ex)).
  vm_compute. reflexivity.
Defined.

Lemma first_seen_ext l : forall seen seen',
  (forall x, x ∈ seen <-> x ∈ seen') -> first_seen seen l = first_seen seen' l.
Proof.
  induction l as [|x l IH]; intros seen seen' H; cbn [first_seen]; [done|].
  destruct (decide (x ∈ seen)) as [Hin|Hin];
    destruct (decide (x ∈ seen')) as [Hin'|Hin'].
  - by apply IH.
  - destruct Hin'. by apply H.
  - destruct Hin. by apply H.
  - f_equal. apply IH. intros y. rewrite !elem_of_cons. by rewrite H.
Qed.

Lemma group_fold_keys l : forall d,
  map fst (fold_left group_append l d)
  = map fst d ++ first_seen (map fst d) (map group_id l).
Proof.
  induction l as [|tube l IH]; intros d; cbn [fold_left map first_seen].
  - by rewrite app_nil_r.
  - rewrite IH, group_append_keys.
    destruct (decide (group_id tube ∈ map fst d)) as [Hin|Hin]; [done|].
    rewrite <- app_assoc. cbn [app]. do 2 f_equal.
    apply first_seen_ext. intros x. rewrite elem_of_app, !elem_of_cons, elem_of_nil.
    tauto.
Qed.

(** X21. The groups of the output for Prism: one entry for every group
    that has a tube, in the order the groups are first met among the
    tubes, and under each group its tubes in the order of the list. *)
Theorem group_tubes_spec (tube_list : list TubeData.t) :
  map fst (group_tubes tube_list) = first_seen [] (map group_id tube_list) /\
  NoDup (map fst (group_tubes tube_list)) /\
  (forall gid tubes,
     (gid, tubes) ∈ group_tubes tube_list <->
     tubes = group_of gid tube_list /\ tubes <> []).
Proof.
  split; [|apply group_tubes_inv].
  unfold group_tubes. by rewrite group_fold_keys.
Qed.

Lemma group_tubes_spec_witness :
  map fst (group_tubes grouped_ex) = ["a"; "b"].
Proof. exact (proj1 (group_tubes_spec grouped_ex)). Defined.

Lemma ltb_not_leb (a b : string) : String.ltb a b = true -> String.leb b a = false.
Proof.
  unfold String.ltb, String.leb. rewrite (String.compare_antisym a b).
  by destruct (String.compare b a).
Qed.

Lemma leb_ne_ltb (a b : string) : String.leb a b = true -> a <> b -> String.ltb a b = true.
Proof.
  unfold String.ltb, String.leb. intros H Hne.
  destruct (String.compare a b) eqn:E; [|done|done].
  by apply String.compare_eq_iff in E.
Qed.

Lemma group_append_concat d tube :
  (forall i, map fst d !! i = Some (group_id tube) -> S i = length d) ->
  concat (map snd (group_append d tube)) = concat (map snd d) ++ [tube].
Proof.
  induction d as [|[k l] d IH]; intros Hlast; cbn [group_append map snd concat]; [done|].
  destruct (String.eqb k (group_id tube)) eqn:E; cbn [map snd concat].
  - apply String.eqb_eq in E. subst k. specialize (Hlast 0 eq_refl).
    destruct d; [|discriminate]. simpl. by rewrite !app_nil_r.
  - rewrite IH; [by rewrite app_assoc|].
    intros i Hi. specialize (Hlast (S i) Hi). simpl in Hlast. lia.
Qed.

Lemma group_fold_sorted l : forall d seen,
  by_group (seen ++ l) ->
  concat (map snd d) = seen ->
  increasing (map fst d) ->
  (forall k, k ∈ map fst d -> exists tube, tube ∈ seen /\ group_id tube = k) ->
  concat (map snd (fold_left group_append l d)) = seen ++ l /\
  increasing (map fst (fold_left group_append l d)).
Proof.
  induction l as [|tube l IH]; intros d seen Hby Hcat Hinc Hkeys; cbn [fold_left].
  - by rewrite app_nil_r.
  - assert (Hle : forall k, k ∈ map fst d -> String.leb k (group_id tube) = true).
    { intros k Hk. destruct (Hkeys k Hk) as (x & Hx & <-).
      apply list_elem_of_lookup in Hx as [i Hi].
      apply (Hby i (length seen) x tube).
      - by rewrite lookup_app_l by (by eapply lookup_lt_Some).
      - by rewrite lookup_app_r, Nat.sub_diag by lia.
      - apply lookup_lt_Some in Hi. lia. }
    replace (seen ++ tube :: l) with ((seen ++ [tube]) ++ l) in *
      by (by rewrite <- app_assoc).
    apply IH; [done| | |].
    + rewrite group_append_concat; [by rewrite Hcat|].
      intros i Hi. destruct (decide (S i = length d)) as [|Hne]; [done|]. exfalso.
      assert (Hlt : S i < length (map fst d)).
      { apply lookup_lt_Some in Hi. rewrite length_map in *. lia. }
      destruct (lookup_lt_is_Some_2 (map fst d) (S i) Hlt) as [b Hb].
      pose proof (Hinc i (S i) _ _ Hi Hb (Nat.lt_succ_diag_r i)) as Hltb.
      apply ltb_not_leb in Hltb. rewrite Hle in Hltb; [done|].
      by eapply list_elem_of_lookup_2.
    + rewrite group_append_keys. destruct (decide _) as [Hin|Hin]; [done|].
      intros i j a b Hi Hj Hij.
      destruct (decide (j < length (map fst d))) as [Hj'|Hj'].
      * rewrite lookup_app_l in Hi by lia. rewrite lookup_app_l in Hj by lia.
        by eapply Hinc.
      * rewrite lookup_app_r in Hj by lia.
        destruct (j - length (map fst d)) as [|j0] eqn:Ej; [|by destruct j0].
        injection Hj as <-.
        rewrite lookup_app_l in Hi by lia.
        apply leb_ne_ltb.
        -- apply Hle. by eapply list_elem_of_lookup_2.
        -- intros ->. apply Hin. by eapply list_elem_of_lookup_2.
    + intros k. rewrite group_append_keys.
      destruct (decide _) as [Hin|Hin].
      * intros Hk. destruct (Hkeys k Hk) as (x & Hx & Hg).
        exists x. split; [|done]. apply elem_of_app. by left.
      * intros [Hk | ->%list_elem_of_singleton]%elem_of_app.
        -- destruct (Hkeys k Hk) as (x & Hx & Hg).
           exists x. split; [|done]. apply elem_of_app. by left.
        -- exists tube. split; [|done]. apply elem_of_app. right. left.
Qed.

(** X22. On tubes ordered by group, as [ask_group_identification]
    returns them, the groups of the output for Prism come in strictly
    increasing order, and the tubes of the groups, group after group,
    are the tubes in the order of the list. *)
Theorem group_tubes_sorted (tube_list : list TubeData.t) :
  by_group tube_list ->
  concat (map snd (group_tubes tube_list)) = tube_list /\
  increasing (map fst (group_tubes tube_list)).
Proof.
  intros Hby. unfold group_tubes.
  apply (group_fold_sorted tube_list [] []); [done | done | |].
  - intros i j a b Hi. by destruct i.
  - intros k Hk. by apply elem_of_nil in Hk.
Qed.

Lemma group_tubes_sorted_witness :
  concat (map snd (group_tubes (sort_by_group grouped_ex))) = sort_by_group grouped_ex /\
  increasing (map fst (group_tubes (sort_by_group grouped_ex))).
Proof.
  apply (group_tubes_sorted (sort_by_group grouped_ex)).
  apply ordered_by_group, sort_by_group_ordered.
Defined.

(** ** main, up to the content of the output file *)

Lemma main_output_Ok g c content stdin out rest :
  main_output g c content stdin = Ok (out, rest) ->
  exists r stdin2 tubes,
    main content stdin = Ok r /\
    (if g then ask_group_identification (tube_list r) stdin2 = Ok (tubes, rest)
     else tubes = tube_list r /\ rest = stdin2) /\
    (if c then
       exists rows, make_compact_csv_content g (gate_list r) tubes = Ok rows /\
                    out = Compact rows
     else if g then
       exists rows, make_prism_csv_content_grouped (gate_list r) tubes = Ok rows /\
                    out = Prism rows
     else
       exists rows, make_prism_csv_content (gate_list r) tubes = Ok rows /\
                    out = Prism rows).
Proof.
  unfold main_output, main. intros H.
  apply bind_Ok in H as ([[[gl sd] tl] stdin1] & Hp & H). rewrite Hp.
  apply bind_Ok in H as ([[sl il] stdin2] & Hc & H). cbn [mbind result_bind]. rewrite Hc.
  apply bind_Ok in H as (cl & Hf & H). cbn [mbind result_bind]. rewrite Hf.
  apply bind_Ok in H as (tl' & Ha & H). cbn [mbind result_bind]. rewrite Ha.
  apply bind_Ok in H as ([tubes stdin3] & Hg & H). cbn [mbind result_bind].
  apply bind_Ok in H as (o & Ho & [= <- <-]).
  eexists _, stdin2, tubes. split; [reflexivity|]. cbn [tube_list gate_list]. split.
  - destruct g; [done|]. by injection Hg as <- <-.
  - destruct c; [|destruct g]; apply bind_Ok in Ho as (rows & Hrows & [= <-]); eauto.
Qed.

Lemma main_tubes header rows stdin r :
  main (header :: rows) stdin = Ok r ->
  Forall2 (fun cell gate => exists test, Str.split " | " cell = [gate; test])
          (slice_1_m1 header) (gate_list r) /\
  Forall2 (fun line x =>
             exists first, head line = Some first /\
               TubeData.n x = tube_name first /\
               length (percent_list x) = length line - 2)
          (filter (fun line => is_summary line = false) rows) (tube_list r).
Proof.
  unfold main, process_csv. intros H.
  apply bind_Ok in H as ([[[gl sd] tl] stdin1] & Hp & H).
  apply bind_Ok in H as ([[sl il] stdin2] & _ & H).
  apply bind_Ok in H as (cl & _ & H).
  apply bind_Ok in H as (tl' & Hc & [= <-]). cbn [gate_list tube_list].
  apply bind_Ok in Hp as (header' & Hh & Hp). injection Hh as <-.
  apply bind_Ok in Hp as ([go gd] & Hhead & Hp).
  apply bind_Ok in Hp as ([tl0 stdin0] & Hrows & [= <- <- <- <-]).
  split.
  - apply read_header_Ok in Hhead as [_ (gates & -> & Hall)]; [done|].
    split; [by intros g ?%elem_of_nil | constructor].
  - apply read_rows_Ok in Hrows as (_ & new & -> & Hnew). cbn [app] in Hc.
    apply calculate_all_Ok in Hc. cbn [tail] in Hnew.
    remember (filter (fun line => is_summary line = false) rows) as lines eqn:Hlines.
    clear Hlines. revert lines Hnew tl' Hc.
    induction new as [|x new IH]; intros lines Hnew tl' Hc.
    + inversion Hnew; subst. inversion Hc; subst. constructor.
    + inversion Hnew as [|line ? lines' ? Hline Hrest]; subst.
      inversion Hc as [|? x' ? tl'' Hx Hc']; subst.
      constructor; [|by apply IH].
      destruct Hline as (first & Hf & Hn & _ & Hlen & Hfresh & _).
      apply (calculate_fresh _ _ _ Hfresh) in Hx as (counts & -> & _).
      exists first. by destruct x.
Qed.

(** X23. With the compact flag, the content [main] hands to
    [make_output_file] has two rows for every row of the export that is
    not a Mean or SD row, and five more; its titles are the gates of the
    header between the name and the concentration; and without grouping
    the row of a tube in the table of the percents starts with the
    stripped first cell of its row of the export and has one cell for
    each percent cell of that row, the name and the concentration. *)
Theorem main_output_compact (grouping_bool : bool) (header : list string)
    (rows : list (list string)) (stdin rest : list string) (out : output) :
  main_output grouping_bool true (header :: rows) stdin = Ok (out, rest) ->
  exists gates content,
    Forall2 (fun cell gate => exists test, Str.split " | " cell = [gate; test])
            (slice_1_m1 header) gates /\
    out = Compact content /\
    length content = 2 * length (filter (fun line => is_summary line = false) rows) + 5 /\
    content !! 1 = Some (compact_titles grouping_bool gates) /\
    (grouping_bool = false ->
     forall j line, filter (fun line => is_summary line = false) rows !! j = Some line ->
       exists first row,
         head line = Some first /\ content !! (2 + j) = Some row /\
         head row = Some (tube_name first) /\
         length row = length (slice_1_m1 line) + 2).
Proof.
  intros H. apply main_output_Ok in H as (r & stdin2 & tubes & Hmain & Hg & rows' & Hc & ->).
  apply main_tubes in Hmain as [Hgates Htubes].
  pose proof (proj1 (make_compact_Ok _ _ _ _) Hc) as (percents & HP & Hcontent).
  exists (gate_list r), rows'. split; [done|]. split; [done|].
  assert (Hlen : length tubes = length (tube_list r)).
  { destruct grouping_bool.
    - apply ask_group_identification_perm in Hg as (regrouped & Hsame & Hperm).
      rewrite Hperm. symmetry. by eapply Forall2_length.
    - by destruct Hg as [-> _]. }
  pose proof (Forall2_length _ _ _ Htubes) as Hlen'.
  pose proof (Forall2_length _ _ _ HP) as HlenP.
  split; [|split].
  - rewrite Hcontent. simpl. rewrite !length_app. simpl. rewrite length_map. lia.
  - by rewrite Hcontent.
  - intros -> j line Hj. destruct Hg as [-> _].
    destruct (Forall2_lookup_l _ _ _ _ _ Htubes Hj) as (x & Hx & first & Hf & Hn & Hl).
    destruct (Forall2_lookup_l _ _ _ _ _ HP Hx) as (row & Hrow & ps & Hps & ->).
    exists first, (compact_row false x ps). split; [done|]. split.
    + rewrite Hcontent. change (2 + j) with (S (S j)). simpl.
      by rewrite lookup_app_l by (apply lookup_lt_Some in Hrow; lia).
    + split; [by rewrite <- Hn|].
      unfold compact_row. simpl. rewrite length_app. simpl.
      rewrite <- (Forall2_length _ _ _ Hps), Hl, length_slice_1_m1. lia.
Qed.

Lemma main_output_compact_witness :
  exists out,
    main_output false true
      [header_of ["A"; "A/B"; "A/B/C"]; ["t1.fcs"; "90"; "50"; "20"; ""];
       ["Mean"; "90"; "50"; "20"; ""]] ["10"; "2"] = Ok (out, []) /\
    exists gates content,
      Forall2 (fun cell gate => exists test, Str.split " | " cell = [gate; test])
              (slice_1_m1 (header_of ["A"; "A/B"; "A/B/C"])) gates /\
      out = Compact content /\
      length content
      = 2 * length (filter (fun line => is_summary line = false)
                           [["t1.fcs"; "90"; "50"; "20"; ""];
                            ["Mean"; "90"; "50"; "20"; ""]]) + 5 /\
      content !! 1 = Some (compact_titles false gates) /\
      (false = false ->
       forall j line,
         filter (fun line => is_summary line = false)
                [["t1.fcs"; "90"; "50"; "20"; ""]; ["Mean"; "90"; "50"; "20"; ""]] !! j
         = Some line ->
         exists first row,
           head line = Some first /\ content !! (2 + j) = Some row /\
           head row = Some (tube_name first) /\
           length row = length (slice_1_m1 line) + 2).
Proof.
  eexists. split; [vm_compute; reflexivity|].
  eapply (main_output_compact false (header_of ["A"; "A/B"; "A/B/C"])
            [["t1.fcs"; "90"; "50"; "20"; ""]; ["Mean"; "90"; "50"; "20"; ""]]
            ["10"; "2"] []).
  vm_compute. reflexivity.
Defined.

Lemma ask_group_identification_nil stdin out rest :
  ask_group_identification [] stdin = Ok (out, rest) -> out = [].
Proof.
  intros H. apply ask_group_identification_perm in H as (regrouped & Hsame & Hperm).
  inversion Hsame; subst. by apply Permutation_nil_r in Hperm.
Qed.

(** X24. With grouping and without the compact flag, an export that has
    no row of a tube (only the header, or only Mean and SD rows under it)
    never gives a content: whatever the user types, [main] raises, at the
    latest with the [IndexError] of the first row of an empty matrix.
    With the compact flag the same export gives the two tables with their
    titles and no row. *)
Theorem main_output_no_tube (header : list string) (rows : list (list string))
    (stdin : list string) :
  Forall (fun line => is_summary line = true) rows ->
  raises (main_output true false (header :: rows) stdin) /\
  (forall out rest,
     main_output true true (header :: rows) stdin = Ok (out, rest) ->
     exists gates,
       out = Compact [["Percents"]; compact_titles true gates; [""]; ["Cell Numbers"];
                      compact_titles true gates]).
Proof.
  intros Hsum.
  assert (Hnone : filter (fun line => is_summary line = false) rows = []).
  { induction Hsum as [|line rows Hline _ IH]; [done|].
    rewrite filter_cons, decide_False by congruence. exact IH. }
  split.
  - destruct (main_output true false (header :: rows) stdin) as [[out rest]|e] eqn:H;
      [|by exists e].
    exfalso. apply main_output_Ok in H as (r & stdin2 & tubes & Hmain & Hg & c & Hc & _).
    apply main_tubes in Hmain as [_ Htubes]. rewrite Hnone in Htubes.
    apply Forall2_nil_inv_l in Htubes. rewrite Htubes in Hg.
    apply ask_group_identification_nil in Hg as ->. discriminate.
  - intros out rest H.
    apply main_output_Ok in H as (r & stdin2 & tubes & Hmain & Hg & c & Hc & ->).
    apply main_tubes in Hmain as [_ Htubes]. rewrite Hnone in Htubes.
    apply Forall2_nil_inv_l in Htubes. rewrite Htubes in Hg.
    apply ask_group_identification_nil in Hg as ->.
    exists (gate_list r). vm_compute in Hc. injection Hc as <-. reflexivity.
Qed.

Lemma main_output_no_tube_witness :
  raises (main_output true false
            [header_of ["A"; "A/B"]; ["Mean"; "50"; "20"; ""]; ["SD"; "1"; "1"; ""]]
            ["1"; "yes"]) /\
  (forall out rest,
     main_output true true
       [header_of ["A"; "A/B"]; ["Mean"; "50"; "20"; ""]; ["SD"; "1"; "1"; ""]]
       ["1"; "yes"] = Ok (out, rest) ->
     exists gates,
       out = Compact [["Percents"]; compact_titles true gates; [""]; ["Cell Numbers"];
                      compact_titles true gates]).
Proof.
  apply (main_output_no_tube (header_of ["A"; "A/B"])
           [["Mean"; "50"; "20"; ""]; ["SD"; "1"; "1"; ""]] ["1"; "yes"]).
  repeat constructor.
Defined.

(** ** The library functions on examples *)

Lemma str_examples :
  DecStr.str (Dec.Finite false 123 (-1)) = "12.3" /\
  DecStr.str (Dec.Finite false 123 5) = "1.23E+7" /\
  DecStr.str (Dec.Finite false 5 2) = "5E+2" /\
  DecStr.str (Dec.Finite false 1 (-6)) = "0.000001" /\
  DecStr.str (Dec.Finite false 1 (-7)) = "1E-7" /\
  DecStr.str (Dec.Finite true 0 (-2)) = "-0.00" /\
  DecStr.str (Dec.Infinity true) = "-Infinity" /\
  DecStr.str (Dec.NaN false false 0) = "NaN" /\
  DecStr.str (Dec.NaN true true 45) = "-sNaN45".
Proof. vm_compute. repeat split. Qed.

Lemma zip_longest_example :
  zip_longest [[1; 2; 3]; [4]] = [[Some 1; Some 4]; [Some 2; None]; [Some 3; None]].
Proof. reflexivity. Qed.

Lemma sort_by_group_example :
  map TubeData.n (sort_by_group grouped_ex) = ["t1"; "t3"; "t2"] /\
  String.leb "B" "a" = true /\ String.leb "10" "9" = true.
Proof. vm_compute. repeat split. Qed.

(** ** Reading back what [str] writes *)

Lemma length_append (s t : string) :
  String.length (s ++ t) = String.length s + String.length t.
Proof.
  induction s as [|c s IH]; [by rewrite append_nil_l|].
  rewrite append_cons. simpl. by rewrite IH.
Qed.

Lemma all_digits_app (s t : string) : all_digits (s ++ t) <-> all_digits s /\ all_digits t.
Proof.
  induction s as [|c s IH]; [rewrite append_nil_l; simpl; tauto|].
  rewrite append_cons. simpl. rewrite IH. tauto.
Qed.

Lemma dvalue_app (s t : string) : forall acc, dvalue (s ++ t) acc = dvalue t (dvalue s acc).
Proof.
  induction s as [|c s IH]; intros acc; [by rewrite append_nil_l|].
  rewrite append_cons. simpl. apply IH.
Qed.

Lemma take_digits_app (s : string) : forall rest acc cnt,
  all_digits s -> not_digit_first rest ->
  Dec.take_digits (s ++ rest) acc cnt = (dvalue s acc, cnt + String.length s, rest).
Proof.
  induction s as [|c s IH]; intros rest acc cnt Hs Hrest.
  - rewrite append_nil_l, Nat.add_0_r. simpl.
    destruct rest as [|c rest]; [done|]. simpl in *. by rewrite Hrest.
  - rewrite append_cons. destruct Hs as [Hc Hs]. cbn [Dec.take_digits]. rewrite Hc.
    rewrite IH by done. simpl. f_equal. f_equal. lia.
Qed.

Lemma digit_char (d : N) :
  (d < 10)%N ->
  Dec.is_digit (ascii_of_N (48 + d)) = true /\
  Dec.digit_val (ascii_of_N (48 + d)) = d.
Proof.
  intros H.
  assert (Hd : (d = 0 \/ d = 1 \/ d = 2 \/ d = 3 \/ d = 4 \/ d = 5 \/ d = 6 \/ d = 7
                \/ d = 8 \/ d = 9)%N) by lia.
  repeat (destruct Hd as [-> | Hd]; [vm_compute; done|]). subst. vm_compute. done.
Qed.

Lemma digits_go_S fuel m acc :
  DecStr.digits_go (S fuel) m acc
  = if (m <? 10)%N then String (ascii_of_N (48 + m mod 10)) acc
    else DecStr.digits_go fuel (m / 10) (String (ascii_of_N (48 + m mod 10)) acc).
Proof. reflexivity. Qed.

Lemma digits_go_app (fuel : nat) : forall m acc,
  DecStr.digits_go fuel m acc = (DecStr.digits_go fuel m "" ++ acc)%string.
Proof.
  induction fuel as [|fuel IH]; intros m acc; cbn [DecStr.digits_go].
  - by rewrite append_nil_l.
  - destruct (m <? 10)%N; [by rewrite append_cons, append_nil_l|].
    rewrite IH. rewrite (IH _ (String _ "")). rewrite append_assoc.
    by rewrite append_cons, append_nil_l.
Qed.

Lemma digits_go_spec (fuel : nat) : forall m,
  (m < 2 ^ N.of_nat fuel)%N ->
  all_digits (DecStr.digits_go (S fuel) m "") /\
  DecStr.digits_go (S fuel) m "" <> "" /\
  forall acc,
    dvalue (DecStr.digits_go (S fuel) m "") acc
    = (acc * 10 ^ N.of_nat (String.length (DecStr.digits_go (S fuel) m "")) + m)%N.
Proof.
  induction fuel as [|fuel IH]; intros m Hm; rewrite digits_go_S;
    destruct (m <? 10)%N eqn:E.
  1,3: apply N.ltb_lt in E; destruct (digit_char (m mod 10)) as [H1 H2]; [lia|];
       (split; [done|]); (split; [done|]); intros acc; simpl; rewrite H2;
       rewrite N.mod_small by done; lia.
  - apply N.ltb_ge in E. simpl in Hm. lia.
  - apply N.ltb_ge in E.
    assert (Hdiv : (m / 10 < 2 ^ N.of_nat fuel)%N).
    { rewrite Nat2N.inj_succ, N.pow_succ_r' in Hm.
      apply N.Div0.div_lt_upper_bound. lia. }
    destruct (IH _ Hdiv) as (H1 & H2 & H3).
    destruct (digit_char (m mod 10)) as [D1 D2].
    { apply N.mod_lt. lia. }
    rewrite digits_go_app.
    set (s := DecStr.digits_go (S fuel) (m / 10) "") in *.
    split; [|split].
    + apply all_digits_app. split; [exact H1 | done].
    + by apply append_not_empty_l.
    + intros acc. rewrite dvalue_app, H3, length_append. simpl. rewrite D2.
      rewrite Nat2N.inj_add, N.pow_add_r. change (10 ^ N.of_nat 1)%N with 10%N.
      pose proof (N.div_mod m 10 ltac:(lia)) as Hdm.
      generalize dependent (10 ^ N.of_nat (String.length s))%N. intros P. lia.
Qed.

Lemma digits_spec (m : N) :
  all_digits (DecStr.digits m) /\ DecStr.digits m <> "" /\
  forall acc,
    dvalue (DecStr.digits m) acc
    = (acc * 10 ^ N.of_nat (String.length (DecStr.digits m)) + m)%N.
Proof.
  unfold DecStr.digits. apply digits_go_spec. rewrite N2Nat.id. apply N.size_gt.
Qed.

Lemma plain_app (s t : string) : plain (s ++ t) <-> plain s /\ plain t.
Proof.
  induction s as [|c s IH]; [rewrite append_nil_l; simpl; tauto|].
  rewrite append_cons. simpl. rewrite IH. tauto.
Qed.

Lemma digit_not_mark (c : ascii) :
  Dec.is_digit c = true ->
  Str.mem c (String "_" Str.whitespace) = false /\
  Ascii.eqb c "-" = false /\ Ascii.eqb c "+" = false /\ Ascii.eqb c "." = false /\
  Str.lower_char c = c.
Proof.
  destruct c as [[] [] [] [] [] [] [] []]; vm_compute; intros H;
    try discriminate; repeat split.
Qed.

Lemma all_digits_plain (s : string) : all_digits s -> plain s.
Proof.
  induction s as [|c s IH]; [done|]. intros [Hc Hs]. split; [|by apply IH].
  by apply digit_not_mark.
Qed.

Lemma plain_lstrip (s : string) : plain s -> Str.lstrip Str.whitespace s = s.
Proof.
  destruct s as [|c s]; [done|]. intros [Hc _]. cbn [Str.lstrip].
  cbn [Str.mem] in Hc. apply orb_false_elim in Hc as [_ Hc]. by rewrite Hc.
Qed.

Lemma plain_rstrip (s : string) : plain s -> Str.rstrip Str.whitespace s = s.
Proof.
  induction s as [|c s IH]; [done|]. intros [Hc Hs]. cbn [Str.rstrip].
  rewrite IH by done. destruct s; [|done].
  cbn [Str.mem] in Hc. apply orb_false_elim in Hc as [_ Hc]. by rewrite Hc.
Qed.

Lemma plain_remove (s : string) : plain s -> Str.remove_char "_" s = s.
Proof.
  induction s as [|c s IH]; [done|]. intros [Hc Hs]. cbn [Str.remove_char].
  rewrite IH by done. cbn [Str.mem] in Hc. apply orb_false_elim in Hc as [Hc _].
  rewrite Ascii.eqb_sym in Hc. by rewrite Hc.
Qed.

Lemma of_string_plain (s : string) :
  plain s ->
  Dec.of_string s
  = let '(sign, s') := Dec.take_sign s in
    match Dec.parse_finite sign s' with
    | Some d => if Dec.in_range d then Some d else None
    | None => Dec.parse_special sign s'
    end.
Proof.
  intros H. unfold Dec.of_string, Str.strip_ws, Str.strip.
  by rewrite plain_lstrip, plain_rstrip, plain_remove.
Qed.

Lemma substring_split (s : string) : forall k,
  k <= String.length s ->
  (substring 0 k s ++ substring k (String.length s - k) s)%string = s /\
  String.length (substring 0 k s) = k.
Proof.
  induction s as [|c s IH]; intros k Hk; simpl in Hk.
  - assert (k = 0) as -> by lia. done.
  - destruct k as [|k].
    + simpl. split; [|done]. rewrite append_nil_l. f_equal.
      destruct (IH 0) as [H _]; [lia|]. rewrite Nat.sub_0_r in H.
      destruct s; [done|]. simpl in *. by rewrite append_nil_l in H.
    + destruct (IH k) as [H1 H2]; [lia|]. cbn [substring String.length Nat.sub].
      rewrite append_cons, H1, H2. done.
Qed.

Lemma dvalue_zeros (k : nat) : dvalue (DecStr.zeros k) 0 = 0%N.
Proof. induction k as [|k IH]; [done|]. simpl. exact IH. Qed.

Lemma all_digits_zeros (k : nat) : all_digits (DecStr.zeros k).
Proof. induction k as [|k IH]; [done|]. by split. Qed.

Lemma length_zeros (k : nat) : String.length (DecStr.zeros k) = k.
Proof. induction k as [|k IH]; [done|]. simpl. by rewrite IH. Qed.

(** The exponent part [str] writes for [k], and nothing for zero. *)
Lemma parse_exp_signed (k : Z) :
  Dec.parse_exp ("E" ++ DecStr.signed_int k) = Some k.
Proof.
  rewrite append_cons, append_nil_l. unfold DecStr.signed_int. cbn [Dec.parse_exp].
  change (Ascii.eqb "E" "E") with true. cbn [orb].
  destruct (digits_spec (Z.abs_N k)) as (Hd & Hne & Hv).
  assert (Htake : Dec.take_digits (DecStr.digits (Z.abs_N k)) 0 0
                  = (Z.abs_N k, String.length (DecStr.digits (Z.abs_N k)), "")).
  { rewrite <- (append_nil_r (DecStr.digits (Z.abs_N k))) at 1.
    rewrite take_digits_app by done. rewrite Hv, N.mul_0_l, N.add_0_l. reflexivity. }
  assert (Hlen : exists m, String.length (DecStr.digits (Z.abs_N k)) = S m).
  { destruct (DecStr.digits (Z.abs_N k)); [done|]. by eexists. }
  destruct Hlen as [m Hlen]. rewrite Hlen in Htake.
  destruct (k <? 0)%Z eqn:E.
  - rewrite append_cons, append_nil_l. cbn [Dec.take_sign].
    change (Ascii.eqb "-" "-") with true. cbv iota. rewrite Htake.
    apply Z.ltb_lt in E. f_equal. lia.
  - rewrite append_cons, append_nil_l. cbn [Dec.take_sign].
    change (Ascii.eqb "+" "-") with false. change (Ascii.eqb "+" "+") with true.
    cbv iota. rewrite Htake. apply Z.ltb_ge in E. f_equal. lia.
Qed.

Lemma all_digits_first (s : string) :
  all_digits s -> s <> "" -> exists c r, s = String c r /\ Dec.is_digit c = true.
Proof. destruct s as [|c r]; [done|]. intros [Hc _] _. by exists c, r. Qed.

Lemma parse_finite_frac sign ip fd ex k :
  all_digits ip -> ip <> "" -> all_digits fd -> not_digit_first ex ->
  Dec.parse_exp ex = Some k ->
  Dec.parse_finite sign (ip ++ "." ++ fd ++ ex)
  = Some (Dec.Finite sign (dvalue fd (dvalue ip 0)) (k - Z.of_nat (String.length fd))).
Proof.
  intros Hip Hne Hfd Hex Hk. unfold Dec.parse_finite.
  rewrite (append_cons "." "" (fd ++ ex)), append_nil_l.
  rewrite take_digits_app by done.
  change (Ascii.eqb "." ".") with true. cbv iota.
  rewrite take_digits_app by done. rewrite Hk.
  destruct ip as [|c ip]; [done|]. reflexivity.
Qed.

Lemma parse_finite_int sign ip ex k :
  all_digits ip -> ip <> "" -> ex = "" \/ (exists r, ex = String "E" r) ->
  Dec.parse_exp ex = Some k ->
  Dec.parse_finite sign (ip ++ ex) = Some (Dec.Finite sign (dvalue ip 0) k).
Proof.
  intros Hip Hne Hex Hk. unfold Dec.parse_finite.
  rewrite take_digits_app; [|done|by destruct Hex as [-> | [r ->]]].
  assert (Hrest : match ex with
                  | String c r =>
                      if Ascii.eqb c "." then Dec.take_digits r (dvalue ip 0) 0
                      else (dvalue ip 0, 0, ex)
                  | EmptyString => (dvalue ip 0, 0, ex)
                  end = (dvalue ip 0, 0, ex)).
  { by destruct Hex as [-> | [r ->]]. }
  rewrite Hrest, Hk. destruct ip as [|c ip]; [done|].
  cbn [String.length Nat.add]. by rewrite Z.sub_0_r.
Qed.

Lemma exp_part (leftdigits dotplace : Z) :
  let ex := if (leftdigits =? dotplace)%Z then ""
            else ("E" ++ DecStr.signed_int (leftdigits - dotplace))%string in
  Dec.parse_exp ex = Some (leftdigits - dotplace)%Z /\
  not_digit_first ex /\ plain ex /\ (ex = "" \/ exists r, ex = String "E" r).
Proof.
  cbv zeta. destruct (Z.eqb_spec leftdigits dotplace) as [->|Hne].
  - rewrite Z.sub_diag. repeat split; auto.
  - split; [apply parse_exp_signed|].
    rewrite append_cons, append_nil_l. split; [done|]. split; [|eauto].
    split; [done|]. unfold DecStr.signed_int. apply plain_app. split.
    + by destruct (_ <? 0)%Z.
    + apply all_digits_plain, digits_spec.
Qed.

Lemma plain_literal :
  plain "0" /\ plain "." /\ plain "-" /\ plain "" /\ plain "E".
Proof. vm_compute. tauto. Qed.

(** The digits, the point and the exponent [str] writes for a finite
    number, after the sign. *)
Lemma str_body (sign : bool) (coeff : N) (exp : Z) :
  exists body,
    DecStr.str (Dec.Finite sign coeff exp) = (DecStr.sign_str sign ++ body)%string /\
    plain body /\
    (exists c r, body = String c r /\ Dec.is_digit c = true) /\
    Dec.parse_finite sign body = Some (Dec.Finite sign coeff exp).
Proof.
  unfold DecStr.str. cbv zeta.
  destruct (digits_spec coeff) as (Hd & Hne & Hv). specialize (Hv 0%N).
  rewrite N.mul_0_l, N.add_0_l in Hv.
  set (int_ := DecStr.digits coeff) in *.
  assert (HL : 1 <= String.length int_) by (destruct int_; [done | simpl; lia]).
  set (leftdigits := (exp + Z.of_nat (String.length int_))%Z).
  set (dotplace := if (exp <=? 0)%Z && (-6 <? leftdigits)%Z then leftdigits else 1%Z).
  assert (Hdot : (dotplace = leftdigits /\ (exp <= 0)%Z) \/ dotplace = 1%Z).
  { unfold dotplace. destruct (Z.leb_spec exp 0); [|by right].
    destruct (-6 <? leftdigits)%Z; [left; split; [done | lia] | by right]. }
  destruct (exp_part leftdigits dotplace) as (Hk & Hnd & Hpl & Hshape).
  set (ex := if (leftdigits =? dotplace)%Z then ""
             else ("E" ++ DecStr.signed_int (leftdigits - dotplace))%string) in *.
  pose proof plain_literal as (P0 & Pdot & _). clearbody ex.
  destruct (dotplace <=? 0)%Z eqn:E1.
  - (* 0.000ddd *)
    apply Z.leb_le in E1.
    eexists. split; [reflexivity|].
    assert (Hfd : all_digits (DecStr.zeros (Z.to_nat (- dotplace)) ++ int_)).
    { apply all_digits_app. split; [apply all_digits_zeros | done]. }
    split; [|split].
    + repeat (apply plain_app; split);
        first [assumption | apply all_digits_plain; first [assumption | apply all_digits_zeros | tauto]].
    + by exists "0"%char, (("." ++ DecStr.zeros (Z.to_nat (- dotplace)) ++ int_) ++ ex)%string.
    + rewrite (append_assoc "." _ ex).
      rewrite (parse_finite_frac sign "0" _ ex _ (conj eq_refl I) ltac:(done) Hfd Hnd Hk).
      f_equal. f_equal.
      * rewrite dvalue_app. change (dvalue "0" 0) with 0%N. by rewrite dvalue_zeros.
      * rewrite length_append, length_zeros. unfold leftdigits in *. lia.
  - apply Z.leb_gt in E1.
    destruct (Z.of_nat (String.length int_) <=? dotplace)%Z eqn:E2.
    + (* ddd *)
      apply Z.leb_le in E2.
      assert (Hn : Z.to_nat (dotplace - Z.of_nat (String.length int_)) = 0).
      { unfold leftdigits in *. lia. }
      rewrite Hn. change (DecStr.zeros 0) with "". rewrite append_nil_r.
      eexists. split; [reflexivity|]. rewrite append_nil_l.
      split; [|split].
      * apply plain_app. split; [by apply all_digits_plain | done].
      * destruct (all_digits_first int_ Hd Hne) as (c & r & Hc & Hdig).
        exists c, (r ++ ex)%string. by rewrite Hc, append_cons.
      * rewrite (parse_finite_int sign int_ ex _ Hd Hne Hshape Hk).
        rewrite Hv. f_equal. f_equal. unfold leftdigits in *. lia.
    + (* dd.ddd *)
      apply Z.leb_gt in E2.
      destruct (substring_split int_ (Z.to_nat dotplace)) as [Hsplit Hlen]; [lia|].
      set (ip := substring 0 (Z.to_nat dotplace) int_) in *.
      set (fd := substring (Z.to_nat dotplace)
                   (String.length int_ - Z.to_nat dotplace) int_) in *.
      assert (Hboth : all_digits ip /\ all_digits fd).
      { apply all_digits_app. by rewrite Hsplit. }
      assert (Hipne : ip <> "").
      { intros H0. rewrite H0 in Hlen. simpl in Hlen. lia. }
      assert (Hfdlen : String.length fd = String.length int_ - Z.to_nat dotplace).
      { pose proof (length_append ip fd) as H. rewrite Hsplit in H. lia. }
      eexists. split; [reflexivity|]. split; [|split].
      * repeat (apply plain_app; split);
        first [assumption | apply all_digits_plain; first [assumption | apply all_digits_zeros | tauto]].
      * destruct (all_digits_first ip (proj1 Hboth) Hipne) as (c & r & Hc & Hdig).
        exists c, (r ++ ("." ++ fd) ++ ex)%string. by rewrite Hc, append_cons.
      * rewrite (append_assoc "." _ ex).
        rewrite (parse_finite_frac sign ip fd ex _ (proj1 Hboth) Hipne (proj2 Hboth) Hnd Hk).
        f_equal. f_equal.
        -- by rewrite <- dvalue_app, Hsplit.
        -- rewrite Hfdlen. unfold leftdigits in *. lia.
Qed.

Lemma lower_digits (s : string) : all_digits s -> Str.lower s = s.
Proof.
  induction s as [|c s IH]; [done|]. intros [Hc Hs]. cbn [Str.lower].
  rewrite IH by done. f_equal. by apply digit_not_mark.
Qed.

Lemma substring_all (s : string) : substring 0 (String.length s) s = s.
Proof. induction s as [|c s IH]; [done|]. simpl. by rewrite IH. Qed.

Lemma take_digits_all (s : string) :
  all_digits s -> Dec.take_digits s 0 0 = (dvalue s 0, String.length s, "").
Proof.
  intros H. rewrite <- (append_nil_r s) at 1. by rewrite take_digits_app.
Qed.

(** What [str] writes for a NaN: the payload is no digit for zero. *)
Lemma nan_round_trip (sign signaling : bool) (payload : N) (digits : string) :
  all_digits digits -> dvalue digits 0 = payload ->
  Dec.of_string (DecStr.sign_str sign ++ (if signaling then "sNaN" else "NaN") ++ digits)
  = Some (Dec.NaN sign signaling payload).
Proof.
  intros Hd Hv.
  assert (Hplain : plain (DecStr.sign_str sign
                          ++ (if signaling then "sNaN" else "NaN") ++ digits)).
  { apply plain_app. split; [destruct sign; vm_compute; tauto|].
    apply plain_app. split; [destruct signaling; vm_compute; tauto|].
    by apply all_digits_plain. }
  rewrite of_string_plain by done.
  assert (Hsign : Dec.take_sign (DecStr.sign_str sign
                                 ++ (if signaling then "sNaN" else "NaN") ++ digits)
                  = (sign, ((if signaling then "sNaN" else "NaN") ++ digits)%string)).
  { destruct sign, signaling; reflexivity. }
  rewrite Hsign.
  assert (Hfin : Dec.parse_finite sign ((if signaling then "sNaN" else "NaN") ++ digits)
                 = None).
  { destruct signaling; reflexivity. }
  rewrite Hfin. unfold Dec.parse_special.
  assert (Hlow : Str.lower ((if signaling then "sNaN" else "NaN") ++ digits)
                 = ((if signaling then "snan" else "nan") ++ digits)%string).
  { destruct signaling.
    - rewrite !append_cons, append_nil_l. cbn [Str.lower]. rewrite lower_digits by done.
      reflexivity.
    - rewrite !append_cons, append_nil_l. cbn [Str.lower]. rewrite lower_digits by done.
      reflexivity. }
  rewrite Hlow.
  destruct signaling.
  - rewrite !append_cons, append_nil_l.
    change (String.eqb (String "s" (String "n" (String "a" (String "n" digits)))) "inf")
      with false.
    change (String.eqb (String "s" (String "n" (String "a" (String "n" digits))))
              "infinity") with false.
    cbn [orb]. change (Ascii.eqb "s" "s") with true. cbv iota.
    change (Str.startswith "nan" (String "n" (String "a" (String "n" digits)))) with true.
    cbv iota. cbn [String.length Nat.sub substring].
    rewrite Nat.sub_0_r, substring_all, take_digits_all by done. by rewrite Hv.
  - rewrite !append_cons, append_nil_l.
    change (String.eqb (String "n" (String "a" (String "n" digits))) "inf") with false.
    change (String.eqb (String "n" (String "a" (String "n" digits))) "infinity")
      with false.
    cbn [orb]. change (Ascii.eqb "n" "s") with false. cbv iota.
    change (Str.startswith "nan" (String "n" (String "a" (String "n" digits)))) with true.
    cbv iota. cbn [String.length Nat.sub substring].
    rewrite Nat.sub_0_r, substring_all, take_digits_all by done. by rewrite Hv.
Qed.

Lemma of_string_in_range (s : string) (d : Decimal) :
  Dec.of_string s = Some d -> Dec.in_range d = true.
Proof.
  unfold Dec.of_string. destruct (Dec.take_sign _) as [sign s'].
  destruct (Dec.parse_finite sign s') as [d'|].
  - destruct (Dec.in_range d') eqn:E; [|discriminate]. by intros [= <-].
  - unfold Dec.parse_special.
    destruct (_ || _); [by intros [= <-]|].
    destruct (match Str.lower s' with
              | String c r => if Ascii.eqb c "s" then (true, r) else (false, Str.lower s')
              | EmptyString => (false, Str.lower s')
              end) as [signaling l'].
    destruct (Str.startswith "nan" l'); [|discriminate].
    destruct (Dec.take_digits _ 0 0) as [[p n] [|]]; [|discriminate].
    by intros [= <-].
Qed.

Lemma of_string_str (d : Decimal) :
  Dec.in_range d = true -> Dec.of_string (DecStr.str d) = Some d.
Proof.
  intros Hexact.
  destruct d as [sign coeff exp|sign|sign signaling payload].
  - destruct (str_body sign coeff exp) as (body & -> & Hplain & (c & r & -> & Hc) & Hparse).
    assert (Hp : plain (DecStr.sign_str sign ++ String c r)).
    { apply plain_app. split; [destruct sign; vm_compute; tauto | done]. }
    rewrite of_string_plain by done.
    assert (Hsign : Dec.take_sign (DecStr.sign_str sign ++ String c r)
                    = (sign, String c r)).
    { destruct sign; [reflexivity|]. rewrite append_nil_l. cbn [Dec.take_sign].
      destruct (digit_not_mark c Hc) as (_ & -> & -> & _). done. }
    by rewrite Hsign, Hparse, Hexact.
  - destruct sign; vm_compute; reflexivity.
  - unfold DecStr.str. destruct (N.eqb_spec payload 0) as [->|Hne].
    + by apply nan_round_trip.
    + destruct (digits_spec payload) as (Hd & _ & Hv).
      apply nan_round_trip; [done|]. rewrite Hv. lia.
Qed.

(** A coefficient of at most 28 digits with an exponent the context
    allows is within the limits of the constructor. *)
Lemma in_range_context (s : bool) (c : N) (e : Z) :
  (Dec.ndigits c <= Dec.prec)%Z -> (Dec.Etiny <= e <= Dec.Emax)%Z ->
  Dec.in_range (Dec.Finite s c e) = true.
Proof.
  intros Hc He. pose proof (proj1 (ndigits_spec c)) as H1.
  unfold Dec.in_range, Dec.MIN_ETINY, Dec.MAX_EMAX.
  unfold Dec.Etiny, Dec.Emin, Dec.Emax, Dec.prec in *.
  apply andb_true_intro. split; [apply Z.leb_le; lia|].
  destruct (c =? 0)%N; apply Z.leb_le; lia.
Qed.

Lemma div_pow_lt (c : N) (len digits : Z) :
  (0 <= digits <= len)%Z -> (Z.of_N c < 10 ^ len)%Z ->
  (Z.of_N (c / 10 ^ Z.to_N (len - digits)) < 10 ^ digits)%Z.
Proof.
  intros Hd Hc. rewrite N2Z.inj_div, N2Z.inj_pow, Z2N.id by lia.
  change (Z.of_N 10) with 10%Z.
  apply Z.div_lt_upper_bound; [apply Z.pow_pos_nonneg; lia|].
  rewrite <- Z.pow_add_r by lia. by replace (len - digits + digits)%Z with len by lia.
Qed.

Lemma fix_in_range (d d' : Decimal) : Dec.fix_ d = Ok d' -> Dec.in_range d' = true.
Proof.
  destruct d as [s c e|s|s sg p]; simpl.
  2: { by intros [= <-]. }
  2: { intros [= <-]. unfold Dec.fix_nan. by destruct (_ >? _)%Z. }
  destruct (c =? 0)%N eqn:E0.
  { intros [= <-]. apply in_range_context; [done|].
    unfold Dec.Etiny, Dec.Emin, Dec.Emax, Dec.prec. lia. }
  destruct (ndigits_spec c) as (H1 & H2 & _).
  destruct (Z.gtb_spec (Dec.ndigits c + e - Dec.prec) Dec.Etop) as [|Htop]; [discriminate|].
  set (exp_min := if (Dec.ndigits c + e - Dec.prec <? Dec.Etiny)%Z then Dec.Etiny
                  else (Dec.ndigits c + e - Dec.prec)%Z).
  assert (Hexp : (Dec.Etiny <= exp_min <= Dec.Etop)%Z /\
                 (Dec.ndigits c + e - Dec.prec <= exp_min)%Z).
  { unfold exp_min. destruct (Z.ltb_spec (Dec.ndigits c + e - Dec.prec) Dec.Etiny);
      unfold Dec.Etiny, Dec.Etop, Dec.Emin, Dec.Emax, Dec.prec in *; lia. }
  destruct Hexp as [Hexp Hlow].
  destruct (Z.ltb_spec e exp_min) as [Hlt|Hge].
  2: { intros [= <-]. apply in_range_context.
       - unfold Dec.Etiny, Dec.Etop, Dec.Emin, Dec.Emax, Dec.prec in *. lia.
       - unfold Dec.Etiny, Dec.Etop, Dec.Emin, Dec.Emax, Dec.prec in *. lia. }
  set (digits := (Dec.ndigits c + e - exp_min)%Z).
  assert (Hdig : (digits < Dec.ndigits c)%Z /\ (digits <= Dec.prec)%Z)
    by (unfold digits; lia).
  set (t := if (digits <? 0)%Z then (1%N, 1%Z, 0%Z) else (c, Dec.ndigits c, digits)).
  assert (Ht : exists c1 len dg, t = (c1, len, dg) /\ (0 <= dg <= len)%Z /\
                                 (dg <= Dec.prec)%Z /\ (Z.of_N c1 < 10 ^ len)%Z).
  { unfold t. destruct (Z.ltb_spec digits 0).
    - exists 1%N, 1%Z, 0%Z. unfold Dec.prec. repeat split; lia.
    - exists c, (Dec.ndigits c), digits. repeat split; lia. }
  destruct Ht as (c1 & len & dg & -> & Hdg & Hprec & Hc1).
  pose proof (div_pow_lt c1 len dg Hdg Hc1) as Hq.
  set (coeff := (c1 / 10 ^ Z.to_N (len - dg))%N) in *.
  assert (Hpow : (10 ^ dg <= 10 ^ Dec.prec)%Z) by (apply Z.pow_le_mono_r; lia).
  assert (Hrange : forall x, (Dec.Etiny <= x <= Dec.Etop)%Z ->
                             (Dec.Etiny <= x <= Dec.Emax)%Z).
  { unfold Dec.Etiny, Dec.Etop, Dec.Emin, Dec.Emax, Dec.prec. lia. }
  destruct (Dec.round_half_even c1 len dg >? 0)%Z.
  - destruct (Z.gtb_spec (Dec.ndigits (coeff + 1)) Dec.prec) as [Hbig|Hsmall].
    + destruct (Z.gtb_spec (exp_min + 1) Dec.Etop); [discriminate|].
      intros [= <-]. apply in_range_context; [|apply Hrange; lia].
      apply ndigits_le; [done|].
      rewrite N2Z.inj_div. change (Z.of_N 10) with 10%Z.
      apply Z.div_lt_upper_bound; [lia|].
      rewrite N2Z.inj_add. change (Z.of_N 1) with 1%Z.
      unfold Dec.prec in *. change (10 ^ 28)%Z with 10000000000000000000000000000%Z in *.
      lia.
    + destruct (Z.gtb_spec exp_min Dec.Etop); [lia|].
      intros [= <-]. apply in_range_context; [done | by apply Hrange].
  - destruct (Z.gtb_spec exp_min Dec.Etop); [lia|].
    intros [= <-]. apply in_range_context; [|by apply Hrange].
    apply ndigits_le; [done | lia].
Qed.

Lemma mul_in_range (a b d : Decimal) : Dec.mul a b = Ok d -> Dec.in_range d = true.
Proof.
  unfold Dec.mul.
  destruct (Dec.check_nans a b) as [ans|] eqn:E.
  - intros ->. unfold Dec.check_nans in E.
    destruct a as [? ? ?|?|? [] ?], b as [? ? ?|?|? [] ?]; simplify_eq;
      unfold Dec.fix_nan; by destruct (_ >? _)%Z.
  - destruct a as [s1 c1 e1|s1|], b as [s2 c2 e2|s2|]; try discriminate;
      first [apply fix_in_range
            | destruct (Dec.is_zero _); [discriminate|]; by intros [= <-]].
Qed.

Lemma truediv_in_range (a b d : Decimal) : Dec.truediv a b = Ok d -> Dec.in_range d = true.
Proof.
  unfold Dec.truediv.
  destruct (Dec.check_nans a b) as [ans|] eqn:E.
  - intros ->. unfold Dec.check_nans in E.
    destruct a as [? ? ?|?|? [] ?], b as [? ? ?|?|? [] ?]; simplify_eq;
      unfold Dec.fix_nan; by destruct (_ >? _)%Z.
  - destruct a as [s1 c1 e1|s1|], b as [s2 c2 e2|s2|]; try discriminate;
      try (by intros [= <-]).
    destruct (c2 =? 0)%N; [by destruct (c1 =? 0)%N|].
    destruct (c1 =? 0)%N; [apply fix_in_range|].
    destruct (0 <=? _)%Z; destruct (negb _); try destruct (Dec.strip_zeros _ _ _);
      apply fix_in_range.
Qed.

(** X25. What [str] writes can be read back: for every [Decimal] that the
    constructor can hold (a NaN, an infinity, or a finite number whose
    exponent is at least [MIN_ETINY] and at most [MAX_EMAX], as is its
    adjusted exponent unless it is a zero), [Decimal(str(d))] is [d]
    itself, with its sign, its digits and its exponent.  Every [Decimal]
    read from a string, every product and every quotient is such a
    number; beyond them the constructor refuses what [str] writes.  So
    such a number typed as a concentration is accepted at once as that
    number, and the last cell of a row of the compact output reads back
    as the concentration of the tube. *)
Theorem str_round_trip :
  (forall d, Dec.in_range d = true -> Dec.of_string (DecStr.str d) = Some d) /\
  (forall s d, Dec.of_string s = Some d -> Dec.in_range d = true) /\
  (forall a b d, Dec.mul a b = Ok d -> Dec.in_range d = true) /\
  (forall a b d, Dec.truediv a b = Ok d -> Dec.in_range d = true) /\
  Dec.of_string (DecStr.str (Dec.Finite false 1 (Dec.MAX_EMAX + 1))) = None /\
  (forall d rest,
     Dec.in_range d = true -> ask_cell_conc (DecStr.str d :: rest) = Ok (d, rest)) /\
  (forall grouping_bool tube cells,
     Dec.in_range (cell_conc tube) = true ->
     exists s, last (compact_row grouping_bool tube cells) = Some s /\
               Dec.of_string s = Some (cell_conc tube)).
Proof.
  split; [apply of_string_str|]. split; [apply of_string_in_range|].
  split; [apply mul_in_range|]. split; [apply truediv_in_range|].
  split; [vm_compute; reflexivity|]. split.
  - intros d rest Hd. cbn [ask_cell_conc]. by rewrite of_string_str.
  - intros g tube cells Hd. exists (DecStr.str (cell_conc tube)).
    split; [|by apply of_string_str].
    unfold compact_row. rewrite app_comm_cons, app_assoc. apply last_snoc.
Qed.

Lemma str_round_trip_witness :
  Dec.in_range (Dec.Finite false 1250 (-2)) = true /\
  Dec.of_string (DecStr.str (Dec.Finite false 1250 (-2)))
  = Some (Dec.Finite false 1250 (-2)) /\
  ask_cell_conc [DecStr.str (Dec.Finite false 1250 (-2)); "x"]
  = Ok (Dec.Finite false 1250 (-2), ["x"]).
Proof.
  destruct str_round_trip as (Hstr & _ & _ & _ & _ & Hask & _).
  split; [reflexivity|]. split.
  - apply Hstr. reflexivity.
  - apply Hask. reflexivity.
Defined.
